(** * Peer-aware RPC client (package rpc): shallow embedding and properties

    The embedded code is the client of package [rpc], the last part of
    [go/roothash/api/api.go]: [peerFeedback], [isPeerAcceptable], [Call]
    (with its [tryPeers] closure), [CallMulti], [call] and
    [sendRequestAndDecodeResponse].

    Conventions of the embedding:
    - instants and [time.Duration] values are integers (nanoseconds);
    - a Go [error] result is an [option error], [None] being [nil];
    - a [PeerFeedback] interface value is an [option PeerFeedback];
    - the peer manager, the message codec and the transport host are
      interfaces of the source and stay abstract (type classes and a
      function giving, for each stream, what the remote side does);
    - every function returns, next to its Go results, the new [World]
      (clock and peer-manager state) and the list of [Event]s it emitted:
      calls into the collaborators and the debug lines of the source. *)

From Stdlib Require Import ZArith NArith List String Ascii Bool Lia.
Import ListNotations.
Open Scope string_scope.
Open Scope list_scope.
Open Scope Z_scope.

(** ** Basic data *)

Definition Time := Z.
Definition Duration := Z.
Definition PeerID := string.
Definition ProtocolID := string.
Definition bytes := list Byte.byte.

Definition Second : Duration := 1000000000.

(** [RequestWriteDeadline] is the maximum amount of time that can be spent
    on writing a request. *)
Definition RequestWriteDeadline : Duration := 5 * Second.

(** [DefaultCallRetryInterval] is the default call retry interval. *)
Definition DefaultCallRetryInterval : Duration := 1 * Second.

(** ** Errors *)

Inductive CtxReason := Canceled | DeadlineExceeded.

(** Go error values met by the client.  [ErrWrap p e] is
    [fmt.Errorf("p: %w", e)], [ErrString m] is [fmt.Errorf(m)] without a
    wrapped cause, [ErrExternal] is an error made by a collaborator. *)
Inductive error :=
| ErrCtx (r : CtxReason)
| ErrExternal (msg : string)
| ErrWrap (prefix : string) (cause : error)
| ErrString (msg : string)
| ErrCoded (module : string) (code : N) (message : string).

(** [errors.Unwrap]. *)
Definition Unwrap (e : error) : option error :=
  match e with
  | ErrWrap _ c => Some c
  | _ => None
  end.

(** The chain of an error: itself, then what it wraps, and so on. *)
Fixpoint chain (e : error) : list error :=
  e :: match e with
       | ErrWrap _ c => chain c
       | _ => []
       end.

(** Modelled from the spec: [errors.FromCode] of [go/common/errors] is not
    among the sources.  The specification has the application error
    reconstructed from exactly the module, code and message of the error
    descriptor; it is kept as the error value determined by these three. *)
Definition FromCode (module : string) (code : N) (message : string)
  : option error :=
  Some (ErrCoded module code message).

Definition isAppError (e : error) : bool :=
  match e with
  | ErrCoded _ _ _ => true
  | _ => false
  end.

(** The error of a round in which no peer could service the request. *)
Definition errAllPeersFailed : error := ErrString "call failed on all peers".

(** ** Caller context *)

(** A [context.Context]: the instant at which its [Done] channel closes
    (never, for [None]) and the error [Err] reports from then on. *)
Record Context := {
  doneAt : option Time;
  reason : CtxReason
}.

Definition ctx_done (ctx : Context) (t : Time) : bool :=
  match doneAt ctx with
  | Some d => d <=? t
  | None => false
  end.

Definition ctx_Err (ctx : Context) (t : Time) : option error :=
  if ctx_done ctx t then Some (ErrCtx (reason ctx)) else None.

(** ** Wire envelopes *)

Record Request := {
  Method : string;
  Body : bytes
}.

Record ErrorDescriptor := {
  Module : string;
  Code : N;
  Message : string
}.

(** [Response]: [Error] is a pointer in the source, [nil] being [None]. *)
Record Response := {
  Ok : bytes;
  Error : option ErrorDescriptor
}.

(** ** Collaborators *)

(** The peer manager interface, as far as the client uses it. *)
Class PeerManager (M : Type) := {
  GetBestPeers : M -> list PeerID;
  RecordSuccess : PeerID -> Duration -> M -> M;
  RecordFailure : PeerID -> Duration -> M -> M;
  RecordBadPeer : PeerID -> M -> M
}.

(** The CBOR codec on Go values.  [Unmarshal data dst] gives the error and
    the new content of the pointed-to value; [Zero v] is the fresh value
    behind [reflect.New(reflect.TypeOf(v))]. *)
Class Codec (V : Type) := {
  Marshal : V -> bytes;
  Unmarshal : bytes -> V -> option error * V;
  Zero : V -> V
}.

(** What happens on one stream: the result of [NewStream], of the codec's
    [Write] and of its [Read], each with the time the call blocks. *)
Record Stream := {
  open_err : option error;
  open_time : N;
  write_err : option error;
  write_time : N;
  read_res : error + Response;
  read_time : N
}.

(** [host.NewStream] and the remote side behind it. *)
Definition Host := Context -> Time -> PeerID -> ProtocolID -> Request -> Stream.

(** ** Events *)

Inductive Event :=
| EvMarshal
| EvGetBestPeers (t : Time)
| EvTryingPeer (p : PeerID) (t : Time)
| EvNewStream (p : PeerID) (t : Time) (ok : bool)
| EvSetWriteDeadline (p : PeerID) (d : option Time)
| EvWrite (p : PeerID) (req : Request) (ok : bool)
| EvSetReadDeadline (p : PeerID) (d : option Time)
| EvRead (p : PeerID) (ok : bool)
| EvUnmarshal (p : PeerID) (ok : bool)
| EvClose (p : PeerID)
| EvRecordFailure (p : PeerID) (latency : Duration)
| EvNoPeers
| EvWait (from : Time) (d : Duration).

(** ** Peer feedback *)

(** The two implementations of the [PeerFeedback] interface: [peerFeedback]
    (the manager is the client's own) and [nopPeerFeedback]. *)
Inductive PeerFeedback :=
| peerFeedback (peerID : PeerID) (latency : Duration)
| nopPeerFeedback.

Definition NewNopPeerFeedback : PeerFeedback := nopPeerFeedback.

Section Client.

Context {M : Type} {PM : PeerManager M}.
Context {V : Type} {CD : Codec V}.




(** ** Client state *)

Record ClientOptions := {
  stickyPeers : bool;
  peerFilter : option (PeerID -> bool)
}.

Definition ClientOption := ClientOptions -> ClientOptions.

Definition WithStickyPeers (enabled : bool) : ClientOption :=
  fun opts => {| stickyPeers := enabled; peerFilter := peerFilter opts |}.

Definition WithPeerFilter (filter : PeerID -> bool) : ClientOption :=
  fun opts => {| stickyPeers := stickyPeers opts; peerFilter := Some filter |}.

Record CallOptions := {
  retryInterval : Duration;
  maxRetries : N
}.

Definition CallOption := CallOptions -> CallOptions.

Definition WithMaxRetries (n : N) : CallOption :=
  fun opts => {| retryInterval := retryInterval opts; maxRetries := n |}.

Definition WithRetryInterval (d : Duration) : CallOption :=
  fun opts => {| retryInterval := d; maxRetries := maxRetries opts |}.

(** The immutable part of [client]. *)
Record client := {
  host : Host;
  protocolID : ProtocolID;
  opts : ClientOptions
}.

(** The mutable part: the clock and the embedded peer manager. *)
Record World := {
  now : Time;
  mgr : M
}.

Definition tick (d : N) (w : World) : World :=
  {| now := now w + Z.of_N d; mgr := mgr w |}.

(** A response container: [None] is a [nil] [rsp], [Some v] a pointer to a
    value whose content is [v]. *)
Definition Container := option V.

Definition isPeerAcceptable (c : client) (peerID : PeerID) : bool :=
  match peerFilter (opts c) with
  | None => true
  | Some f => f peerID
  end.

(** ** One transport attempt *)

Record SendRet := {
  s_err : option error;
  s_rsp : Container;
  s_world : World;
  s_log : list Event
}.

(** The part of [sendRequestAndDecodeResponse] that runs with the stream
    open, that is, under the deferred [stream.Close()]. *)
Definition exchange (s : Stream) (peerID : PeerID) (request : Request)
    (rsp : Container) (maxPeerResponseTime : Duration) (w : World) : SendRet :=
  (* Send request. *)
  let ev1 := [EvSetWriteDeadline peerID (Some (now w + RequestWriteDeadline))] in
  let w := tick (write_time s) w in
  match write_err s with
  | Some e =>
      {| s_err := Some (ErrWrap "failed to send request" e); s_rsp := rsp;
         s_world := w; s_log := ev1 ++ [EvWrite peerID request false] |}
  | None =>
      let ev2 := ev1 ++ [EvWrite peerID request true;
                         EvSetWriteDeadline peerID None;
                         EvSetReadDeadline peerID
                           (Some (now w + maxPeerResponseTime))] in
      (* Read response. *)
      let w := tick (read_time s) w in
      match read_res s with
      | inl e =>
          {| s_err := Some (ErrWrap "failed to read response" e); s_rsp := rsp;
             s_world := w; s_log := ev2 ++ [EvRead peerID false] |}
      | inr rawRsp =>
          (* The source resets the write deadline here, not the read one. *)
          let ev3 := ev2 ++ [EvRead peerID true; EvSetWriteDeadline peerID None] in
          (* Decode response. *)
          match Error rawRsp with
          | Some d =>
              {| s_err := FromCode (Module d) (Code d) (Message d); s_rsp := rsp;
                 s_world := w; s_log := ev3 |}
          | None =>
              match rsp with
              | Some v =>
                  let (e, v') := Unmarshal (Ok rawRsp) v in
                  {| s_err := e; s_rsp := Some v'; s_world := w;
                     s_log := ev3 ++ [EvUnmarshal peerID
                                        (match e with None => true | _ => false end)] |}
              | None =>
                  {| s_err := None; s_rsp := rsp; s_world := w; s_log := ev3 |}
              end
          end
      end
  end.

Definition sendRequestAndDecodeResponse (c : client) (ctx : Context)
    (peerID : PeerID) (request : Request) (rsp : Container)
    (maxPeerResponseTime : Duration) (w : World) : SendRet :=
  (* Attempt to open stream to the given peer. *)
  let s := host c ctx (now w) peerID (protocolID c) request in
  let t0 := now w in
  let w := tick (open_time s) w in
  match open_err s with
  | Some e =>
      {| s_err := Some (ErrWrap "failed to open stream" e); s_rsp := rsp;
         s_world := w; s_log := [EvNewStream peerID t0 false] |}
  | None =>
      let r := exchange s peerID request rsp maxPeerResponseTime w in
      (* defer stream.Close() *)
      {| s_err := s_err r; s_rsp := s_rsp r; s_world := s_world r;
         s_log := EvNewStream peerID t0 true :: s_log r ++ [EvClose peerID] |}
  end.

Record CallRet := {
  r_pf : option PeerFeedback;
  r_err : option error;
  r_rsp : Container;
  r_world : World;
  r_log : list Event
}.

Definition call (c : client) (ctx : Context) (peerID : PeerID)
    (request : Request) (rsp : Container) (maxPeerResponseTime : Duration)
    (w : World) : CallRet :=
  if ctx_done ctx (now w) then
    {| r_pf := None; r_err := ctx_Err ctx (now w); r_rsp := rsp;
       r_world := w; r_log := [] |}
  else
    let startTime := now w in
    let r := sendRequestAndDecodeResponse c ctx peerID request rsp
               maxPeerResponseTime w in
    match s_err r with
    | Some err =>
        let since := now (s_world r) - startTime in
        {| r_pf := None; r_err := Some err; r_rsp := s_rsp r;
           r_world := {| now := now (s_world r);
                         mgr := RecordFailure peerID since (mgr (s_world r)) |};
           r_log := s_log r ++ [EvRecordFailure peerID since] |}
    | None =>
        {| r_pf := Some (peerFeedback peerID (now (s_world r) - startTime));
           r_err := None; r_rsp := s_rsp r; r_world := s_world r;
           r_log := s_log r |}
    end.

Definition with_log (l : list Event) (r : CallRet) : CallRet :=
  {| r_pf := r_pf r; r_err := r_err r; r_rsp := r_rsp r;
     r_world := r_world r; r_log := l ++ r_log r |}.

(** ** Single-peer call *)

(** The loop of the [tryPeers] closure of [Call].  [pf] is the variable of
    [Call] that the closure assigns on every attempt; [rsp] is the caller's
    container, shared by all attempts. *)
Fixpoint tryPeersLoop (c : client) (ctx : Context) (request : Request)
    (maxPeerResponseTime : Duration) (peers : list PeerID)
    (pf : option PeerFeedback) (rsp : Container) (w : World) : CallRet :=
  match peers with
  | [] =>
      (* No peers could be reached to service this request. *)
      {| r_pf := pf; r_err := Some errAllPeersFailed; r_rsp := rsp;
         r_world := w; r_log := [EvNoPeers] |}
  | peer :: rest =>
      if negb (isPeerAcceptable c peer) then
        tryPeersLoop c ctx request maxPeerResponseTime rest pf rsp w
      else
        let r := call c ctx peer request rsp maxPeerResponseTime w in
        match r_err r with
        | Some _ =>
            with_log (EvTryingPeer peer (now w) :: r_log r)
              (tryPeersLoop c ctx request maxPeerResponseTime rest
                 (r_pf r) (r_rsp r) (r_world r))
        | None =>
            with_log [EvTryingPeer peer (now w)] r
        end
  end.

Definition tryPeers (c : client) (ctx : Context) (request : Request)
    (maxPeerResponseTime : Duration)
    (pf : option PeerFeedback) (rsp : Container) (w : World) : CallRet :=
  with_log [EvGetBestPeers (now w)]
    (tryPeersLoop c ctx request maxPeerResponseTime (GetBestPeers (mgr w))
       pf rsp w).

(** [backoff.Stop]. *)
Definition Stop : Duration := -1.

(** Modelled from the spec: [NextBackOff] of the back-off policy
    [backoff.WithContext(backoff.WithMaxRetries(backoff.NewConstantBackOff(
    interval), maxRetries), ctx)]; the package [cenkalti/backoff] is not
    part of the sources.  The policy stops when the context is done or no
    retry is left, and gives the constant interval otherwise. *)
Definition NextBackOff (ctx : Context) (t : Time) (retriesLeft : nat)
    (interval : Duration) : Duration :=
  if ctx_done ctx t then Stop
  else match retriesLeft with
       | O => Stop
       | S _ => interval
       end.

(** The return of [backoff.Retry] when the policy stops after a round that
    failed with [err]: the error of the context when there is one, [err]
    otherwise. *)
Definition stopped (ctx : Context) (r : CallRet) (err : error) : CallRet :=
  {| r_pf := r_pf r;
     r_err := match ctx_Err ctx (now (r_world r)) with
              | Some cerr => Some cerr
              | None => Some err
              end;
     r_rsp := r_rsp r; r_world := r_world r; r_log := r_log r |}.

(** Modelled from the spec: [backoff.Retry] under that policy; the package
    is not part of the sources.  A failed round is followed, when the policy
    does not stop, by a wait of the interval and by another round; the wait
    ends early, with the context's error, when the context is done before
    the timer fires (or at the very instant it fires, where Go may take
    either case of the [select]). *)
Fixpoint Retry (retriesLeft : nat) (interval : Duration) (ctx : Context)
    (operation : option PeerFeedback -> Container -> World -> CallRet)
    (pf : option PeerFeedback) (rsp : Container) (w : World) : CallRet :=
  let r := operation pf rsp w in
  match r_err r with
  | None => r
  | Some err =>
      let t := now (r_world r) in
      let next := NextBackOff ctx t retriesLeft interval in
      match retriesLeft with
      | O => stopped ctx r err
      | S retriesLeft' =>
          if next =? Stop then stopped ctx r err
          else
            let fire := t + Z.max 0 next in
            let cancelled :=
              match doneAt ctx with
              | Some d => d <=? fire
              | None => false
              end in
            if cancelled then
              {| r_pf := r_pf r; r_err := Some (ErrCtx (reason ctx));
                 r_rsp := r_rsp r;
                 r_world := {| now := match doneAt ctx with
                                      | Some d => Z.max t d
                                      | None => t
                                      end;
                               mgr := mgr (r_world r) |};
                 r_log := r_log r ++ [EvWait t next] |}
            else
              with_log (r_log r ++ [EvWait t next])
                (Retry retriesLeft' interval ctx operation (r_pf r) (r_rsp r)
                   {| now := fire; mgr := mgr (r_world r) |})
      end
  end.

Definition defaultCallOptions : CallOptions :=
  {| retryInterval := DefaultCallRetryInterval; maxRetries := 0 |}.

Definition applyCallOptions (opts : list CallOption) : CallOptions :=
  fold_left (fun co opt => opt co) opts defaultCallOptions.

Definition Call (c : client) (ctx : Context) (method : string) (body : V)
    (rsp : Container) (maxPeerResponseTime : Duration)
    (opts : list CallOption) (w : World) : CallRet :=
  let co := applyCallOptions opts in
  (* Prepare the request. *)
  let request := {| Method := method; Body := Marshal body |} in
  let tryPeers := tryPeers c ctx request maxPeerResponseTime in
  with_log [EvMarshal]
    (if (0 <? maxRetries co)%N then
       Retry (N.to_nat (maxRetries co)) (retryInterval co) ctx tryPeers
         None rsp w
     else
       tryPeers None rsp w).

(** ** Fan-out call *)

(** One task of the worker pool: the peer of the iteration that submitted
    it, the peer that it called, the worker that ran it, the instant it
    started and what its single [call] returned. *)
Record TaskRun := {
  t_for : PeerID;
  t_peer : PeerID;
  t_worker : nat;
  t_start : Time;
  t_result : CallRet
}.

Definition t_finish (r : TaskRun) : Time := now (r_world (t_result r)).

(** The first worker that becomes free, and when. *)
Fixpoint earliest (workers : list Time) : nat * Time :=
  match workers with
  | [] => (O, 0)
  | [f] => (O, f)
  | f :: rest =>
      let (i, m) := earliest rest in
      if f <=? m then (O, f) else (S i, m)
  end.

Fixpoint setFree (i : nat) (f : Time) (workers : list Time) {struct workers}
  : list Time :=
  match workers, i with
  | [], _ => []
  | _ :: rest, O => f :: rest
  | x :: rest, S i' => x :: setFree i' f rest
  end.

(** Modelled from the spec: the pool of [go/common/workerpool], which is
    not part of the sources, is a fixed-size pool: [workers] holds, for each
    of its workers, the instant from which it is free, and a submitted job
    is run by the first worker that becomes free.  A pool without workers
    runs nothing.  The body of the job is the closure of [CallMulti]: a
    fresh container of the type of [rspTyp] and a single [call], on the
    peer that the closure reads in the variable [peer] when it starts
    ([read]). *)
Definition submit (job : PeerID -> Time -> CallRet) (workers : list Time)
    (peer : PeerID) (read : Time -> PeerID) : option TaskRun * list Time :=
  match workers with
  | [] => (None, [])
  | _ =>
      let (i, start) := earliest workers in
      let called := read start in
      let r := job called start in
      (Some {| t_for := peer; t_peer := called; t_worker := i;
               t_start := start; t_result := r |},
       setFree i (now (r_world r)) workers)
  end.

(** The variable [peer] of the submission loop.  In the Go of this code
    (before 1.22) the variable of a [range] loop is one variable for the
    whole loop, assigned by every iteration, also by those that [continue];
    the closure of a task does not copy it and reads it when it calls.
    The loop itself takes no time: it runs at the instant [t0] of the call.
    A task that starts later finds in the variable the last peer of the
    ranking.  A task that starts at [t0] runs while the loop does: it finds
    the peer of its own iteration [i] or that of a later one, [ahead]
    iterations further, as far as the loop has got by then. *)
Definition peerRead (ranking : list PeerID) (t0 : Time) (i ahead : nat)
    (peer : PeerID) (start : Time) : PeerID :=
  if t0 <? start then last ranking peer
  else nth (i + ahead) ranking (last ranking peer).

(** The submission loop of [CallMulti]: one result channel, and one job,
    for each acceptable peer.  The list holds, per channel, the run whose
    result the channel receives ([None] when the job is never run).  [i]
    counts the iterations and [j] the jobs; [rd j] says how far ahead of
    the job [j] the loop is when that job reads the variable [peer]. *)
Fixpoint submitAll (c : client) (job : PeerID -> Time -> CallRet)
    (rd : nat -> nat) (ranking : list PeerID) (t0 : Time)
    (workers : list Time) (i j : nat) (peers : list PeerID)
  : list (option TaskRun) :=
  match peers with
  | [] => []
  | peer :: rest =>
      if negb (isPeerAcceptable c peer) then
        submitAll c job rd ranking t0 workers (S i) j rest
      else
        let (run, workers') :=
          submit job workers peer (peerRead ranking t0 i (rd j) peer) in
        run :: submitAll c job rd ranking t0 workers' (S i) (S j) rest
  end.

Inductive Selected :=
| SelBlocked
| SelDone (t : Time)
| SelRecv (run : TaskRun) (t : Time).

(** The [select] of the gathering loop, entered at [t], on [ctx.Done()] and
    on a result channel.  The case that is ready first is taken; when both
    are ready at once Go picks either, which [pickDone] decides here. *)
Definition select (ctx : Context) (pickDone : bool) (ch : option TaskRun)
    (t : Time) : Selected :=
  match ch, doneAt ctx with
  | None, None => SelBlocked
  | Some run, None => SelRecv run (Z.max t (t_finish run))
  | None, Some d => SelDone (Z.max t d)
  | Some run, Some d =>
      let tc := Z.max t (t_finish run) in
      let td := Z.max t d in
      if tc <? td then SelRecv run tc
      else if td <? tc then SelDone td
      else if pickDone then SelDone td
      else SelRecv run tc
  end.

Inductive Outcome :=
| Blocked
| Returned (rsps : list Container) (pfs : list (option PeerFeedback))
           (err : option error) (t : Time).

(** The gathering loop of [CallMulti]; [i] counts the channels read. *)
Fixpoint gather (ctx : Context) (sel : nat -> bool) (i : nat)
    (resultCh : list (option TaskRun)) (t : Time)
    (rsps : list Container) (pfs : list (option PeerFeedback)) : Outcome :=
  match resultCh with
  | [] => Returned rsps pfs None t
  | ch :: rest =>
      match select ctx (sel i) ch t with
      | SelBlocked => Blocked
      | SelDone t' => Returned [] [] (ctx_Err ctx t') t'
      | SelRecv run t' =>
          (* Ignore failed results. *)
          match r_err (t_result run) with
          | Some _ => gather ctx sel (S i) rest t' rsps pfs
          | None =>
              gather ctx sel (S i) rest t'
                (rsps ++ [r_rsp (t_result run)])
                (pfs ++ [r_pf (t_result run)])
          end
      end
  end.

Record MultiRet := {
  m_out : Outcome;
  m_runs : list (option TaskRun);
  m_log : list Event
}.

(** [CallMulti].  The updates of the peer manager made by the tasks are in
    the logs of their runs; [sel] resolves the ties of the [select]s and
    [rd] the race of the first tasks with the submission loop. *)
Definition CallMulti (c : client) (ctx : Context) (sel : nat -> bool)
    (rd : nat -> nat)
    (method : string) (body rspTyp : V) (maxPeerResponseTime : Duration)
    (maxParallelRequests : N) (w : World) : MultiRet :=
  (* Prepare the request. *)
  let request := {| Method := method; Body := Marshal body |} in
  (* Create a worker pool. *)
  let pool := repeat (now w) (N.to_nat maxParallelRequests) in
  let job := fun peer start =>
    call c ctx peer request (Some (Zero rspTyp)) maxPeerResponseTime
      {| now := start; mgr := mgr w |} in
  let ranking := GetBestPeers (mgr w) in
  let resultCh := submitAll c job rd ranking (now w) pool O O ranking in
  {| m_out := gather ctx sel O resultCh (now w) [] [];
     m_runs := resultCh;
     m_log := [EvMarshal; EvGetBestPeers (now w)] |}.

(** The number of attempts in flight at instant [t]. *)
Definition inFlightAt (t : Time) (run : TaskRun) : bool :=
  (t_start run <=? t) && (t <? t_finish run).

Fixpoint runsOf (chs : list (option TaskRun)) : list TaskRun :=
  match chs with
  | [] => []
  | Some r :: rest => r :: runsOf rest
  | None :: rest => runsOf rest
  end.

Definition inFlight (t : Time) (chs : list (option TaskRun)) : nat :=
  List.length (filter (inFlightAt t) (runsOf chs)).

(** ** Observations on logs and streams *)

Definition isRecordFailure (e : Event) : bool :=
  match e with
  | EvRecordFailure _ _ => true
  | _ => false
  end.

Definition isClose (e : Event) : bool :=
  match e with
  | EvClose _ => true
  | _ => false
  end.

Definition isNewStream (e : Event) : bool :=
  match e with
  | EvNewStream _ _ _ => true
  | _ => false
  end.

Definition isMarshal (e : Event) : bool :=
  match e with
  | EvMarshal => true
  | _ => false
  end.

(** The peers a log shows as tried, in order. *)
Fixpoint tried (log : list Event) : list PeerID :=
  match log with
  | [] => []
  | EvTryingPeer p _ :: rest => p :: tried rest
  | _ :: rest => tried rest
  end.

(** The instants at which a log shows a round to start: a round starts by
    asking the peer manager for its ranking. *)
Fixpoint roundStarts (log : list Event) : list Time :=
  match log with
  | [] => []
  | EvGetBestPeers t :: rest => t :: roundStarts rest
  | _ :: rest => roundStarts rest
  end.

(** The steps of an attempt. *)
Inductive Op :=
| OpOpen | OpSetWriteDeadline | OpWrite | OpClearWriteDeadline
| OpSetReadDeadline | OpClearReadDeadline | OpRead | OpDecode | OpClose
| OpOther.

Definition opOf (e : Event) : Op :=
  match e with
  | EvNewStream _ _ _ => OpOpen
  | EvSetWriteDeadline _ (Some _) => OpSetWriteDeadline
  | EvSetWriteDeadline _ None => OpClearWriteDeadline
  | EvWrite _ _ _ => OpWrite
  | EvSetReadDeadline _ (Some _) => OpSetReadDeadline
  | EvSetReadDeadline _ None => OpClearReadDeadline
  | EvRead _ _ => OpRead
  | EvUnmarshal _ _ => OpDecode
  | EvClose _ => OpClose
  | _ => OpOther
  end.

(** The events by which a step reports that it failed. *)
Definition reportsFailure (e : Event) : bool :=
  match e with
  | EvNewStream _ _ false => true
  | EvWrite _ _ false => true
  | EvRead _ false => true
  | EvUnmarshal _ false => true
  | _ => false
  end.

(** The order of the steps of a complete attempt, the closing of the
    stream apart. *)
Definition attemptOrder : list Op :=
  [OpOpen; OpSetWriteDeadline; OpWrite; OpClearWriteDeadline;
   OpSetReadDeadline; OpRead; OpClearWriteDeadline; OpDecode].

(** A log opens its stream under a deadline when a deadline was set before
    [NewStream]. *)
Definition openUnderDeadline (log : list Event) : Prop :=
  exists pre p t ok post,
    log = pre ++ EvNewStream p t ok :: post /\
    exists q d, In (EvSetWriteDeadline q (Some d)) pre \/
                In (EvSetReadDeadline q (Some d)) pre.

(** The write deadline of a log comes from the caller's time-out [T] when
    it is [T] after the instant [t] at which it is set. *)
Definition writeDeadlineFrom (T : Duration) (t : Time) (log : list Event)
  : Prop :=
  forall p d, In (EvSetWriteDeadline p (Some d)) log -> d = t + T.

Definition readDeadlineFrom (T : Duration) (t : Time) (log : list Event)
  : Prop :=
  forall p d, In (EvSetReadDeadline p (Some d)) log -> d = t + T.

(** Every blocking call of an attempt under a deadline that comes from the
    caller's time-out. *)
Definition deadlinesFromCaller (T : Duration) (opened written : Time)
    (log : list Event) : Prop :=
  openUnderDeadline log /\
  writeDeadlineFrom T opened log /\
  readDeadlineFrom T written log.

(** The rounds of a log are spaced by the interval: every round but the
    first comes right after a wait of the interval, at the instant that the
    wait ends, and the context is not done at that instant. *)
Definition spaced (ctx : Context) (interval : Duration) (log : list Event)
  : Prop :=
  forall l1 t' l2,
    log = l1 ++ EvGetBestPeers t' :: l2 -> roundStarts l1 <> [] ->
    exists l0 t,
      l1 = l0 ++ [EvWait t interval] /\
      t' = t + Z.max 0 interval /\
      ctx_done ctx t' = false.

(** An error carries another one when the latter is in its chain. *)
Definition carries (e observed : error) : Prop := In observed (chain e).

(** A log attempts no round on a done context. *)
Definition noRoundOnceDone (ctx : Context) (log : list Event) : Prop :=
  forall t, In t (roundStarts log) -> ctx_done ctx t = false.

(** Whether the stream carries a complete round trip whose payload decodes
    into the container. *)
Definition roundTripOk (s : Stream) (rsp : Container) : bool :=
  match open_err s, write_err s, read_res s with
  | None, None, inr rawRsp =>
      match Error rawRsp, rsp with
      | Some _, _ => false
      | None, None => true
      | None, Some v =>
          match fst (Unmarshal (Ok rawRsp) v) with
          | None => true
          | Some _ => false
          end
      end
  | _, _, _ => false
  end.

(** One attempt of a round: the peer, the instant and the result. *)
Record Attempt := {
  a_peer : PeerID;
  a_at : Time;
  a_ret : CallRet
}.

(** The round as the specification words it: the candidates are attempted
    one after the other, in their order. *)
Fixpoint attempts (c : client) (ctx : Context) (request : Request)
    (maxPeerResponseTime : Duration) (candidates : list PeerID)
    (rsp : Container) (w : World) : list Attempt :=
  match candidates with
  | [] => []
  | p :: rest =>
      let r := call c ctx p request rsp maxPeerResponseTime w in
      {| a_peer := p; a_at := now w; a_ret := r |}
        :: attempts c ctx request maxPeerResponseTime rest (r_rsp r) (r_world r)
  end.

(** ... and the first success wins: the attempts up to, and with, the
    first one without an error. *)
Fixpoint untilSuccess (l : list Attempt) : list Attempt :=
  match l with
  | [] => []
  | a :: rest =>
      match r_err (a_ret a) with
      | None => [a]
      | Some _ => a :: untilSuccess rest
      end
  end.

Definition succeeded (run : TaskRun) : bool :=
  match r_err (t_result run) with
  | None => true
  | Some _ => false
  end.

End Client.

(** ** Test doubles

    Small instances of the collaborators, on which the functions above are
    run: a peer manager that keeps what is recorded, a codec of raw byte
    strings, and hosts whose peers behave in a fixed way. *)

Module Scenario.

Record Ledger := {
  connected : list PeerID;
  bad : list PeerID;
  successes : list (PeerID * Duration);
  failures : list (PeerID * Duration)
}.

Definition notIn (l : list PeerID) (p : PeerID) : bool :=
  negb (existsb (String.eqb p) l).

#[export] Instance LedgerManager : PeerManager Ledger := {
  GetBestPeers m := filter (notIn (bad m)) (connected m);
  RecordSuccess p d m :=
    {| connected := connected m; bad := bad m;
       successes := successes m ++ [(p, d)]; failures := failures m |};
  RecordFailure p d m :=
    {| connected := connected m; bad := bad m;
       successes := successes m; failures := failures m ++ [(p, d)] |};
  RecordBadPeer p m :=
    {| connected := connected m; bad := p :: bad m;
       successes := successes m; failures := failures m |}
}.

(** Values are byte strings, encoded as themselves; an empty payload does
    not decode. *)
#[export] Instance RawCodec : Codec bytes := {
  Marshal v := v;
  Unmarshal data v :=
    match data with
    | [] => (Some (ErrExternal "EOF"), v)
    | _ => (None, data)
    end;
  Zero _ := []
}.

Definition ms : N := 1000000.

Definition answering (rsp : Response) (after : N) : Stream :=
  {| open_err := None; open_time := 1 * ms;
     write_err := None; write_time := 1 * ms;
     read_res := inr rsp; read_time := after |}.

Definition timingOut (after : N) : Stream :=
  {| open_err := None; open_time := 1 * ms;
     write_err := None; write_time := 1 * ms;
     read_res := inl (ErrExternal "i/o timeout"); read_time := after |}.

Definition unreachable : Stream :=
  {| open_err := Some (ErrExternal "no connection"); open_time := 0;
     write_err := None; write_time := 0;
     read_res := inl (ErrExternal "closed"); read_time := 0 |}.

Definition notFound : ErrorDescriptor :=
  {| Module := "storage"; Code := 3; Message := "not found" |}.

(** Peer A times out after two seconds, B echoes the request body after
    ten milliseconds, C answers with an error descriptor, D echoes after
    three seconds, E answers with an empty payload; nobody else is
    reachable. *)
Definition testHost : Host :=
  fun _ _ p _ req =>
    if String.eqb p "A" then timingOut (2000 * ms)
    else if String.eqb p "B" then
      answering {| Ok := Body req; Error := None |} (10 * ms)
    else if String.eqb p "C" then
      answering {| Ok := []; Error := Some notFound |} (10 * ms)
    else if String.eqb p "D" then
      answering {| Ok := Body req; Error := None |} (3000 * ms)
    else if String.eqb p "E" then
      answering {| Ok := []; Error := None |} (10 * ms)
    else unreachable.

(** A host all of whose peers answer "not found". *)
Definition refusingHost : Host :=
  fun _ _ _ _ _ => answering {| Ok := []; Error := Some notFound |} (10 * ms).

Definition refusingClient : client :=
  {| host := refusingHost; protocolID := "echo/1";
     opts := {| stickyPeers := false; peerFilter := None |} |}.

Definition testClient (filter : option (PeerID -> bool)) : client :=
  {| host := testHost; protocolID := "echo/1";
     opts := {| stickyPeers := false; peerFilter := filter |} |}.

Definition peers (l : list PeerID) : Ledger :=
  {| connected := l; bad := []; successes := []; failures := [] |}.

Definition world (t : Time) (l : list PeerID) : World (M := Ledger) :=
  {| now := t; mgr := peers l |}.

Definition background : Context := {| doneAt := None; reason := Canceled |}.

Definition cancelledAt (t : Time) : Context :=
  {| doneAt := Some t; reason := Canceled |}.

Definition hello : bytes :=
  [Byte.x68; Byte.x65; Byte.x6c; Byte.x6c; Byte.x6f].

Definition echoRequest : Request := {| Method := "echo"; Body := hello |}.

End Scenario.


(** * Node descriptors (package node)

    The roles bitmask and its text form, the descriptor's version check,
    roles and runtimes, the comparison of TLS information, the TEE hardware
    names and the verification of a TEE capability. *)

Definition uint32 (z : Z) : Z := z mod 2 ^ 32.

(** Errors of package [node].  [ErrQuoted s d] is
    [fmt.Errorf("%w: '%s'", s, d)]; [ErrCollaborator e] is an error that a
    collaborator returned, passed on as it is. *)
Inductive NodeError :=
| ErrInvalidRole
| ErrDuplicateRole
| ErrInvalidTEEHardware
| ErrRAKHashMismatch
| ErrBadEnclaveIdentity
| ErrConstraintViolation
| ErrQuoted (sentinel : NodeError) (detail : string)
| ErrStrictVersion (expected got : Z)
| ErrVersionRange (min max : Z)
| ErrMalformedConstraints (cause : error)
| ErrCollaborator (e : error).

(** ** Roles *)

Definition RolesMask := Z.

Definition RoleComputeWorker : RolesMask := Z.shiftl 1 0.
Definition RoleStorageWorker : RolesMask := Z.shiftl 1 1.
Definition RoleKeyManager : RolesMask := Z.shiftl 1 2.
Definition RoleValidator : RolesMask := Z.shiftl 1 3.
Definition RoleConsensusRPC : RolesMask := Z.shiftl 1 4.
Definition RoleStorageRPC : RolesMask := Z.shiftl 1 5.

(** All the bits of the bitmask that are reserved and must not be used. *)
Definition RoleReserved : RolesMask :=
  Z.land (Z.shiftl 1 32 - 1)
    (uint32 (Z.lnot (Z.shiftl RoleStorageRPC 1 - 1))).

Definition RoleComputeWorkerName : string := "compute".
Definition RoleStorageWorkerName : string := "storage".
Definition RoleKeyManagerName : string := "key-manager".
Definition RoleValidatorName : string := "validator".
Definition RoleConsensusRPCName : string := "consensus-rpc".
Definition RoleStorageRPCName : string := "storage-rpc".

Definition rolesMaskStringSep : string := ",".

Definition Roles : list RolesMask :=
  [RoleComputeWorker; RoleStorageWorker; RoleKeyManager; RoleValidator;
   RoleConsensusRPC; RoleStorageRPC].

(** Exactly one bit is set, and the set bit is a valid role.  The
    subtraction is the one of [uint32]. *)
Definition IsSingleRole (m : RolesMask) : bool :=
  negb (m =? 0) && (Z.land m (uint32 (m - 1)) =? 0)
  && (Z.land m RoleReserved =? 0).

Definition appendIf (m role : RolesMask) (name : string) (ret : list string)
  : list string :=
  if negb (Z.land m role =? 0) then ret ++ [name] else ret.

Definition RolesMask_String (m : RolesMask) : string :=
  if negb (Z.land m RoleReserved =? 0) then "[invalid roles]"
  else
    let ret := [] in
    let ret := appendIf m RoleComputeWorker RoleComputeWorkerName ret in
    let ret := appendIf m RoleStorageWorker RoleStorageWorkerName ret in
    let ret := appendIf m RoleKeyManager RoleKeyManagerName ret in
    let ret := appendIf m RoleValidator RoleValidatorName ret in
    let ret := appendIf m RoleConsensusRPC RoleConsensusRPCName ret in
    let ret := appendIf m RoleStorageRPC RoleStorageRPCName ret in
    String.concat rolesMaskStringSep ret.

Definition MarshalText (m : RolesMask) : string * option NodeError :=
  (RolesMask_String m, None).

Definition checkDuplicateRole (newRole curRoles : RolesMask)
  : option NodeError :=
  if negb (Z.land curRoles newRole =? 0) then
    Some (ErrQuoted ErrDuplicateRole (RolesMask_String newRole))
  else None.

(** [strings.Split(s, sep)] for a separator of one byte: the pieces of [s]
    between the separators, one piece for a string without separator, the
    empty string included. *)
Fixpoint Split (s : string) (sep : Ascii.ascii) : list string :=
  match s with
  | EmptyString => [EmptyString]
  | String c rest =>
      if Ascii.eqb c sep then EmptyString :: Split rest sep
      else match Split rest sep with
           | [] => [String c EmptyString]
           | piece :: pieces => String c piece :: pieces
           end
  end.

(** A string that does not hold the separator. *)
Definition noSeparator (sep : ascii) (s : string) : Prop :=
  forall c, In c (list_ascii_of_string s) -> c <> sep.

(** The loop of [UnmarshalText]: [m] is the mask behind the receiver, which
    keeps what was put into it when the loop returns an error. *)
Fixpoint unmarshalRoles (roles : list string) (m : RolesMask)
  : RolesMask * option NodeError :=
  match roles with
  | [] => (m, None)
  | role :: rest =>
      let add (r : RolesMask) :=
        match checkDuplicateRole r m with
        | Some err => (m, Some err)
        | None => unmarshalRoles rest (Z.lor m r)
        end in
      if (role =? RoleComputeWorkerName)%string then add RoleComputeWorker
      else if (role =? RoleStorageWorkerName)%string then add RoleStorageWorker
      else if (role =? RoleKeyManagerName)%string then add RoleKeyManager
      else if (role =? RoleValidatorName)%string then add RoleValidator
      else if (role =? RoleConsensusRPCName)%string then add RoleConsensusRPC
      else if (role =? RoleStorageRPCName)%string then add RoleStorageRPC
      else (m, Some (ErrQuoted ErrInvalidRole role))
  end.

Definition UnmarshalText (text : string) : RolesMask * option NodeError :=
  unmarshalRoles (Split text ","%char) 0.

(** The six roles, to speak of lists of role names. *)
Inductive Role :=
| Compute | Storage | KeyManager | Validator | ConsensusRPC | StorageRPC.

Definition roleMask (r : Role) : RolesMask :=
  match r with
  | Compute => RoleComputeWorker
  | Storage => RoleStorageWorker
  | KeyManager => RoleKeyManager
  | Validator => RoleValidator
  | ConsensusRPC => RoleConsensusRPC
  | StorageRPC => RoleStorageRPC
  end.

Definition roleName (r : Role) : string :=
  match r with
  | Compute => RoleComputeWorkerName
  | Storage => RoleStorageWorkerName
  | KeyManager => RoleKeyManagerName
  | Validator => RoleValidatorName
  | ConsensusRPC => RoleConsensusRPCName
  | StorageRPC => RoleStorageRPCName
  end.

Definition unionOf (l : list Role) : RolesMask :=
  fold_left (fun m r => Z.lor m (roleMask r)) l 0.

(** ** TEE hardware *)

Definition TEEHardware := Z.

Definition TEEHardwareInvalid : TEEHardware := 0.
Definition TEEHardwareIntelSGX : TEEHardware := 1.
Definition TEEHardwareReserved : TEEHardware := TEEHardwareIntelSGX + 1.

Definition teeInvalid : string := "invalid".
Definition teeIntelSGX : string := "intel-sgx".

Definition TEEHardware_String (h : TEEHardware) : string :=
  if h =? TEEHardwareInvalid then teeInvalid
  else if h =? TEEHardwareIntelSGX then teeIntelSGX
  else "[unsupported TEEHardware]".

(** [strings.ToLower].  A string all of whose bytes are ASCII is lowered
    byte by byte.  On a string with a byte outside ASCII, Go maps
    [unicode.ToLower] over the runes; the tables of package [unicode] are
    not part of the sources, and that lowering is the parameter
    [unicodeLower]. *)
Definition lowerByte (c : Ascii.ascii) : Ascii.ascii :=
  let n := Ascii.nat_of_ascii c in
  if (65 <=? n)%nat && (n <=? 90)%nat then Ascii.ascii_of_nat (n + 32) else c.

Fixpoint isASCII (s : string) : bool :=
  match s with
  | EmptyString => true
  | String c rest => (Ascii.nat_of_ascii c <? 128)%nat && isASCII rest
  end.

Fixpoint lowerASCII (s : string) : string :=
  match s with
  | EmptyString => EmptyString
  | String c rest => String (lowerByte c) (lowerASCII rest)
  end.

Definition ToLower (unicodeLower : string -> string) (s : string) : string :=
  if isASCII s then lowerASCII s else unicodeLower s.

(** [FromString]: the new value behind the receiver, left as it was on an
    error. *)
Definition TEEHardware_FromString (unicodeLower : string -> string)
    (h : TEEHardware) (str : string)
  : TEEHardware * option NodeError :=
  let s := ToLower unicodeLower str in
  if (s =? "")%string || (s =? teeInvalid)%string then (TEEHardwareInvalid, None)
  else if (s =? teeIntelSGX)%string then (TEEHardwareIntelSGX, None)
  else (h, Some ErrInvalidTEEHardware).

(** ** Descriptors *)

(** [Equal] methods of the values that descriptors hold ([Namespace],
    [PublicKey], [TLSAddress]). *)
Class Equaler (A : Type) := {
  Equal : A -> A -> bool
}.

Definition LatestNodeDescriptorVersion : Z := 1.
Definition minNodeDescriptorVersion : Z := 1.
Definition maxNodeDescriptorVersion : Z := LatestNodeDescriptorVersion.

Record CapabilityTEE := {
  Hardware : TEEHardware;
  RAK : bytes;
  Attestation : bytes
}.

Section Descriptors.

Context {Namespace : Type} {NE : Equaler Namespace}.

Record Runtime := {
  rt_ID : Namespace;
  rt_Version : Z * Z * Z;
  rt_TEE : option CapabilityTEE;
  rt_ExtraInfo : bytes
}.

(** The fields of [Node] that its methods use. *)
Record Node := {
  n_V : Z;
  n_Expiration : Z;
  n_Roles : RolesMask;
  n_Runtimes : list Runtime
}.

Definition ValidateBasic (n : Node) (strictVersion : bool)
  : option NodeError :=
  let v := n_V n in
  if strictVersion then
    (* Only the latest version is allowed. *)
    if negb (v =? LatestNodeDescriptorVersion) then
      Some (ErrStrictVersion LatestNodeDescriptorVersion v)
    else None
  else
    (* A range of versions is allowed. *)
    if (v <? minNodeDescriptorVersion) || (maxNodeDescriptorVersion <? v) then
      Some (ErrVersionRange minNodeDescriptorVersion maxNodeDescriptorVersion)
    else None.

Definition AddRoles (n : Node) (r : RolesMask) : Node :=
  {| n_V := n_V n; n_Expiration := n_Expiration n;
     n_Roles := Z.lor (n_Roles n) r; n_Runtimes := n_Runtimes n |}.

Definition HasRoles (n : Node) (r : RolesMask) : bool :=
  negb (Z.land (n_Roles n) r =? 0).

Definition OnlyHasRoles (n : Node) (r : RolesMask) : bool :=
  n_Roles n =? r.

Definition IsExpired (n : Node) (epoch : Z) : bool :=
  n_Expiration n <? epoch.

(** The search of [GetRuntime]; the pointer that it returns is the position
    in [Runtimes], counted from [i]. *)
Fixpoint findRuntime (rts : list Runtime) (id : Namespace) (i : nat)
  : option nat :=
  match rts with
  | [] => None
  | rt :: rest =>
      if negb (Equal (rt_ID rt) id) then findRuntime rest id (S i)
      else Some i
  end.

Definition GetRuntime (n : Node) (id : Namespace) : option nat :=
  findRuntime (n_Runtimes n) id O.

(** [AddOrUpdateRuntime]: the position of the descriptor returned, and the
    node. *)
Definition AddOrUpdateRuntime (n : Node) (id : Namespace) : nat * Node :=
  match GetRuntime n id with
  | Some i => (i, n)
  | None =>
      let rt := {| rt_ID := id; rt_Version := (0, 0, 0); rt_TEE := None;
                   rt_ExtraInfo := [] |} in
      (List.length (n_Runtimes n),
       {| n_V := n_V n; n_Expiration := n_Expiration n;
          n_Roles := n_Roles n; n_Runtimes := n_Runtimes n ++ [rt] |})
  end.

End Descriptors.

Section TLS.

Context {PublicKey : Type} {PE : Equaler PublicKey}.
Context {TLSAddress : Type} {AE : Equaler TLSAddress}.

Record TLSInfo := {
  PubKey : PublicKey;
  NextPubKey : PublicKey;
  Addresses : list TLSAddress
}.

(** The loop of [Equal] over the addresses; [None] is the panic of an index
    out of range in [other.Addresses[i]]. *)
Fixpoint addressesEqual (mine others : list TLSAddress) (i : nat)
  : option bool :=
  match mine with
  | [] => Some true
  | ca :: rest =>
      match nth_error others i with
      | None => None
      | Some oa =>
          if negb (Equal ca oa) then Some false
          else addressesEqual rest others (S i)
      end
  end.

Definition TLSInfo_Equal (t other : TLSInfo) : option bool :=
  if negb (Equal (PubKey t) (PubKey other)) then Some false
  else if negb (Equal (NextPubKey t) (NextPubKey other)) then Some false
  else if negb (Nat.eqb (List.length (Addresses t))
                  (List.length (Addresses other))) then Some false
  else addressesEqual (Addresses t) (Addresses other) O.

End TLS.

(** ** TEE capability *)

Record EnclaveIdentity := {
  MrEnclave : bytes;
  MrSigner : bytes
}.

Record SGXConstraints := {
  Enclaves : list EnclaveIdentity;
  AllowedQuoteStatuses : list Z
}.

(** The report of a quote, as far as [Verify] reads it. *)
Record Quote := {
  MRENCLAVE : bytes;
  MRSIGNER : bytes;
  ReportData : bytes
}.

(** What [Verify] asks of packages [ias], [cbor] and [hash]: the decoding
    of the attestation into an AVR bundle, the opening of the bundle against
    the trust roots at a time, the quote and the quote status of an AVR,
    the decoding of the constraints, the hash of a byte string. *)
Class Attester (AVRBundle AVR : Type) := {
  QuoteOK : Z;
  unmarshalBundle : bytes -> error + AVRBundle;
  openBundle : AVRBundle -> Time -> error + AVR;
  quoteOf : AVR -> error + Quote;
  ISVEnclaveQuoteStatus : AVR -> Z;
  unmarshalConstraints : bytes -> error + SGXConstraints;
  NewFromBytes : bytes -> bytes
}.

(** [bytes.Equal]. *)
Fixpoint bytesEqual (a b : bytes) : bool :=
  match a, b with
  | [], [] => true
  | x :: a', y :: b' => Byte.eqb x y && bytesEqual a' b'
  | _, _ => false
  end.

Definition teeHashContext : bytes :=
  list_byte_of_string "oasis-core/node: TEE RAK binding".

Definition hashSize : nat := 32.

Section TEE.

Context {AVRBundle AVR : Type} {AT : Attester AVRBundle AVR}.

(** The search of [quoteStatusAllowed] through the allowed statuses. *)
Fixpoint statusListed (allowed : list Z) (status : Z) : bool :=
  match allowed with
  | [] => false
  | v :: rest => if v =? status then true else statusListed rest status
  end.

Definition quoteStatusAllowed (constraints : SGXConstraints) (avr : AVR)
  : bool :=
  let status := ISVEnclaveQuoteStatus avr in
  (* Always allow "OK". *)
  if status =? QuoteOK then true
  else statusListed (AllowedQuoteStatuses constraints) status.

Definition RAKHash (rak : bytes) : bytes :=
  NewFromBytes (teeHashContext ++ rak).

(** The loop of [Verify] over the enclave identities of the constraints. *)
Fixpoint enclaveListed (enclaves : list EnclaveIdentity) (q : Quote) : bool :=
  match enclaves with
  | [] => false
  | eid :: rest =>
      if bytesEqual (MrEnclave eid) (MRENCLAVE q)
         && bytesEqual (MrSigner eid) (MRSIGNER q)
      then true
      else enclaveListed rest q
  end.

Definition Verify (c : CapabilityTEE) (ts : Time) (constraints : bytes)
  : option NodeError :=
  let rakHash := RAKHash (RAK c) in
  if Hardware c =? TEEHardwareIntelSGX then
    match unmarshalBundle (Attestation c) with
    | inl err => Some (ErrCollaborator err)
    | inr avrBundle =>
        match openBundle avrBundle ts with
        | inl err => Some (ErrCollaborator err)
        | inr avr =>
            (* Extract the original ISV quote. *)
            match quoteOf avr with
            | inl err => Some (ErrCollaborator err)
            | inr q =>
                match unmarshalConstraints constraints with
                | inl err => Some (ErrMalformedConstraints err)
                | inr cs =>
                    if negb (enclaveListed (Enclaves cs) q) then
                      Some ErrBadEnclaveIdentity
                    else
                      let avrRAKHash := firstn hashSize (ReportData q) in
                      if negb (bytesEqual rakHash avrRAKHash) then
                        Some ErrRAKHashMismatch
                      else if negb (quoteStatusAllowed cs avr) then
                        Some ErrConstraintViolation
                      else None
                end
            end
        end
    end
  else Some ErrInvalidTEEHardware.

End TEE.

(** * Transaction messages (package committee) *)

Section TxHandler.

Context {St : Type}.

(** [HandlePeerTx] of a hook, on the state that the hooks share. *)
Definition Hook := bytes -> St -> option error * St.

(** [HandleMessage]: the transaction is dispatched to the hooks. *)
Fixpoint HandleMessage (hooks : list Hook) (tx : bytes) (s : St)
  : option error * St :=
  match hooks with
  | [] => (None, s)
  | h :: rest =>
      let (err, s') := h tx s in
      match err with
      | Some e => (Some e, s')
      | None => HandleMessage rest tx s'
      end
  end.

End TxHandler.

(** * Client construction and observations on calls *)

Definition applyClientOptions (opts : list ClientOption) : ClientOptions :=
  fold_left (fun co opt => opt co) opts
    {| stickyPeers := false; peerFilter := None |}.

(** [NewClient], given the host of the P2P service and the protocol
    identifier made from the runtime, the protocol and the version. *)
Definition NewClient (p2pHost : Host) (pid : ProtocolID)
    (opts : list ClientOption) : client :=
  {| host := p2pHost; protocolID := pid; opts := applyClientOptions opts |}.

Definition isUnmarshal (e : Event) : bool :=
  match e with
  | EvUnmarshal _ _ => true
  | _ => false
  end.

(** The failures that a log shows as recorded, in order. *)
Fixpoint failuresOf (log : list Event) : list (PeerID * Duration) :=
  match log with
  | [] => []
  | EvRecordFailure p l :: rest => (p, l) :: failuresOf rest
  | _ :: rest => failuresOf rest
  end.

(** The stream that is open after an event, [None] when the event breaks
    the discipline of streams: a stream is opened only when none is open,
    is used and closed only while it is the open one. *)
Definition streamStep (open : option PeerID) (e : Event)
  : option (option PeerID) :=
  let uses (p : PeerID) :=
    match open with
    | Some q => if (p =? q)%string then Some open else None
    | None => None
    end in
  match e with
  | EvNewStream p _ ok =>
      match open with
      | Some _ => None
      | None => Some (if ok then Some p else None)
      end
  | EvClose p =>
      match open with
      | Some q => if (p =? q)%string then Some None else None
      | None => None
      end
  | EvSetWriteDeadline p _ => uses p
  | EvWrite p _ _ => uses p
  | EvSetReadDeadline p _ => uses p
  | EvRead p _ => uses p
  | EvUnmarshal p _ => uses p
  | _ => Some open
  end.

Fixpoint streamScan (open : option PeerID) (log : list Event)
  : option (option PeerID) :=
  match log with
  | [] => Some open
  | e :: rest =>
      match streamStep open e with
      | Some open' => streamScan open' rest
      | None => None
      end
  end.

Section Recording.

Context {M : Type} {PM : PeerManager M}.

Definition recordAll (failures : list (PeerID * Duration)) (m : M) : M :=
  fold_left (fun m f => RecordFailure (fst f) (snd f) m) failures m.

End Recording.

(** * Light client backend (package full) *)

(** The light block of Tendermint: the signed header, when there is one,
    and the validator set. *)
Record TMLightBlock {SH VS : Type} := {
  SignedHeader : option SH;
  ValidatorSet : VS
}.
Arguments TMLightBlock : clear implicits.


(** What [GetLightBlock] asks of Tendermint and of the service: [SH] is a
    signed header, [VS] a validator set, [PLB] a light block in protobuf
    form. *)
Class LightService (SH VS PLB : Type) := {
  ErrVersionNotFound : error;
  ensureStarted : Context -> option error;
  heightToTendermintHeight : Z -> error + Z;
  LoadValidators : Z -> error + VS;
  Commit : Context -> Z -> error + SH;
  headerHeight : SH -> option Z;
  ToProto : TMLightBlock SH VS -> error + PLB;
  hasValidatorSet : PLB -> bool;
  setTotalVotingPower : Z -> PLB -> PLB;
  TotalVotingPower : VS -> Z;
  MarshalProto : PLB -> error + bytes
}.

Section Light.

Context {SH VS PLB : Type} {LS : LightService SH VS PLB}.


End Light.

(** Names compared as strings, for the examples. *)
#[global] Instance StringEqual : Equaler string := { Equal := String.eqb }.

(** Events that touch neither the peer manager, nor a stream, nor the
    container of the response. *)
Definition neutral (l : list Event) : Prop :=
  failuresOf l = [] /\ filter isUnmarshal l = [] /\
  forall open, streamScan open l = Some open.

Section WellBehaved.

Context {M : Type} {PM : PeerManager M}.
Context {V : Type} {CD : Codec V}.

(** What a step of a call, started with the container [rsp] in the world
    [w], keeps: the peer manager has been told the failures of the log and
    nothing else; the streams are opened, used and closed in turn and none
    is left open; a [nil] container stays [nil], a container stays a
    container, and nothing is decoded without one; the clock does not go
    back. *)
Definition wellBehaved (rsp : Container (V := V)) (w : World (M := M))
    (r : CallRet (M := M) (V := V)) : Prop :=
  mgr (r_world r) = recordAll (failuresOf (r_log r)) (mgr w) /\
  streamScan None (r_log r) = Some None /\
  (r_rsp r = None <-> rsp = None) /\
  (rsp = None -> filter isUnmarshal (r_log r) = []) /\
  now w <= now (r_world r).

End WellBehaved.

(** * The attempts of a call *)

(** The peers a log shows as tried, each with the instant at which it is
    tried. *)
Fixpoint triedAt (log : list Event) : list (PeerID * Time) :=
  match log with
  | [] => []
  | EvTryingPeer p t :: rest => (p, t) :: triedAt rest
  | _ :: rest => triedAt rest
  end.

Section OwnAttempts.

Context {M : Type} {PM : PeerManager M}.
Context {V : Type} {CD : Codec V}.

Definition a_failed (a : Attempt (M := M) (V := V)) : bool :=
  match r_err (a_ret a) with
  | Some _ => true
  | None => false
  end.

(** An attempt is started when the context is not done at its instant. *)
Definition a_started (ctx : Context) (a : Attempt (M := M) (V := V)) : bool :=
  negb (ctx_done ctx (a_at a)).

Definition a_elapsed (a : Attempt (M := M) (V := V)) : Duration :=
  now (r_world (a_ret a)) - a_at a.

(** The attempts made on the peers tried: each is the [call] on its peer at
    its instant, with the container and the peer manager as the attempt
    before it left them. *)
Fixpoint replay (c : client) (ctx : Context) (request : Request)
    (maxPeerResponseTime : Duration) (tries : list (PeerID * Time))
    (rsp : Container (V := V)) (m : M) : list Attempt :=
  match tries with
  | [] => []
  | (p, t) :: rest =>
      let r := call c ctx p request rsp maxPeerResponseTime
                 {| now := t; mgr := m |} in
      {| a_peer := p; a_at := t; a_ret := r |}
        :: replay c ctx request maxPeerResponseTime rest (r_rsp r)
             (mgr (r_world r))
  end.

(** The container and the peer manager after a list of attempts. *)
Fixpoint endState (l : list (Attempt (M := M) (V := V)))
    (rsp : Container (V := V)) (m : M) : Container (V := V) * M :=
  match l with
  | [] => (rsp, m)
  | a :: rest => endState rest (r_rsp (a_ret a)) (mgr (r_world (a_ret a)))
  end.

(** What the attempts that were started and failed give to record: the
    peer and the time that the attempt took. *)
Definition recorded (ctx : Context) (l : list (Attempt (M := M) (V := V)))
  : list (PeerID * Duration) :=
  map (fun a => (a_peer a, a_elapsed a))
    (filter (fun a => a_started ctx a && a_failed a) l).

(** The attempts of a [Call], all rounds together: those on the peers that
    its log shows as tried. *)
Definition ownAttempts (c : client) (ctx : Context) (method : string)
    (body : V) (rsp : Container (V := V)) (maxPeerResponseTime : Duration)
    (opts : list CallOption) (w : World (M := M)) : list Attempt :=
  replay c ctx {| Method := method; Body := Marshal body |}
    maxPeerResponseTime
    (triedAt (r_log (Call c ctx method body rsp maxPeerResponseTime opts w)))
    rsp (mgr w).

(** A step of a call, started with the container [rsp] in the world [w],
    follows its attempts: it leaves the container and the peer manager as
    its last attempt did, has recorded what its attempts give to record,
    returns no error exactly when its last attempt succeeded, the others
    having failed, and an error only when all of them failed. *)
Definition follows (c : client) (ctx : Context) (request : Request)
    (maxPeerResponseTime : Duration) (rsp : Container (V := V))
    (w : World (M := M)) (r : CallRet (M := M) (V := V)) : Prop :=
  let A := replay c ctx request maxPeerResponseTime (triedAt (r_log r))
             rsp (mgr w) in
  endState A rsp (mgr w) = (r_rsp r, mgr (r_world r)) /\
  failuresOf (r_log r) = recorded ctx A /\
  (r_err r = None ->
   exists pre a, A = pre ++ [a] /\ a_failed a = false /\
                 forall b, In b pre -> a_failed b = true) /\
  (r_err r <> None -> forall a, In a A -> a_failed a = true).

End OwnAttempts.

(** * Properties of one attempt *)

Section AttemptProperties.

Context {M : Type} {PM : PeerManager M}.
Context {V : Type} {CD : Codec V}.

Implicit Types (c : client) (ctx : Context) (request : Request).
Implicit Types (w : World (M := M)) (rsp : Container (V := V)).

(** Case analysis on what the stream of an attempt does. *)
Ltac stream_cases s rsp :=
  destruct (open_err s) as [oe|] eqn:Hopen;
  [| destruct (write_err s) as [we|] eqn:Hwrite;
     [| destruct (read_res s) as [re|rawRsp] eqn:Hread;
        [| destruct (Error rawRsp) as [d|] eqn:Hdesc;
           [| destruct rsp as [v|];
              [ destruct (Unmarshal (Ok rawRsp) v) as [ue v'] eqn:Hdec;
                destruct ue as [ue|] |]]]]].

Lemma send_world c ctx p request rsp T w :
  let s := host c ctx (now w) p (protocolID c) request in
  let r := sendRequestAndDecodeResponse c ctx p request rsp T w in
  mgr (s_world r) = mgr w /\
  now w <= now (s_world r) /\
  now (s_world r) <=
    now w + Z.of_N (open_time s) + Z.of_N (write_time s) + Z.of_N (read_time s).
Proof.
  intros s r. subst r. unfold sendRequestAndDecodeResponse, exchange.
  fold s. stream_cases s rsp; cbn; repeat split; lia.
Qed.

Lemma send_ok_iff c ctx p request rsp T w :
  let s := host c ctx (now w) p (protocolID c) request in
  s_err (sendRequestAndDecodeResponse c ctx p request rsp T w) = None <->
  roundTripOk s rsp = true.
Proof.
  intros s. unfold sendRequestAndDecodeResponse, exchange, roundTripOk.
  fold s. stream_cases s rsp; cbn; try rewrite Hdec; cbn;
    split; intro H; try reflexivity; try discriminate.
Qed.

Lemma send_no_manager_call c ctx p request rsp T w :
  filter isRecordFailure
    (s_log (sendRequestAndDecodeResponse c ctx p request rsp T w)) = [].
Proof.
  unfold sendRequestAndDecodeResponse, exchange.
  set (s := host c ctx (now w) p (protocolID c) request).
  stream_cases s rsp; reflexivity.
Qed.

Lemma call_done c ctx p request rsp T w :
  ctx_done ctx (now w) = true ->
  call c ctx p request rsp T w =
  {| r_pf := None; r_err := Some (ErrCtx (reason ctx)); r_rsp := rsp;
     r_world := w; r_log := [] |}.
Proof.
  intros H. unfold call, ctx_Err. rewrite H. reflexivity.
Qed.

Lemma call_pf_iff c ctx p request rsp T w :
  let r := call c ctx p request rsp T w in
  (r_err r = None ->
   r_pf r = Some (peerFeedback p (now (r_world r) - now w))) /\
  (r_err r <> None -> r_pf r = None).
Proof.
  cbn. unfold call, ctx_Err.
  destruct (ctx_done ctx (now w)); cbn.
  - split; [discriminate | reflexivity].
  - destruct (s_err _); cbn; split; try discriminate; try reflexivity;
      intros H; now elim H.
Qed.

Lemma call_time c ctx p request rsp T w :
  now w <= now (r_world (call c ctx p request rsp T w)).
Proof.
  unfold call. destruct (ctx_done ctx (now w)); cbn; [lia|].
  pose proof (send_world c ctx p request rsp T w) as (_ & H & _).
  destruct (s_err _); cbn; exact H.
Qed.

Lemma call_streams c ctx p request rsp T w :
  (List.length (filter isNewStream (r_log (call c ctx p request rsp T w)))
   <= 1)%nat.
Proof.
  unfold call. destruct (ctx_done ctx (now w)); cbn; [lia|].
  assert (H : (List.length (filter isNewStream
             (s_log (sendRequestAndDecodeResponse c ctx p request rsp T w)))
           <= 1)%nat).
  { unfold sendRequestAndDecodeResponse, exchange.
    set (s := host c ctx (now w) p (protocolID c) request).
    stream_cases s rsp; cbn; lia. }
  destruct (s_err _); cbn; [|exact H].
  rewrite filter_app, length_app. cbn. lia.
Qed.

(** C5.  An attempt that is started (the context is not done) and fails,
    at the opening of the stream, at the write, at the read, by an error
    descriptor of the peer or at the decoding, returns no feedback handle
    and has called [RecordFailure] on the peer manager exactly once, as its
    last step, for the peer and with the time elapsed since the start of
    the attempt.  An attempt whose round trip succeeds calls nothing on the
    peer manager and returns the handle of the peer and of the elapsed
    time.  A handle is returned only by an attempt whose round trip
    succeeded. *)
Theorem call_failure_recorded c ctx p request rsp T w :
  let s := host c ctx (now w) p (protocolID c) request in
  let r := call c ctx p request rsp T w in
  let elapsed := now (r_world r) - now w in
  (ctx_done ctx (now w) = false ->
   (roundTripOk s rsp = false ->
    r_err r <> None /\ r_pf r = None /\
    mgr (r_world r) = RecordFailure p elapsed (mgr w) /\
    filter isRecordFailure (r_log r) = [EvRecordFailure p elapsed] /\
    exists l, r_log r = l ++ [EvRecordFailure p elapsed]) /\
   (roundTripOk s rsp = true ->
    r_err r = None /\ r_pf r = Some (peerFeedback p elapsed) /\
    mgr (r_world r) = mgr w /\
    filter isRecordFailure (r_log r) = [])) /\
  (r_pf r <> None -> ctx_done ctx (now w) = false /\ roundTripOk s rsp = true).
Proof.
  intros s r elapsed.
  pose proof (send_ok_iff c ctx p request rsp T w) as Hiff.
  pose proof (send_world c ctx p request rsp T w) as (Hmgr & _).
  pose proof (send_no_manager_call c ctx p request rsp T w) as Hlog.
  cbn in Hiff, Hmgr. fold s in Hiff.
  subst elapsed r. unfold call.
  destruct (ctx_done ctx (now w)) eqn:Hdone; cbn.
  - split; [discriminate|]. intros H. now elim H.
  - destruct (s_err (sendRequestAndDecodeResponse c ctx p request rsp T w))
      as [err|] eqn:Herr; cbn.
    + split; [intros _; split|].
      * intros _. repeat split; try discriminate.
        -- now rewrite Hmgr.
        -- rewrite filter_app, Hlog. reflexivity.
        -- now eexists.
      * intros Hok. apply Hiff in Hok. discriminate.
      * intros H. now elim H.
    + assert (Hok : roundTripOk s rsp = true) by now apply Hiff.
      split; [intros _; split|].
      * intros Hno. rewrite Hok in Hno. discriminate.
      * intros _. repeat split; assumption.
      * intros _. split; [reflexivity | exact Hok].
Qed.

Lemma single_open_first (e : Event) (rest pre post : list Event) p t ok :
  filter isNewStream rest = [] ->
  e :: rest = pre ++ EvNewStream p t ok :: post ->
  pre = [].
Proof.
  intros Hrest Heq. destruct pre as [|x pre]; [reflexivity|].
  injection Heq as _ Heq. rewrite Heq, filter_app in Hrest. cbn in Hrest.
  apply app_eq_nil in Hrest. destruct Hrest as [_ Hrest]. discriminate.
Qed.

(** No step follows one that reports a failure. *)
Lemma last_reports_failure (l : list Event) :
  forallb (fun e => negb (reportsFailure e)) (removelast l) = true ->
  forall pre e post, l = pre ++ e :: post -> reportsFailure e = true ->
                     post = [].
Proof.
  intros Hall pre e post -> He. destruct post as [|x post]; [reflexivity|].
  exfalso. rewrite removelast_app in Hall by discriminate.
  rewrite forallb_app in Hall. apply andb_true_iff in Hall.
  destruct Hall as [_ Hall]. cbn in Hall. rewrite He in Hall. discriminate.
Qed.

(** C6, as the code has it.  The steps of an attempt follow the order open,
    set the write deadline, write, clear the write deadline, set the read
    deadline, read, [clear the write deadline], decode, and stop at the
    first step that fails: the attempt makes exactly one step when the
    opening fails, three when the write fails, six when the read fails,
    seven when the response carries an error descriptor or there is no
    container, eight otherwise; no step follows one that reports a failure,
    and an attempt without error reports none.  The stream is opened under
    no deadline; the write deadline is the constant [RequestWriteDeadline]
    after the stream is open, whatever the caller passes; the read deadline
    is the caller's [maxPeerResponseTime] after the request is written.  A
    stream that was opened is closed exactly once, as the last step, on
    every path; when the opening fails there is no stream and nothing else
    happens. *)
Theorem attempt_steps c ctx p request rsp T w :
  let s := host c ctx (now w) p (protocolID c) request in
  let r := sendRequestAndDecodeResponse c ctx p request rsp T w in
  let opened := now w + Z.of_N (open_time s) in
  let written := opened + Z.of_N (write_time s) in
  (exists n,
     map opOf (filter (fun e => negb (isClose e)) (s_log r))
     = firstn n attemptOrder /\
     (1 <= n)%nat /\
     (open_err s = None -> (3 <= n)%nat) /\
     (open_err s = None -> write_err s = None -> (6 <= n)%nat) /\
     (open_err s = None -> write_err s = None ->
      forall rawRsp, read_res s = inr rawRsp ->
        (7 <= n)%nat /\
        (Error rawRsp = None -> rsp <> None -> n = 8%nat)) /\
     (open_err s <> None -> n = 1%nat) /\
     (open_err s = None -> write_err s <> None -> n = 3%nat) /\
     (open_err s = None -> write_err s = None ->
      forall e, read_res s = inl e -> n = 6%nat) /\
     (open_err s = None -> write_err s = None ->
      forall rawRsp, read_res s = inr rawRsp ->
        Error rawRsp <> None \/ rsp = None -> n = 7%nat)) /\
  (forall pre e post,
     filter (fun e => negb (isClose e)) (s_log r) = pre ++ e :: post ->
     reportsFailure e = true -> post = []) /\
  (s_err r = None -> filter reportsFailure (s_log r) = []) /\
  ~ openUnderDeadline (s_log r) /\
  writeDeadlineFrom RequestWriteDeadline opened (s_log r) /\
  readDeadlineFrom T written (s_log r) /\
  (open_err s = None ->
   filter isClose (s_log r) = [EvClose p] /\
   exists l, s_log r = EvNewStream p (now w) true :: l ++ [EvClose p]) /\
  (open_err s <> None -> s_log r = [EvNewStream p (now w) false]).
Proof.
  intros s r opened written. subst r opened written.
  unfold sendRequestAndDecodeResponse, exchange. fold s.
  assert (Hfirst : forall e rest, filter isNewStream rest = [] ->
            ~ openUnderDeadline (e :: rest)).
  { intros e rest Hrest (pre & q & t & ok & post & Heq & q' & d' & Hin).
    apply single_open_first in Heq; [|exact Hrest]. subst pre.
    destruct Hin as [[]|[]]. }
  stream_cases s rsp; cbn;
    [ split; [exists 1%nat|] | split; [exists 3%nat|] | split; [exists 6%nat|]
    | split; [exists 7%nat|] | split; [exists 8%nat|] | split; [exists 8%nat|]
    | split; [exists 7%nat|] ].
  all: try (split; [reflexivity|]; split; [lia|];
            repeat split; intros; try lia; try discriminate; try congruence;
            try (intuition congruence)).
  all: (split; [apply last_reports_failure; reflexivity|]).
  all: (split; [intros Hnone; first [discriminate Hnone | reflexivity]|]).
  all: (split; [apply Hfirst; reflexivity |]).
  all: unfold writeDeadlineFrom, readDeadlineFrom; cbn.
  all: repeat split.
  all: try discriminate.
  all: try (intros H; now elim H).
  all: try (intros q dl Hin;
            repeat (destruct Hin as [Hin|Hin]; try discriminate Hin);
            try (now destruct Hin);
            injection Hin as _ Hin; lia).
  all: match goal with
       | |- exists l, _ :: ?L = _ => exists (removelast L); reflexivity
       end.
Qed.

(** C7.  When the response that is read carries an error descriptor, the
    attempt returns the error made by [FromCode] from exactly the module,
    the code and the message of the descriptor; this error is none of the
    wrapped errors that the failures of the transport give; the container
    is left as it was and no feedback handle is returned; the round goes on
    with the candidates that follow.  When the response carries no error
    descriptor, its [Ok] payload is decoded into the container of the
    caller. *)
Theorem error_envelope_surfaced c ctx p request rsp T w rawRsp :
  let s := host c ctx (now w) p (protocolID c) request in
  let sr := sendRequestAndDecodeResponse c ctx p request rsp T w in
  let r := call c ctx p request rsp T w in
  open_err s = None -> write_err s = None -> read_res s = inr rawRsp ->
  (forall d, Error rawRsp = Some d ->
     s_err sr = FromCode (Module d) (Code d) (Message d) /\
     s_err sr = Some (ErrCoded (Module d) (Code d) (Message d)) /\
     (forall prefix cause, s_err sr <> Some (ErrWrap prefix cause)) /\
     s_rsp sr = rsp /\
     (ctx_done ctx (now w) = false ->
      r_err r = Some (ErrCoded (Module d) (Code d) (Message d)) /\
      r_pf r = None /\ r_rsp r = rsp /\
      (isPeerAcceptable c p = true ->
       forall rest pf,
         tryPeersLoop c ctx request T (p :: rest) pf rsp w =
         with_log (EvTryingPeer p (now w) :: r_log r)
           (tryPeersLoop c ctx request T rest None rsp (r_world r))))) /\
  (Error rawRsp = None ->
   forall v, rsp = Some v ->
     s_err sr = fst (Unmarshal (Ok rawRsp) v) /\
     s_rsp sr = Some (snd (Unmarshal (Ok rawRsp) v))).
Proof.
  intros s sr r Hopen Hwrite Hread.
  assert (Hsr : forall d, Error rawRsp = Some d ->
            s_err sr = Some (ErrCoded (Module d) (Code d) (Message d)) /\
            s_rsp sr = rsp).
  { intros d Hd. subst sr. unfold sendRequestAndDecodeResponse, exchange.
    fold s. rewrite Hopen, Hwrite, Hread, Hd. cbn. split; reflexivity. }
  split.
  - intros d Hd. destruct (Hsr d Hd) as [He Hr].
    split; [exact He|]. split; [exact He|].
    split; [intros prefix cause; rewrite He; discriminate|].
    split; [exact Hr|].
    intros Hdone.
    assert (Hcall : r_err r = Some (ErrCoded (Module d) (Code d) (Message d))
                    /\ r_pf r = None /\ r_rsp r = rsp).
    { subst r. unfold call. rewrite Hdone. fold sr. rewrite He. cbn.
      repeat split. exact Hr. }
    destruct Hcall as (Hce & Hcp & Hcr).
    repeat split; try assumption.
    intros Hacc rest pf. cbn [tryPeersLoop]. rewrite Hacc. cbn [negb].
    fold r. rewrite Hce, Hcp, Hcr. reflexivity.
  - intros Hd v Hv. subst sr rsp.
    unfold sendRequestAndDecodeResponse, exchange.
    fold s. rewrite Hopen, Hwrite, Hread, Hd.
    destruct (Unmarshal (Ok rawRsp) v) as [ue v']. cbn. split; reflexivity.
Qed.

End AttemptProperties.

Import Scenario.

(** Peer A times out: one failure of about two seconds is recorded for it
    and no handle is returned. *)
Lemma call_failure_recorded_witness :
  let r := call (testClient None) background "A" echoRequest (Some [])
             (5 * Second) (world 0 ["A"; "B"]) in
  r_pf r = None /\
  failures (mgr (r_world r)) = [("A", 2002000000)] /\
  filter isRecordFailure (r_log r) = [EvRecordFailure "A" 2002000000].
Proof.
  intros r.
  destruct (call_failure_recorded (testClient None) background "A"
              echoRequest (Some []) (5 * Second) (world 0 ["A"; "B"]))
    as [H _].
  destruct (H eq_refl) as [Hfail _].
  destruct (Hfail eq_refl) as (_ & Hpf & Hmgr & Hlog & _).
  split; [exact Hpf|]. split; [|exact Hlog].
  fold r in Hmgr. rewrite Hmgr. reflexivity.
Defined.

(** Not every blocking call runs under a deadline taken from the caller's
    time-out.  On an attempt on peer B with a time-out of two seconds the
    write deadline is five seconds after the opening of the stream, not
    two. *)
Lemma attempt_deadlines_counterexample :
  let T := 2 * Second in
  let r := sendRequestAndDecodeResponse (testClient None) background "B"
             echoRequest (Some []) T (world 0 ["A"; "B"]) in
  In (EvSetWriteDeadline "B" (Some (1000000 + RequestWriteDeadline)))
    (s_log r) /\
  ~ writeDeadlineFrom T 1000000 (s_log r) /\
  hd_error (s_log r) = Some (EvNewStream "B" 0 true) /\
  ~ deadlinesFromCaller T 1000000 2000000 (s_log r).
Proof.
  intros T r.
  assert (Hin : In (EvSetWriteDeadline "B" (Some 5001000000)) (s_log r)).
  { vm_compute. right. left. reflexivity. }
  assert (Hw : ~ writeDeadlineFrom T 1000000 (s_log r)).
  { intros H. apply (H "B" 5001000000) in Hin. vm_compute in Hin.
    discriminate. }
  split; [exact Hin|]. split; [exact Hw|]. split; [reflexivity|].
  intros (_ & H & _). exact (Hw H).
Qed.

(** Peer A lets the read time out: the attempt stops there, after six
    steps, and decodes nothing. *)
Lemma attempt_steps_witness :
  map opOf
    (filter (fun e => negb (isClose e))
       (s_log (sendRequestAndDecodeResponse (testClient None) background "A"
                 echoRequest (Some []) (2 * Second) (world 0 ["A"; "B"]))))
  = [OpOpen; OpSetWriteDeadline; OpWrite; OpClearWriteDeadline;
     OpSetReadDeadline; OpRead].
Proof.
  destruct (attempt_steps (testClient None) background "A" echoRequest
              (Some []) (2 * Second) (world 0 ["A"; "B"]))
    as ((n & Hmap & _ & _ & _ & _ & _ & _ & H6 & _) & _).
  rewrite Hmap.
  rewrite (H6 eq_refl eq_refl (ErrExternal "i/o timeout") eq_refl).
  reflexivity.
Defined.

(** Peer C answers "not found": that error comes back, and nothing is
    written into the container. *)
Lemma error_envelope_surfaced_witness :
  let r := call (testClient None) background "C" echoRequest (Some [])
             (2 * Second) (world 0 ["C"; "B"]) in
  r_err r = Some (ErrCoded "storage" 3 "not found") /\
  r_pf r = None /\ r_rsp r = Some [].
Proof.
  intros r.
  destruct (error_envelope_surfaced (testClient None) background "C"
              echoRequest (Some []) (2 * Second) (world 0 ["C"; "B"])
              {| Ok := []; Error := Some notFound |}
              eq_refl eq_refl eq_refl) as [H _].
  destruct (H notFound eq_refl) as (_ & _ & _ & _ & Hcall).
  destruct (Hcall eq_refl) as (He & Hp & Hr & _).
  repeat split; assumption.
Defined.

(** * Properties of a round *)

Section RoundProperties.

Context {M : Type} {PM : PeerManager M}.
Context {V : Type} {CD : Codec V}.

Implicit Types (c : client) (ctx : Context) (request : Request).
Implicit Types (w : World (M := M)) (rsp : Container (V := V)).
Implicit Types (pf : option PeerFeedback).

Lemma tried_app (l1 l2 : list Event) : tried (l1 ++ l2) = tried l1 ++ tried l2.
Proof.
  induction l1 as [|e l1 IH]; [reflexivity|].
  destruct e; cbn; rewrite IH; reflexivity.
Qed.

Lemma roundStarts_app (l1 l2 : list Event) :
  roundStarts (l1 ++ l2) = roundStarts l1 ++ roundStarts l2.
Proof.
  induction l1 as [|e l1 IH]; [reflexivity|].
  destruct e; cbn; rewrite IH; reflexivity.
Qed.

(** An attempt logs neither a round nor a peer being tried. *)
Lemma call_log_quiet c ctx p request rsp T w :
  tried (r_log (call c ctx p request rsp T w)) = [] /\
  roundStarts (r_log (call c ctx p request rsp T w)) = [].
Proof.
  unfold call. destruct (ctx_done ctx (now w)); cbn; [split; reflexivity|].
  assert (H : tried (s_log (sendRequestAndDecodeResponse c ctx p request rsp T w)) = []
           /\ roundStarts (s_log (sendRequestAndDecodeResponse c ctx p request rsp T w)) = []).
  { unfold sendRequestAndDecodeResponse, exchange.
    destruct (open_err _); [split; reflexivity|].
    destruct (write_err _); [split; reflexivity|].
    destruct (read_res _) as [|rawRsp]; [split; reflexivity|].
    destruct (Error rawRsp); [split; reflexivity|].
    destruct rsp as [v|]; [|split; reflexivity].
    destruct (Unmarshal (Ok rawRsp) v). split; reflexivity. }
  destruct H as [Ht Hr].
  destruct (s_err _); cbn; rewrite ?tried_app, ?roundStarts_app, ?Ht, ?Hr;
    split; reflexivity.
Qed.

Lemma attempts_peers c ctx request T cand rsp w :
  map a_peer (attempts c ctx request T cand rsp w) = cand.
Proof.
  revert rsp w. induction cand as [|p cand IH]; intros rsp w; cbn;
    [reflexivity | now rewrite IH].
Qed.

(** Each of the attempts is a [call], started at the instant it records. *)
Lemma attempts_are_calls c ctx request T cand rsp w a :
  In a (attempts c ctx request T cand rsp w) ->
  exists rsp' w',
    a_at a = now w' /\ a_ret a = call c ctx (a_peer a) request rsp' T w'.
Proof.
  revert rsp w. induction cand as [|p cand IH]; intros rsp w; cbn; [tauto|].
  intros [<-|Hin]; [|eapply IH; exact Hin].
  exists rsp, w. split; reflexivity.
Qed.

Lemma untilSuccess_prefix (l : list (Attempt (M := M) (V := V))) :
  exists rest, l = untilSuccess l ++ rest.
Proof.
  induction l as [|a l [rest IH]]; [exists []; reflexivity|]. cbn.
  destruct (r_err (a_ret a)); [exists rest; cbn; congruence | exists l; reflexivity].
Qed.

(** The loop of [tryPeers] against the round of the specification. *)
Lemma tryPeersLoop_attempts c ctx request T peers pf rsp w :
  let all := attempts c ctx request T (filter (isPeerAcceptable c) peers) rsp w in
  let r := tryPeersLoop c ctx request T peers pf rsp w in
  tried (r_log r) = map a_peer (untilSuccess all) /\
  roundStarts (r_log r) = [] /\
  (r_err r = None ->
   exists pre a, untilSuccess all = pre ++ [a] /\
     (forall b, In b pre -> r_err (a_ret b) <> None) /\
     r_err (a_ret a) = None /\ r_pf r = r_pf (a_ret a) /\
     r_rsp r = r_rsp (a_ret a) /\ r_world r = r_world (a_ret a)) /\
  (r_err r <> None ->
   r_err r = Some errAllPeersFailed /\ untilSuccess all = all /\
   (forall b, In b all -> r_err (a_ret b) <> None) /\
   (pf = None -> r_pf r = None)).
Proof.
  revert pf rsp w. induction peers as [|peer rest IH]; intros pf rsp w.
  - cbn. repeat split; try discriminate; try tauto.
  - cbn [tryPeersLoop filter].
    destruct (isPeerAcceptable c peer) eqn:Hacc; cbn [negb]; [|apply IH].
    cbn [attempts].
    set (r0 := call c ctx peer request rsp T w).
    destruct (call_log_quiet c ctx peer request rsp T w) as [Hq1 Hq2].
    fold r0 in Hq1, Hq2.
    pose proof (call_pf_iff c ctx peer request rsp T w) as [_ Hnone].
    cbn in Hnone. fold r0 in Hnone.
    cbn [untilSuccess a_ret].
    destruct (r_err r0) as [e|] eqn:He.
    + specialize (IH (r_pf r0) (r_rsp r0) (r_world r0)).
      cbn in IH. destruct IH as (IH1 & IH2 & IH3 & IH4).
      cbn [with_log r_log r_err r_pf r_rsp r_world].
      cbn [tried roundStarts app]. rewrite tried_app, roundStarts_app, Hq1, Hq2.
      cbn [app map a_peer]. rewrite IH1, IH2.
      split; [reflexivity|]. split; [reflexivity|]. split.
      * intros Hok. destruct (IH3 Hok) as (pre & a & Hus & Hpre & Ha).
        exists ({| a_peer := peer; a_at := now w; a_ret := r0 |} :: pre), a.
        rewrite Hus. split; [reflexivity|]. split; [|exact Ha].
        intros b [<-|Hb]; [cbn; rewrite He; discriminate | now apply Hpre].
      * intros Hko. destruct (IH4 Hko) as (H1 & H2 & H3 & H4).
        split; [exact H1|]. split; [now rewrite H2|]. split.
        -- intros b [<-|Hb]; [cbn; rewrite He; discriminate | now apply H3].
        -- intros _. apply H4. apply Hnone. discriminate.
    + cbn [with_log r_log r_err r_pf r_rsp r_world].
      cbn [tried roundStarts app map a_peer]. rewrite Hq1, Hq2, He.
      split; [reflexivity|]. split; [reflexivity|]. split.
      * intros _. exists [], {| a_peer := peer; a_at := now w; a_ret := r0 |}.
        cbn. repeat split; try assumption. intros b [].
      * intros H. now elim H.
Qed.


End RoundProperties.

(** * Properties of the retry loop *)

Section RetryProperties.

Context {M : Type} {PM : PeerManager M}.
Context {V : Type} {CD : Codec V}.

Variable ctx : Context.
Variable interval : Duration.
Variable operation :
  option PeerFeedback -> Container (V := V) -> World (M := M)
  -> CallRet (M := M) (V := V).

(** What the loop needs to know of a round. *)
Hypothesis operation_log : forall pf rsp w,
  exists body, r_log (operation pf rsp w) = EvGetBestPeers (now w) :: body /\
               roundStarts body = [].
Hypothesis operation_ok : forall pf rsp w,
  r_err (operation pf rsp w) = None ->
  exists p l pre, r_pf (operation pf rsp w) = Some (peerFeedback p l) /\
                  tried (r_log (operation pf rsp w)) = pre ++ [p].
Hypothesis operation_ko : forall rsp w,
  r_err (operation None rsp w) <> None ->
  r_err (operation None rsp w) = Some errAllPeersFailed /\
  r_pf (operation None rsp w) = None.

Lemma Retry_eq n pf rsp w :
  Retry n interval ctx operation pf rsp w =
  let r := operation pf rsp w in
  match r_err r with
  | None => r
  | Some err =>
      let t := now (r_world r) in
      match n with
      | O => stopped ctx r err
      | S n' =>
          if NextBackOff ctx t n interval =? Stop then stopped ctx r err
          else
            let fire := t + Z.max 0 (NextBackOff ctx t n interval) in
            if match doneAt ctx with Some d => d <=? fire | None => false end
            then
              {| r_pf := r_pf r; r_err := Some (ErrCtx (reason ctx));
                 r_rsp := r_rsp r;
                 r_world := {| now := match doneAt ctx with
                                      | Some d => Z.max t d
                                      | None => t
                                      end;
                               mgr := mgr (r_world r) |};
                 r_log := r_log r ++ [EvWait t (NextBackOff ctx t n interval)] |}
            else
              with_log (r_log r ++ [EvWait t (NextBackOff ctx t n interval)])
                (Retry n' interval ctx operation (r_pf r) (r_rsp r)
                   {| now := fire; mgr := mgr (r_world r) |})
      end
  end.
Proof. destruct n; reflexivity. Qed.

(** When the policy does not stop, it gives the interval, and the context
    is not done. *)
Lemma NextBackOff_goes t n :
  (NextBackOff ctx t (S n) interval =? Stop) = false ->
  NextBackOff ctx t (S n) interval = interval /\ ctx_done ctx t = false.
Proof.
  unfold NextBackOff. destruct (ctx_done ctx t); [discriminate|].
  intros _. split; reflexivity.
Qed.

Lemma stopped_done (r : CallRet (M := M) (V := V)) err :
  (r_err (stopped ctx r err) = Some err /\
   ctx_done ctx (now (r_world (stopped ctx r err))) = false) \/
  (r_err (stopped ctx r err) = Some (ErrCtx (reason ctx)) /\
   ctx_done ctx (now (r_world (stopped ctx r err))) = true).
Proof.
  unfold stopped, ctx_Err. cbn.
  destruct (ctx_done ctx (now (r_world r))); [right | left]; split; reflexivity.
Qed.

(** The results of the loop, entered with no handle. *)
Lemma Retry_result n rsp w :
  let r := Retry n interval ctx operation None rsp w in
  (r_err r = None ->
   exists p l pre, r_pf r = Some (peerFeedback p l) /\
                   tried (r_log r) = pre ++ [p]) /\
  (r_err r <> None ->
   r_pf r = None /\
   ((r_err r = Some errAllPeersFailed /\
     ctx_done ctx (now (r_world r)) = false) \/
    (r_err r = Some (ErrCtx (reason ctx)) /\
     ctx_done ctx (now (r_world r)) = true))).
Proof.
  revert rsp w. induction n as [|n IH]; intros rsp w; cbn zeta;
    rewrite Retry_eq; cbn zeta;
    pose proof (operation_ok None rsp w) as Hok;
    pose proof (operation_ko rsp w) as Hko;
    destruct (r_err (operation None rsp w)) as [err|] eqn:He.
  - destruct Hko as [Herr Hpf]; [discriminate|]. injection Herr as ->.
    split.
    + destruct (stopped_done (operation None rsp w) errAllPeersFailed)
        as [[H _]|[H _]]; rewrite H; discriminate.
    + intros _. split; [exact Hpf|].
      apply stopped_done.
  - split; [intros _; now apply Hok | rewrite He; intros H; now elim H].
  - destruct Hko as [Herr Hpf]; [discriminate|]. injection Herr as ->.
    destruct (NextBackOff ctx _ (S n) interval =? Stop) eqn:Hstop.
    + split.
      * destruct (stopped_done (operation None rsp w) errAllPeersFailed)
          as [[H _]|[H _]]; rewrite H; discriminate.
      * intros _. split; [exact Hpf|]. apply stopped_done.
    + destruct (doneAt ctx) as [d|] eqn:Hd.
      * destruct (d <=? _) eqn:Hle; cbn.
        -- split; [discriminate|]. intros _. split; [exact Hpf|]. right.
           split; [reflexivity|]. unfold ctx_done. rewrite Hd.
           apply Z.leb_le. lia.
        -- rewrite Hpf. cbn in IH.
           destruct (IH (r_rsp (operation None rsp w))
                       {| now := now (r_world (operation None rsp w))
                                 + Z.max 0 (NextBackOff ctx
                                     (now (r_world (operation None rsp w)))
                                     (S n) interval);
                          mgr := mgr (r_world (operation None rsp w)) |})
             as [IH1 IH2].
           split; [|exact IH2].
           intros H. destruct (IH1 H) as (p & l & pre & Hp & Ht).
           exists p, l. rewrite tried_app, Ht.
           eexists. split; [exact Hp|]. rewrite app_assoc. reflexivity.
      * cbn. rewrite Hpf. cbn in IH.
        destruct (IH (r_rsp (operation None rsp w))
                    {| now := now (r_world (operation None rsp w))
                              + Z.max 0 (NextBackOff ctx
                                  (now (r_world (operation None rsp w)))
                                  (S n) interval);
                       mgr := mgr (r_world (operation None rsp w)) |})
          as [IH1 IH2].
        split; [|exact IH2].
        intros H. destruct (IH1 H) as (p & l & pre & Hp & Ht).
        exists p, l. rewrite tried_app, Ht.
        eexists. split; [exact Hp|]. rewrite app_assoc. reflexivity.
  - split; [intros _; now apply Hok | rewrite He; intros H; now elim H].
Qed.

Lemma single_round_prefix (log l1 l2 : list Event) t' :
  (List.length (roundStarts log) <= 1)%nat ->
  log = l1 ++ EvGetBestPeers t' :: l2 ->
  roundStarts l1 = [].
Proof.
  intros Hlen ->. rewrite roundStarts_app in Hlen. cbn in Hlen.
  rewrite length_app in Hlen. cbn in Hlen.
  destruct (roundStarts l1); [reflexivity | cbn in Hlen; lia].
Qed.

Lemma spaced_single (log : list Event) :
  (List.length (roundStarts log) <= 1)%nat -> spaced ctx interval log.
Proof.
  intros Hlen l1 t' l2 Heq Hne. elim Hne.
  eapply single_round_prefix; eassumption.
Qed.

Lemma Retry_log_head n pf rsp w :
  exists tl,
    r_log (Retry n interval ctx operation pf rsp w)
    = EvGetBestPeers (now w) :: tl.
Proof.
  rewrite Retry_eq; cbn zeta.
  destruct (operation_log pf rsp w) as (body & Hlog & _).
  destruct (r_err (operation pf rsp w)); [|rewrite Hlog; now eexists].
  destruct n; [cbn; rewrite Hlog; now eexists|].
  destruct (_ =? Stop); [cbn; rewrite Hlog; now eexists|].
  destruct (match doneAt ctx with Some _ => _ | None => _ end); cbn;
    rewrite Hlog; cbn; now eexists.
Qed.

(** The loop runs at least one round and at most one more than the number
    of retries. *)
Lemma Retry_rounds n pf rsp w :
  (1 <= List.length (roundStarts (r_log (Retry n interval ctx operation pf rsp w)))
   <= S n)%nat.
Proof.
  revert pf rsp w. induction n as [|n IH]; intros pf rsp w;
    rewrite Retry_eq; cbn zeta;
    destruct (operation_log pf rsp w) as (body & Hlog & Hbody);
    destruct (r_err (operation pf rsp w)); cbn;
    try (rewrite Hlog; cbn; rewrite Hbody; cbn; lia).
  destruct (_ =? Stop); cbn; [rewrite Hlog; cbn; rewrite Hbody; cbn; lia|].
  destruct (match doneAt ctx with Some _ => _ | None => _ end); cbn;
    rewrite Hlog; cbn; rewrite !roundStarts_app, Hbody; cbn; [lia|].
  match goal with
  | |- context [Retry n interval ctx operation ?a ?b ?c] =>
      specialize (IH a b c)
  end.
  lia.
Qed.

Lemma Retry_spaced n pf rsp w :
  spaced ctx interval (r_log (Retry n interval ctx operation pf rsp w)).
Proof.
  revert pf rsp w. induction n as [|n IH]; intros pf rsp w;
    rewrite Retry_eq; cbn zeta;
    destruct (operation_log pf rsp w) as (body & Hlog & Hbody);
    destruct (r_err (operation pf rsp w)); cbn;
    try (apply spaced_single; rewrite Hlog; cbn; rewrite Hbody; cbn; lia).
  destruct (_ =? Stop) eqn:Hstop; cbn;
    [apply spaced_single; rewrite Hlog; cbn; rewrite Hbody; cbn; lia|].
  apply NextBackOff_goes in Hstop. destruct Hstop as [Hnext _].
  rewrite Hnext.
  destruct (match doneAt ctx with Some _ => _ | None => _ end) eqn:Hcancel; cbn.
  { apply spaced_single. rewrite Hlog. cbn.
    rewrite roundStarts_app, Hbody. cbn. lia. }
  set (t := now (r_world (operation pf rsp w))) in *.
  set (fire := t + Z.max 0 interval) in *.
  set (w' := {| now := fire; mgr := mgr (r_world (operation pf rsp w)) |}).
  assert (Hfire : ctx_done ctx fire = false).
  { unfold ctx_done. destruct (doneAt ctx); [exact Hcancel | reflexivity]. }
  specialize (IH (r_pf (operation pf rsp w)) (r_rsp (operation pf rsp w)) w').
  destruct (Retry_log_head n (r_pf (operation pf rsp w))
              (r_rsp (operation pf rsp w)) w') as [tl Htl].
  set (rest := r_log (Retry n interval ctx operation
                        (r_pf (operation pf rsp w))
                        (r_rsp (operation pf rsp w)) w')) in *.
  set (A := r_log (operation pf rsp w) ++ [EvWait t interval]).
  assert (HA : (List.length (roundStarts A) <= 1)%nat).
  { subst A. rewrite Hlog. cbn. rewrite roundStarts_app, Hbody. cbn. lia. }
  assert (Hhead : forall l l2 t', rest = l ++ EvGetBestPeers t' :: l2 ->
            roundStarts l = [] -> l = [] /\ t' = fire).
  { intros l l2 t' Heq Hl. rewrite Htl in Heq. destruct l as [|x l].
    - injection Heq as Heq _. split; [reflexivity | now symmetry].
    - injection Heq as <- _. discriminate Hl. }
  intros l1 t' l2 Heq Hne.
  apply app_eq_app in Heq. destruct Heq as [l [[H1 H2]|[H1 H2]]].
  - destruct l as [|x l].
    + rewrite app_nil_r in H1. subst l1. cbn in H2.
      destruct (Hhead [] l2 t' (eq_sym H2) eq_refl) as [_ ->].
      exists (r_log (operation pf rsp w)), t. repeat split; assumption.
    + injection H2 as <- _. elim Hne.
      eapply single_round_prefix; [exact HA | exact H1].
  - destruct (roundStarts l) eqn:Hl.
    + destruct (Hhead l l2 t' H2 Hl) as [-> ->].
      rewrite app_nil_r in H1. subst l1.
      exists (r_log (operation pf rsp w)), t. repeat split; assumption.
    + destruct (IH l t' l2 H2) as (lw & tw & Hlw & Ht' & Hd).
      { rewrite Hl. discriminate. }
      exists (A ++ lw), tw. rewrite H1, Hlw, app_assoc.
      repeat split; assumption.
Qed.

End RetryProperties.

(** * Properties of [Call] *)

Section CallProperties.

Context {M : Type} {PM : PeerManager M}.
Context {V : Type} {CD : Codec V}.

Implicit Types (c : client) (ctx : Context) (request : Request).
Implicit Types (w : World (M := M)) (rsp : Container (V := V)).
Implicit Types (pf : option PeerFeedback).

Lemma tryPeers_log c ctx request T pf rsp w :
  exists body,
    r_log (tryPeers c ctx request T pf rsp w) = EvGetBestPeers (now w) :: body /\
    roundStarts body = [].
Proof.
  unfold tryPeers. cbn. eexists. split; [reflexivity|].
  apply tryPeersLoop_attempts.
Qed.

Lemma tryPeers_ok c ctx request T pf rsp w :
  r_err (tryPeers c ctx request T pf rsp w) = None ->
  exists p l pre,
    r_pf (tryPeers c ctx request T pf rsp w) = Some (peerFeedback p l) /\
    tried (r_log (tryPeers c ctx request T pf rsp w)) = pre ++ [p].
Proof.
  unfold tryPeers. cbn. intros Hok.
  destruct (tryPeersLoop_attempts c ctx request T (GetBestPeers (mgr w))
              pf rsp w) as (H1 & _ & H3 & _).
  destruct (H3 Hok) as (pre & a & Hus & _ & Ha & Hpf & _).
  set (all := attempts c ctx request T
                (filter (isPeerAcceptable c) (GetBestPeers (mgr w))) rsp w) in *.
  assert (Hin : In a all).
  { destruct (untilSuccess_prefix all) as [rest Hrest].
    rewrite Hrest, Hus. apply in_or_app. left. apply in_or_app. right.
    left. reflexivity. }
  destruct (attempts_are_calls _ _ _ _ _ _ _ _ Hin) as (rsp' & w' & Hat & Hret).
  pose proof (call_pf_iff c ctx (a_peer a) request rsp' T w') as [Hsome _].
  cbn in Hsome. rewrite <- Hret in Hsome.
  exists (a_peer a), (now (r_world (a_ret a)) - now w'), (map a_peer pre).
  split; [rewrite Hpf; now apply Hsome|].
  rewrite H1, Hus, map_app. reflexivity.
Qed.

Lemma tryPeers_ko c ctx request T rsp w :
  r_err (tryPeers c ctx request T None rsp w) <> None ->
  r_err (tryPeers c ctx request T None rsp w) = Some errAllPeersFailed /\
  r_pf (tryPeers c ctx request T None rsp w) = None.
Proof.
  unfold tryPeers. cbn. intros Hko.
  destruct (tryPeersLoop_attempts c ctx request T (GetBestPeers (mgr w))
              None rsp w) as (_ & _ & _ & H4).
  destruct (H4 Hko) as (He & _ & _ & Hpf). split; [exact He | now apply Hpf].
Qed.

(** The results of [Call]. *)
Lemma Call_result c ctx method body rsp T opts w :
  let r := Call c ctx method body rsp T opts w in
  (r_err r = None ->
   exists p l pre, r_pf r = Some (peerFeedback p l) /\
                   tried (r_log r) = pre ++ [p]) /\
  (r_err r <> None ->
   r_pf r = None /\
   ((r_err r = Some errAllPeersFailed /\
     ((0 < maxRetries (applyCallOptions opts))%N ->
      ctx_done ctx (now (r_world r)) = false)) \/
    (r_err r = Some (ErrCtx (reason ctx)) /\
     ctx_done ctx (now (r_world r)) = true /\
     (0 < maxRetries (applyCallOptions opts))%N))).
Proof.
  intros r. subst r. unfold Call.
  set (request := {| Method := method; Body := Marshal body |}).
  destruct (0 <? maxRetries (applyCallOptions opts))%N eqn:Hn;
    cbn [with_log r_log r_err r_pf r_rsp r_world app tried].
  - apply N.ltb_lt in Hn.
    destruct (Retry_result ctx (retryInterval (applyCallOptions opts))
                (tryPeers c ctx request T)
                (tryPeers_ok c ctx request T) (tryPeers_ko c ctx request T)
                (N.to_nat (maxRetries (applyCallOptions opts))) rsp w)
      as [H1 H2].
    split; [exact H1|].
    intros Hko. destruct (H2 Hko) as [Hpf [[He Hd]|[He Hd]]].
    + split; [exact Hpf|]. left. split; [exact He | intros _; exact Hd].
    + split; [exact Hpf|]. right. repeat split; assumption.
  - apply N.ltb_ge in Hn. split; [apply tryPeers_ok|].
    intros Hko. destruct (tryPeers_ko c ctx request T rsp w Hko) as [He Hpf].
    split; [exact Hpf|]. left. split; [exact He | intros H; lia].
Qed.

(** C10.  [Call] returns a handle exactly when it returns no error.  On a
    success the handle is that of a peer, the last one tried; on every
    failure, the exhaustion of the peers or the end of the context, in
    whatever round, the handle is [nil]. *)
Theorem Call_handle_iff_no_error c ctx method body rsp T opts w :
  let r := Call c ctx method body rsp T opts w in
  (r_pf r <> None <-> r_err r = None) /\
  (r_err r = None ->
   exists p l pre, r_pf r = Some (peerFeedback p l) /\
                   tried (r_log r) = pre ++ [p]) /\
  (r_err r <> None ->
   r_pf r = None /\
   (r_err r = Some errAllPeersFailed \/
    r_err r = Some (ErrCtx (reason ctx)))).
Proof.
  intros r. destruct (Call_result c ctx method body rsp T opts w) as [H1 H2].
  fold r in H1, H2. split; [split|split].
  - intros Hpf. destruct (r_err r) eqn:He; [|reflexivity].
    destruct H2 as [H2 _]; [discriminate|]. now elim Hpf.
  - intros He. destruct (H1 He) as (p & l & pre & Hp & _).
    rewrite Hp. discriminate.
  - exact H1.
  - intros Hko. destruct (H2 Hko) as [Hpf [[He _]|[He _]]];
      (split; [exact Hpf|]); [left | right]; exact He.
Qed.

Lemma spaced_cons_quiet ctx interval (e : Event) (log : list Event) :
  roundStarts [e] = [] -> spaced ctx interval log ->
  spaced ctx interval (e :: log).
Proof.
  intros He Hs l1 t' l2 Heq Hne. destruct l1 as [|x l1]; [now elim Hne|].
  injection Heq as <- Heq.
  destruct (Hs l1 t' l2 Heq) as (l0 & t & Hl & Ht & Hd).
  - intros H. apply Hne. change (e :: l1) with ([e] ++ l1).
    rewrite roundStarts_app, He, H. reflexivity.
  - exists (e :: l0), t. rewrite Hl. repeat split; assumption.
Qed.

(** C3, as the code has it.  The retries are off by default and the
    interval is one second by default.  [Call] runs at least one round and
    at most one more than [maxRetries]; the first round starts at once,
    whatever the state of the context; every other round comes right after
    a wait of [retryInterval], at the instant that this wait ends, and the
    context is not done at that instant.  An attempt on a done context
    returns the error of the context, and does nothing else. *)
Theorem Call_rounds c ctx method body rsp T opts w :
  let co := applyCallOptions opts in
  let r := Call c ctx method body rsp T opts w in
  applyCallOptions [] = {| retryInterval := 1 * Second; maxRetries := 0 |} /\
  (forall n, maxRetries (applyCallOptions (opts ++ [WithMaxRetries n])) = n) /\
  (1 <= List.length (roundStarts (r_log r))
   <= N.to_nat (maxRetries co) + 1)%nat /\
  (exists tl, r_log r = EvMarshal :: EvGetBestPeers (now w) :: tl) /\
  spaced ctx (retryInterval co) (r_log r) /\
  (forall p request rsp' w',
     ctx_done ctx (now w') = true ->
     call c ctx p request rsp' T w' =
     {| r_pf := None; r_err := Some (ErrCtx (reason ctx)); r_rsp := rsp';
        r_world := w'; r_log := [] |}).
Proof.
  intros co r.
  split; [reflexivity|]. split.
  { intros n. unfold applyCallOptions. rewrite fold_left_app. reflexivity. }
  assert (Hlog : r_log r =
            EvMarshal :: r_log (if (0 <? maxRetries co)%N then
                                  Retry (N.to_nat (maxRetries co))
                                    (retryInterval co) ctx
                                    (tryPeers c ctx
                                       {| Method := method; Body := Marshal body |} T)
                                    None rsp w
                                else
                                  tryPeers c ctx
                                    {| Method := method; Body := Marshal body |} T
                                    None rsp w)).
  { reflexivity. }
  rewrite Hlog. clear Hlog.
  set (request := {| Method := method; Body := Marshal body |}).
  destruct (0 <? maxRetries co)%N eqn:Hn.
  - pose proof (Retry_rounds ctx (retryInterval co) (tryPeers c ctx request T)
                  (tryPeers_log c ctx request T)
                  (N.to_nat (maxRetries co)) None rsp w) as Hr.
    destruct (Retry_log_head ctx (retryInterval co) (tryPeers c ctx request T)
                (tryPeers_log c ctx request T)
                (N.to_nat (maxRetries co)) None rsp w) as [tl Htl].
    pose proof (Retry_spaced ctx (retryInterval co) (tryPeers c ctx request T)
                  (tryPeers_log c ctx request T)
                  (N.to_nat (maxRetries co)) None rsp w) as Hs.
    split; [cbn [roundStarts]; lia|].
    split; [rewrite Htl; now eexists|].
    split; [apply spaced_cons_quiet; [reflexivity | exact Hs]|].
    intros p rq rsp' w'. apply call_done.
  - destruct (tryPeers_log c ctx request T None rsp w) as (bd & Hb & Hq).
    rewrite Hb. cbn [roundStarts]. rewrite Hq.
    split; [cbn; lia|].
    split; [now eexists|].
    split.
    + apply spaced_cons_quiet; [reflexivity|].
      apply spaced_single. cbn. rewrite Hq. cbn. lia.
    + intros p rq rsp' w'. apply call_done.
Qed.

End CallProperties.


(** A times out and B echoes: there is a handle and no error. *)
Lemma Call_handle_iff_no_error_witness :
  let r := Call (testClient None) background "echo" hello (Some [])
             (5 * Second) [] (world 0 ["A"; "B"]) in
  r_pf r <> None.
Proof.
  intros r.
  destruct (Call_handle_iff_no_error (testClient None) background "echo"
              hello (Some []) (5 * Second) [] (world 0 ["A"; "B"]))
    as ([_ H] & _).
  exact (H eq_refl).
Defined.

(** The error of exhaustion does not carry the application error that was
    observed.  On a call to the single peer C the attempt ends on the error
    "not found", and [Call] returns the bare error of exhaustion. *)
Lemma exhaustion_error_counterexample :
  let observed := ErrCoded "storage" 3 "not found" in
  let r := Call (testClient None) background "echo" hello (Some [])
             (5 * Second) [] (world 0 ["C"]) in
  r_err (call (testClient None) background "C" echoRequest (Some [])
           (5 * Second) (world 0 ["C"])) = Some observed /\
  ~ (exists e, r_err r = Some e /\ carries e observed).
Proof.
  intros observed r. split; [reflexivity|].
  intros (e & He & Hc). vm_compute in He. injection He as <-.
  destruct Hc as [Hc|[]]. discriminate.
Qed.

(** A round is attempted on a context that is done.  On a call whose
    context is done from the start the round is run all the same: the peer
    manager is asked and both peers are tried. *)
Lemma Call_rounds_counterexample :
  let r := Call (testClient None) (cancelledAt 0) "echo" hello (Some [])
             (5 * Second) [] (world 0 ["A"; "B"]) in
  roundStarts (r_log r) = [0] /\
  tried (r_log r) = ["A"; "B"] /\
  ~ noRoundOnceDone (cancelledAt 0) (r_log r).
Proof.
  intros r. split; [reflexivity|]. split; [reflexivity|].
  intros H. specialize (H 0 (or_introl eq_refl)). discriminate.
Qed.

(** With two retries, at most three rounds. *)
Lemma Call_rounds_witness :
  let r := Call refusingClient background "echo" hello (Some [])
             (5 * Second) [WithMaxRetries 2] (world 0 ["A"; "B"]) in
  (List.length (roundStarts (r_log r)) <= 3)%nat.
Proof.
  intros r.
  destruct (Call_rounds refusingClient background "echo" hello (Some [])
              (5 * Second) [WithMaxRetries 2] (world 0 ["A"; "B"]))
    as (_ & _ & [_ H] & _).
  exact H.
Defined.

(** * Properties of the fan-out call *)

Section FanOutProperties.

Context {M : Type} {PM : PeerManager M}.
Context {V : Type} {CD : Codec V}.

Implicit Types (c : client) (ctx : Context) (request : Request).
Implicit Types (w : World (M := M)) (rsp : Container (V := V)).
Implicit Types (run : TaskRun (M := M) (V := V)).
Implicit Types (chs : list (option (TaskRun (M := M) (V := V)))).
Implicit Types (job : PeerID -> Time -> CallRet (M := M) (V := V)).
Implicit Types (rd : nat -> nat) (ranking : list PeerID).

(** ** The pool *)

Lemma earliest_spec (workers : list Time) :
  workers <> [] ->
  (fst (earliest workers) < List.length workers)%nat /\
  nth (fst (earliest workers)) workers 0 = snd (earliest workers).
Proof.
  induction workers as [|f rest IH]; [intros H; now elim H|]. intros _.
  destruct rest as [|g rest]; [cbn; split; [lia | reflexivity]|].
  destruct IH as [IH1 IH2]; [discriminate|].
  change (earliest (f :: g :: rest))
    with (let (i, m) := earliest (g :: rest) in
          if f <=? m then (O, f) else (S i, m)).
  destruct (earliest (g :: rest)) as [i m]. cbn [fst snd] in IH1, IH2.
  destruct (f <=? m); cbn [fst snd].
  - split; [cbn; lia | reflexivity].
  - split; [cbn in *; lia | exact IH2].
Qed.

Lemma setFree_length i f (workers : list Time) :
  List.length (setFree i f workers) = List.length workers.
Proof.
  revert i. induction workers as [|x rest IH]; intros i; [reflexivity|].
  destruct i; cbn; [reflexivity | now rewrite IH].
Qed.

Lemma setFree_nth i j f (workers : list Time) :
  (i < List.length workers)%nat ->
  nth j (setFree i f workers) 0 = if Nat.eqb j i then f else nth j workers 0.
Proof.
  revert i j. induction workers as [|x rest IH]; intros i j Hi; [cbn in Hi; lia|].
  destruct i, j; cbn; try reflexivity.
  apply IH. cbn in Hi. lia.
Qed.

Lemma submitAll_length c job rd ranking t0 (workers : list Time) i j
    (peers : list PeerID) :
  List.length (submitAll c job rd ranking t0 workers i j peers)
  = List.length (filter (isPeerAcceptable c) peers).
Proof.
  revert workers i j.
  induction peers as [|p rest IH]; intros workers i j; [reflexivity|].
  cbn. destruct (isPeerAcceptable c p); cbn; [|apply IH].
  destruct (submit job workers p _) as [run workers']. cbn. now rewrite IH.
Qed.

(** With no worker nothing runs. *)
Lemma submitAll_no_worker c job rd ranking t0 i j (peers : list PeerID) :
  runsOf (submitAll c job rd ranking t0 [] i j peers) = [].
Proof.
  revert i j. induction peers as [|p rest IH]; intros i j; [reflexivity|].
  cbn. destruct (isPeerAcceptable c p); cbn; apply IH.
Qed.

Lemma submit_some job (workers : list Time) p (read : Time -> PeerID) :
  workers <> [] ->
  submit job workers p read =
  (Some {| t_for := p; t_peer := read (snd (earliest workers));
           t_worker := fst (earliest workers);
           t_start := snd (earliest workers);
           t_result := job (read (snd (earliest workers)))
                         (snd (earliest workers)) |},
   setFree (fst (earliest workers))
     (now (r_world (job (read (snd (earliest workers)))
                      (snd (earliest workers))))) workers).
Proof.
  intros Hne. unfold submit. destruct workers as [|f ws]; [now elim Hne|].
  destruct (earliest (f :: ws)). reflexivity.
Qed.

Lemma setFree_nonempty i f (workers : list Time) :
  workers <> [] -> setFree i f workers <> [].
Proof.
  intros Hne H. apply (f_equal (@List.length _)) in H.
  rewrite setFree_length in H. destruct workers; [now elim Hne | discriminate].
Qed.

(** With a worker, every acceptable peer gets its run, in the order of the
    peers; each run is the job on the peer that it read, started when its
    worker was free. *)
Lemma submitAll_runs c job rd ranking t0 (workers : list Time) i j
    (peers : list PeerID) :
  workers <> [] ->
  let chs := submitAll c job rd ranking t0 workers i j peers in
  map t_for (runsOf chs) = filter (isPeerAcceptable c) peers /\
  List.length (runsOf chs) = List.length chs /\
  forall run, In run (runsOf chs) ->
    t_result run = job (t_peer run) (t_start run) /\
    (t_worker run < List.length workers)%nat.
Proof.
  revert workers i j. induction peers as [|p rest IH]; intros workers i j Hne.
  - cbn. split; [reflexivity|]. split; [reflexivity|]. intros run [].
  - cbn [submitAll filter].
    destruct (isPeerAcceptable c p); cbn [negb]; [|now apply IH].
    rewrite (submit_some job workers p _ Hne).
    destruct (earliest_spec workers Hne) as [Hi _].
    match goal with
    | |- context [setFree ?a ?b workers] =>
        destruct (IH _ (S i) (S j) (setFree_nonempty a b workers Hne))
          as (IH1 & IH2 & IH3)
    end.
    cbn [runsOf map t_for List.length].
    rewrite IH1, IH2. split; [reflexivity|]. split; [reflexivity|].
    intros run [<-|Hin].
    + cbn. split; [reflexivity | exact Hi].
    + destruct (IH3 run Hin) as [H1 H2]. split; [exact H1|].
      rewrite setFree_length in H2. exact H2.
Qed.

Lemma last_nth (l : list PeerID) (d : PeerID) :
  l <> [] -> nth_error l (List.length l - 1) = Some (last l d).
Proof.
  induction l as [|x l IH]; [intros H; now elim H|]. intros _.
  destruct l as [|y l]; [reflexivity|].
  change (last (x :: y :: l) d) with (last (y :: l) d).
  rewrite <- IH by discriminate. cbn [List.length].
  replace (S (S (List.length l)) - 1)%nat with (S (S (List.length l) - 1))
    by lia.
  reflexivity.
Qed.

(** The peer that a task calls is in the ranking, at the place of the peer
    of its iteration or after it; it is the last peer of the ranking for a
    task that starts after the loop. *)
Lemma submitAll_reads c job rd t0 (workers : list Time) j
    (pre peers : list PeerID) :
  let ranking := pre ++ peers in
  forall run,
    In run (runsOf (submitAll c job rd ranking t0 workers
                      (List.length pre) j peers)) ->
    (exists n ahead,
       nth_error ranking n = Some (t_for run) /\
       nth_error ranking (n + ahead) = Some (t_peer run)) /\
    (t0 < t_start run -> t_peer run = last ranking (t_for run)).
Proof.
  revert workers j pre.
  induction peers as [|p rest IH]; intros workers j pre ranking run;
    [intros []|].
  assert (Hstep : ranking = (pre ++ [p]) ++ rest)
    by (subst ranking; now rewrite <- app_assoc).
  assert (Hlen : S (List.length pre) = List.length (pre ++ [p]))
    by (rewrite length_app; cbn; lia).
  cbn [submitAll].
  destruct (isPeerAcceptable c p); cbn [negb].
  2:{ rewrite Hstep, Hlen. apply IH. }
  destruct workers as [|f ws].
  { cbn [submit runsOf]. rewrite submitAll_no_worker. intros []. }
  assert (Hne : f :: ws <> []) by discriminate.
  rewrite (submit_some job _ p _ Hne). cbn [runsOf].
  intros [<-|Hin].
  2:{ revert Hin. rewrite Hstep, Hlen. apply IH. }
  cbn [t_for t_peer t_start].
  assert (Hown : nth_error ranking (List.length pre) = Some p).
  { subst ranking. rewrite nth_error_app2 by lia.
    now rewrite Nat.sub_diag. }
  assert (Hranking : ranking <> []).
  { subst ranking. destruct pre; discriminate. }
  assert (Hlast : exists ahead,
            nth_error ranking (List.length pre + ahead)
            = Some (last ranking p)).
  { exists (List.length ranking - 1 - List.length pre)%nat.
    assert (List.length pre < List.length ranking)%nat
      by (apply nth_error_Some; rewrite Hown; discriminate).
    replace (List.length pre + (List.length ranking - 1 - List.length pre))%nat
      with (List.length ranking - 1)%nat by lia.
    now apply last_nth. }
  unfold peerRead. split.
  - exists (List.length pre).
    destruct (t0 <? _).
    + destruct Hlast as [ahead Ha]. exists ahead. split; assumption.
    + destruct (Nat.lt_ge_cases (List.length pre + rd j)
                  (List.length ranking)) as [Hin|Hout].
      * exists (rd j). split; [exact Hown|].
        apply nth_error_nth'. exact Hin.
      * destruct Hlast as [ahead Ha]. exists ahead. split; [exact Hown|].
        rewrite nth_overflow by exact Hout. exact Ha.
  - intros Hlate. apply Z.ltb_lt in Hlate. rewrite Hlate. reflexivity.
Qed.

(** A run starts when its worker is free. *)
Lemma submitAll_after_free c job rd ranking t0 (workers : list Time) i j
    (peers : list PeerID) :
  (forall p t, t <= now (r_world (job p t))) ->
  forall run, In run (runsOf (submitAll c job rd ranking t0 workers i j peers)) ->
    nth (t_worker run) workers 0 <= t_start run.
Proof.
  intros Hjob. revert workers i j.
  induction peers as [|p rest IH]; intros workers i j run; [intros []|].
  cbn [submitAll].
  destruct (isPeerAcceptable c p); cbn [negb]; [|now apply IH].
  destruct workers as [|f ws].
  { cbn [submit runsOf]. rewrite submitAll_no_worker. intros []. }
  assert (Hne : f :: ws <> []) by discriminate.
  rewrite (submit_some job _ p _ Hne).
  destruct (earliest_spec _ Hne) as [Hi Hm].
  cbn [runsOf].
  intros [<-|Hin]; [cbn [t_worker t_start]; lia|].
  apply IH in Hin. rewrite setFree_nth in Hin by exact Hi.
  destruct (Nat.eqb (t_worker run) (fst (earliest (f :: ws)))) eqn:Hj;
    [|exact Hin].
  apply Nat.eqb_eq in Hj. rewrite Hj, Hm.
  match type of Hin with
  | now (r_world (job ?q ?t)) <= _ => pose proof (Hjob q t)
  end.
  lia.
Qed.

(** The runs in flight at an instant are on different workers. *)
Lemma submitAll_workers_distinct c job rd ranking t0 (workers : list Time)
    i j (peers : list PeerID) t :
  (forall p t, t <= now (r_world (job p t))) ->
  NoDup (map t_worker
           (filter (inFlightAt t)
              (runsOf (submitAll c job rd ranking t0 workers i j peers)))).
Proof.
  intros Hjob. revert workers i j.
  induction peers as [|p rest IH]; intros workers i j; [constructor|].
  cbn [submitAll].
  destruct (isPeerAcceptable c p); cbn [negb]; [|now apply IH].
  destruct workers as [|f ws].
  { cbn [submit runsOf]. rewrite submitAll_no_worker. constructor. }
  assert (Hne : f :: ws <> []) by discriminate.
  rewrite (submit_some job _ p _ Hne).
  destruct (earliest_spec _ Hne) as [Hi Hm].
  cbn [runsOf filter].
  set (wk := fst (earliest (f :: ws))) in *.
  set (start := snd (earliest (f :: ws))) in *.
  set (called := peerRead ranking t0 i (rd j) p start).
  set (run0 := {| t_for := p; t_peer := called; t_worker := wk;
                  t_start := start; t_result := job called start |}).
  set (workers' := setFree wk (now (r_world (job called start))) (f :: ws)).
  destruct (inFlightAt t run0) eqn:Hfl; [|apply IH].
  cbn [map]. constructor; [|apply IH].
  intros Hin. apply in_map_iff in Hin. destruct Hin as (run & Hwk & Hin).
  apply filter_In in Hin. destruct Hin as [Hin Hrun].
  pose proof (submitAll_after_free c job rd ranking t0 workers' (S i) (S j)
                rest Hjob run Hin) as Hafter.
  subst workers'. rewrite setFree_nth in Hafter by exact Hi.
  cbn in Hwk. rewrite Hwk, Nat.eqb_refl in Hafter.
  unfold inFlightAt in Hfl, Hrun.
  apply andb_true_iff in Hfl, Hrun.
  destruct Hfl as [_ Hfl]. destruct Hrun as [Hrun _].
  apply Z.ltb_lt in Hfl. apply Z.leb_le in Hrun.
  unfold t_finish in Hfl. cbn in Hfl. lia.
Qed.

Lemma submitAll_in_flight c job rd ranking t0 (workers : list Time) i j
    (peers : list PeerID) t :
  (forall p t, t <= now (r_world (job p t))) ->
  (inFlight t (submitAll c job rd ranking t0 workers i j peers)
   <= List.length workers)%nat.
Proof.
  intros Hjob. unfold inFlight.
  destruct workers as [|f ws] eqn:Hw.
  { rewrite submitAll_no_worker. cbn. lia. }
  rewrite <- Hw. assert (Hne : workers <> []) by (subst; discriminate).
  clear Hw.
  assert (H : (List.length
                 (map t_worker
                    (filter (inFlightAt t)
                       (runsOf (submitAll c job rd ranking t0 workers i j
                                  peers))))
               <= List.length (seq 0 (List.length workers)))%nat).
  { apply NoDup_incl_length; [now apply submitAll_workers_distinct|].
    intros n Hin. apply in_map_iff in Hin. destruct Hin as (run & <- & Hin).
    apply filter_In in Hin. destruct Hin as [Hin _].
    destruct (submitAll_runs c job rd ranking t0 workers i j peers Hne)
      as (_ & _ & H).
    apply in_seq. destruct (H run Hin) as [_ Hlt]. lia. }
  rewrite length_map, length_seq in H. exact H.
Qed.

(** ** The gathering loop *)

Lemma select_done ctx b (ch : option (TaskRun (M := M) (V := V))) t t' :
  select ctx b ch t = SelDone t' ->
  ctx_done ctx t' = true /\ ctx_Err ctx t' = Some (ErrCtx (reason ctx)).
Proof.
  unfold select, ctx_Err, ctx_done.
  destruct ch as [run|], (doneAt ctx) as [d|]; try discriminate.
  - destruct (_ <? _); [discriminate|].
    destruct (_ <? _); [|destruct b; [|discriminate]];
      intros H; injection H as <-;
      (replace (d <=? Z.max t d) with true by (symmetry; apply Z.leb_le; lia));
      split; reflexivity.
  - intros H; injection H as <-.
    replace (d <=? Z.max t d) with true by (symmetry; apply Z.leb_le; lia).
    split; reflexivity.
Qed.

Lemma select_recv ctx b (ch : option (TaskRun (M := M) (V := V))) t run t' :
  select ctx b ch t = SelRecv run t' -> ch = Some run.
Proof.
  unfold select.
  destruct ch as [run'|], (doneAt ctx) as [d|]; try discriminate.
  - destruct (_ <? _); [intros H; injection H as <- _; reflexivity|].
    destruct (_ <? _); [discriminate|]. destruct b; [discriminate|].
    intros H; injection H as <- _; reflexivity.
  - intros H; injection H as <- _; reflexivity.
Qed.

(** When the loop returns an error, it returns nothing else, whatever it
    has collected. *)
Lemma gather_error ctx sel i chs t collected handles rsps pfs e t' :
  gather ctx sel i chs t collected handles = Returned rsps pfs (Some e) t' ->
  rsps = [] /\ pfs = [] /\ e = ErrCtx (reason ctx) /\ ctx_done ctx t' = true.
Proof.
  revert i t collected handles.
  induction chs as [|ch rest IH]; intros i t collected handles; cbn [gather];
    [discriminate|].
  destruct (select ctx (sel i) ch t) as [|td|run tr] eqn:Hsel; [discriminate| |].
  - destruct (select_done _ _ _ _ _ Hsel) as [Hd He]. rewrite He.
    intros H. injection H as <- <- <- <-. repeat split. exact Hd.
  - destruct (r_err (t_result run)); apply IH.
Qed.

(** When the loop returns no error, it has received the result of every
    channel, and returns the successful ones in the order of the
    channels. *)
Lemma gather_complete ctx sel i chs t collected handles rsps pfs t' :
  gather ctx sel i chs t collected handles = Returned rsps pfs None t' ->
  rsps = collected
         ++ map (fun run => r_rsp (t_result run))
              (filter succeeded (runsOf chs)) /\
  pfs = handles
        ++ map (fun run => r_pf (t_result run))
             (filter succeeded (runsOf chs)) /\
  List.length (runsOf chs) = List.length chs.
Proof.
  revert i t collected handles.
  induction chs as [|ch rest IH]; intros i t collected handles; cbn [gather].
  - intros H. injection H as <- <- _. cbn. rewrite !app_nil_r.
    repeat split.
  - destruct (select ctx (sel i) ch t) as [|td|run tr] eqn:Hsel; [discriminate| |].
    + destruct (select_done _ _ _ _ _ Hsel) as [_ He]. rewrite He. discriminate.
    + apply select_recv in Hsel. subst ch. cbn [runsOf filter].
      replace (succeeded run)
        with (match r_err (t_result run) with None => true | Some _ => false end)
        by reflexivity.
      destruct (r_err (t_result run)); intros H; apply IH in H;
        destruct H as (H1 & H2 & H3); cbn [map List.length];
        rewrite H1, H2, H3, <- ?app_assoc; repeat split.
Qed.

(** The loop returns the successful results once every channel has its
    run, when the context is never done, and also when it is done only
    after the loop was entered and after every run has finished. *)
Lemma gather_returns ctx sel i chs t collected handles :
  match doneAt ctx with
  | None => True
  | Some d => t < d /\ forall run, In run (runsOf chs) -> t_finish run < d
  end ->
  List.length (runsOf chs) = List.length chs ->
  exists t',
    gather ctx sel i chs t collected handles =
    Returned
      (collected ++ map (fun run => r_rsp (t_result run))
                      (filter succeeded (runsOf chs)))
      (handles ++ map (fun run => r_pf (t_result run))
                    (filter succeeded (runsOf chs)))
      None t'.
Proof.
  revert i t collected handles.
  induction chs as [|ch rest IH]; intros i t collected handles Hctx Hlen;
    cbn [gather].
  - exists t. cbn. rewrite !app_nil_r. reflexivity.
  - destruct ch as [run|].
    + cbn [runsOf List.length] in Hlen. injection Hlen as Hlen.
      assert (Hsel : select ctx (sel i) (Some run) t
                     = SelRecv run (Z.max t (t_finish run))).
      { unfold select. destruct (doneAt ctx) as [d|]; [|reflexivity].
        destruct Hctx as [Ht Hruns].
        pose proof (Hruns run (or_introl eq_refl)) as Hrun.
        replace (Z.max t (t_finish run) <? Z.max t d) with true
          by (symmetry; apply Z.ltb_lt; lia).
        reflexivity. }
      assert (Hctx' : match doneAt ctx with
                      | None => True
                      | Some d =>
                          Z.max t (t_finish run) < d /\
                          forall run', In run' (runsOf rest) ->
                                       t_finish run' < d
                      end).
      { destruct (doneAt ctx) as [d|]; [|exact I].
        destruct Hctx as [Ht Hruns].
        pose proof (Hruns run (or_introl eq_refl)) as Hrun.
        split; [lia|]. intros run' Hin. apply Hruns. right. exact Hin. }
      rewrite Hsel. cbn [runsOf filter].
      replace (succeeded run)
        with (match r_err (t_result run) with None => true | Some _ => false end)
        by reflexivity.
      destruct (r_err (t_result run)).
      * apply IH; assumption.
      * destruct (IH (S i) (Z.max t (t_finish run))
                    (collected ++ [r_rsp (t_result run)])
                    (handles ++ [r_pf (t_result run)]) Hctx' Hlen) as [t' Ht'].
        exists t'. rewrite Ht'. cbn [map]. rewrite <- !app_assoc. reflexivity.
    + exfalso. cbn [runsOf List.length] in Hlen.
      assert (H : (List.length (runsOf rest) <= List.length rest)%nat).
      { clear. induction rest as [|[x|] rest IH]; cbn; lia. }
      lia.
Qed.

(** When the select finds the context done, the loop returns the error of
    the context and nothing else. *)
Lemma gather_done_step ctx sel i (ch : option (TaskRun (M := M) (V := V)))
    rest t td collected handles :
  select ctx (sel i) ch t = SelDone td ->
  gather ctx sel i (ch :: rest) t collected handles
  = Returned [] [] (Some (ErrCtx (reason ctx))) td.
Proof.
  intros Hsel. cbn [gather]. rewrite Hsel.
  destruct (select_done _ _ _ _ _ Hsel) as [_ He]. rewrite He. reflexivity.
Qed.

(** When the context is done while a task has not finished, the loop finds
    it done, whatever the ties: it has not returned before, since it waits
    for that task. *)
Lemma gather_finds_done ctx sel i chs t d collected handles :
  doneAt ctx = Some d ->
  (exists run, In run (runsOf chs) /\ Z.max t d < t_finish run) ->
  gather ctx sel i chs t collected handles
  = Returned [] [] (Some (ErrCtx (reason ctx))) (Z.max t d).
Proof.
  intros Hd. revert i t collected handles.
  induction chs as [|ch rest IH]; intros i t collected handles
    (late & Hin & Hlate); [destruct Hin|].
  destruct (select ctx (sel i) ch t) as [|td|run tr] eqn:Hsel.
  - unfold select in Hsel. rewrite Hd in Hsel.
    destruct ch; [|discriminate].
    destruct (_ <? _); [discriminate|].
    destruct (_ <? _); [discriminate|]. destruct (sel i); discriminate.
  - rewrite (gather_done_step _ _ _ _ _ _ _ _ _ Hsel). f_equal.
    unfold select in Hsel. rewrite Hd in Hsel. destruct ch as [run|].
    + destruct (_ <? _); [discriminate|].
      destruct (_ <? _); [|destruct (sel i); [|discriminate]];
        injection Hsel as <-; reflexivity.
    + injection Hsel as <-. reflexivity.
  - assert (Hch : ch = Some run) by (eapply select_recv; exact Hsel).
    subst ch. cbn [gather]. rewrite Hsel.
    assert (Htr : tr = Z.max t (t_finish run) /\ tr <= Z.max t d).
    { unfold select in Hsel. rewrite Hd in Hsel.
      destruct (Z.max t (t_finish run) <? Z.max t d) eqn:H1.
      - apply Z.ltb_lt in H1. injection Hsel as <-. split; [reflexivity | lia].
      - destruct (Z.max t d <? Z.max t (t_finish run)) eqn:H2; [discriminate|].
        destruct (sel i); [discriminate|].
        apply Z.ltb_ge in H1, H2. injection Hsel as <-.
        split; [reflexivity | lia]. }
    destruct Htr as [Htr Hle].
    assert (Hmax : Z.max tr d = Z.max t d) by lia.
    assert (Hrest : exists run', In run' (runsOf rest) /\
                                 Z.max tr d < t_finish run').
    { exists late. rewrite Hmax. split; [|exact Hlate].
      cbn [runsOf] in Hin. destruct Hin as [<-|Hin]; [lia | exact Hin]. }
    rewrite <- Hmax.
    destruct (r_err (t_result run)); apply IH; exact Hrest.
Qed.

(** ** [CallMulti] *)

Lemma repeat_nonempty (t : Time) (k : N) :
  (0 < k)%N -> repeat t (N.to_nat k) <> [].
Proof.
  intros Hk H. apply (f_equal (@List.length _)) in H.
  rewrite repeat_length in H. cbn in H. lia.
Qed.

(** The runs of [CallMulti] are single attempts, started no earlier than
    the call; each was submitted for an accepted peer, and calls the peer
    that it read in the variable of the loop. *)
Lemma CallMulti_runs c ctx sel rd method body rspTyp T k w run :
  let request := {| Method := method; Body := Marshal body |} in
  let ranking := GetBestPeers (mgr w) in
  In run (runsOf (m_runs (CallMulti c ctx sel rd method body rspTyp T k w))) ->
  t_result run =
    call c ctx (t_peer run) request (Some (Zero rspTyp)) T
      {| now := t_start run; mgr := mgr w |} /\
  In (t_for run) (filter (isPeerAcceptable c) ranking) /\
  now w <= t_start run /\
  (exists n ahead,
     nth_error ranking n = Some (t_for run) /\
     nth_error ranking (n + ahead) = Some (t_peer run)) /\
  (now w < t_start run -> t_peer run = last ranking (t_for run)).
Proof.
  intros request ranking. unfold CallMulti. cbn [m_runs].
  fold request. fold ranking.
  set (job := fun peer start =>
         call c ctx peer request (Some (Zero rspTyp)) T
           {| now := start; mgr := mgr w |}).
  destruct (repeat (now w) (N.to_nat k)) as [|f ws] eqn:Hpool.
  { rewrite submitAll_no_worker. intros []. }
  rewrite <- Hpool. assert (Hne : repeat (now w) (N.to_nat k) <> [])
    by (rewrite Hpool; discriminate).
  destruct (submitAll_runs c job rd ranking (now w) _ O O ranking Hne)
    as (Hp & _ & Hr).
  intros Hin. split; [apply (Hr run Hin)|].
  split; [rewrite <- Hp; apply in_map; exact Hin|].
  split.
  - assert (Hjob : forall p t, t <= now (r_world (job p t))).
    { intros p t0.
      apply (call_time c ctx p _ _ T {| now := t0; mgr := mgr w |}). }
    pose proof (submitAll_after_free c job rd ranking (now w) _ O O ranking
                  Hjob run Hin) as Hafter.
    destruct (Hr run Hin) as [_ Hlt].
    assert (Hnth : nth (t_worker run) (repeat (now w) (N.to_nat k)) 0
                   = now w).
    { apply (repeat_spec (N.to_nat k) (now w)). apply nth_In. exact Hlt. }
    lia.
  - apply (submitAll_reads c job rd (now w) _ O [] ranking run Hin).
Qed.

(** C1, as the code has it.  Whenever [CallMulti] returns an error, this
    is the error of the context, found done by the gathering loop, and the
    two lists returned are empty: what the loop has collected until then,
    however much, is dropped.  [CallMulti] returns results, and then no
    error, only once it has received the result of every task; these are
    then all the successful ones.  Whenever a select of the loop finds the
    context done, the loop returns that error and two empty lists, whatever
    it holds; and the loop does find the context done as soon as the
    context is done while a task has not finished.  On a context that is
    never done [CallMulti] returns no error, whatever the tasks return. *)
Theorem CallMulti_cancellation c ctx sel rd method body rspTyp T k w :
  let r := CallMulti c ctx sel rd method body rspTyp T k w in
  let ok := filter succeeded (runsOf (m_runs r)) in
  (forall rsps pfs e t,
     m_out r = Returned rsps pfs (Some e) t ->
     rsps = [] /\ pfs = [] /\ e = ErrCtx (reason ctx) /\
     ctx_done ctx t = true) /\
  (forall rsps pfs t,
     m_out r = Returned rsps pfs None t ->
     rsps = map (fun run => r_rsp (t_result run)) ok /\
     pfs = map (fun run => r_pf (t_result run)) ok /\
     List.length (runsOf (m_runs r)) = List.length (m_runs r)) /\
  (forall i chs t collected handles rsps pfs e t',
     gather ctx sel i chs t collected handles = Returned rsps pfs (Some e) t' ->
     rsps = [] /\ pfs = []) /\
  (forall i (ch : option (TaskRun (M := M) (V := V))) rest t td
          collected handles,
     select ctx (sel i) ch t = SelDone td ->
     gather ctx sel i (ch :: rest) t collected handles
     = Returned [] [] (Some (ErrCtx (reason ctx))) td) /\
  (forall d,
     doneAt ctx = Some d ->
     (exists run, In run (runsOf (m_runs r)) /\
                  Z.max (now w) d < t_finish run) ->
     m_out r = Returned [] [] (Some (ErrCtx (reason ctx)))
                 (Z.max (now w) d)) /\
  (doneAt ctx = None ->
   forall rsps pfs e t, m_out r <> Returned rsps pfs (Some e) t).
Proof.
  intros r ok. split; [|split; [|split; [|split; [|split]]]].
  - intros rsps pfs e t H. exact (gather_error _ _ _ _ _ _ _ _ _ _ _ H).
  - intros rsps pfs t H. exact (gather_complete _ _ _ _ _ _ _ _ _ _ H).
  - intros i chs t collected handles rsps pfs e t' H.
    destruct (gather_error _ _ _ _ _ _ _ _ _ _ _ H) as (H1 & H2 & _).
    split; assumption.
  - intros i ch rest t td collected handles. apply gather_done_step.
  - intros d Hd Hlate. exact (gather_finds_done _ _ _ _ _ _ _ _ Hd Hlate).
  - intros Hnever rsps pfs e t H.
    destruct (gather_error _ _ _ _ _ _ _ _ _ _ _ H) as (_ & _ & _ & Hdone).
    unfold ctx_done in Hdone. rewrite Hnever in Hdone. discriminate.
Qed.

(** X21.  What holds of the tasks of [CallMulti] whatever peer each of them
    reads.  The body is serialized once, and by no task; there is one
    result channel for each peer of the ranking that the configured filter
    accepts; with a worker in the pool every channel has its run, in the
    order of these peers.  A run is a single [call], with the same request
    and a fresh container, on a peer of the ranking that stands at the
    place of the peer of its iteration or after it, and opens at most one
    stream.  Whatever is returned, the two lists have the same length; when
    no error is returned they are the responses and the handles of the
    successful runs, in the order of submission, the i-th handle being that
    of the run of the i-th response, for the peer called and for its
    latency.  With a worker in the pool [CallMulti] returns so when the
    context is never done, and also when it is done only after every run
    has finished. *)
Theorem CallMulti_tasks c ctx sel rd method body rspTyp T k w :
  let request := {| Method := method; Body := Marshal body |} in
  let r := CallMulti c ctx sel rd method body rspTyp T k w in
  let ranking := GetBestPeers (mgr w) in
  let accepted :=
    filter (fun p => match peerFilter (opts c) with
                     | None => true
                     | Some f => f p
                     end) ranking in
  let ok := filter succeeded (runsOf (m_runs r)) in
  let responses := map (fun run => r_rsp (t_result run)) ok in
  let handles := map (fun run => r_pf (t_result run)) ok in
  filter isMarshal (m_log r) = [EvMarshal] /\
  List.length (m_runs r) = List.length accepted /\
  ((0 < k)%N -> map t_for (runsOf (m_runs r)) = accepted) /\
  (forall run, In run (runsOf (m_runs r)) ->
     t_result run =
       call c ctx (t_peer run) request (Some (Zero rspTyp)) T
         {| now := t_start run; mgr := mgr w |} /\
     filter isMarshal (r_log (t_result run)) = [] /\
     (List.length (filter isNewStream (r_log (t_result run))) <= 1)%nat /\
     (exists n ahead,
        nth_error ranking n = Some (t_for run) /\
        nth_error ranking (n + ahead) = Some (t_peer run)) /\
     (now w < t_start run -> t_peer run = last ranking (t_for run))) /\
  (forall run, In run ok ->
     r_pf (t_result run)
     = Some (peerFeedback (t_peer run) (t_finish run - t_start run))) /\
  (forall rsps pfs err t,
     m_out r = Returned rsps pfs err t ->
     List.length rsps = List.length pfs /\
     (err = None ->
      rsps = responses /\ pfs = handles /\
      combine rsps pfs
      = map (fun run => (r_rsp (t_result run), r_pf (t_result run))) ok)) /\
  ((0 < k)%N ->
   match doneAt ctx with
   | None => True
   | Some d => forall run, In run (runsOf (m_runs r)) -> t_finish run < d
   end ->
   exists t, m_out r = Returned responses handles None t).
Proof.
  intros request r ranking accepted ok responses handles.
  change accepted with (filter (isPeerAcceptable c) ranking).
  set (job := fun peer start =>
         call c ctx peer request (Some (Zero rspTyp)) T
           {| now := start; mgr := mgr w |}).
  assert (Hruns : m_runs r
            = submitAll c job rd ranking (now w)
                (repeat (now w) (N.to_nat k)) O O ranking)
    by reflexivity.
  assert (Hout : m_out r = gather ctx sel O (m_runs r) (now w) [] [])
    by reflexivity.
  assert (Hcall : forall run, In run (runsOf (m_runs r)) ->
            t_result run = job (t_peer run) (t_start run)).
  { intros run Hin.
    apply (CallMulti_runs c ctx sel rd method body rspTyp T k w run Hin). }
  split; [reflexivity|]. split; [rewrite Hruns; apply submitAll_length|].
  split; [|split; [|split; [|split]]].
  - intros Hk. rewrite Hruns.
    apply (submitAll_runs c job rd ranking (now w) _ O O ranking
             (repeat_nonempty (now w) k Hk)).
  - intros run Hin. rewrite (Hcall run Hin). split; [reflexivity|]. split.
    + unfold job, call. destruct (ctx_done ctx _); [reflexivity|].
      assert (H : forall p rq rs T' w',
                filter isMarshal
                  (s_log (sendRequestAndDecodeResponse c ctx p rq rs T' w')) = []).
      { intros p rq rs T' w'. unfold sendRequestAndDecodeResponse, exchange.
        destruct (open_err _); [reflexivity|].
        destruct (write_err _); [reflexivity|].
        destruct (read_res _) as [|rawRsp]; [reflexivity|].
        destruct (Error rawRsp); [reflexivity|].
        destruct rs as [v|]; [|reflexivity].
        destruct (Unmarshal (Ok rawRsp) v). reflexivity. }
      cbn zeta. destruct (s_err _); cbn; rewrite ?filter_app, H; reflexivity.
    + split; [apply call_streams|].
      destruct (CallMulti_runs c ctx sel rd method body rspTyp T k w run Hin)
        as (_ & _ & _ & Hplace & Hlast).
      split; [exact Hplace | exact Hlast].
  - intros run Hin. apply filter_In in Hin. destruct Hin as [Hin Hok].
    pose proof (call_pf_iff c ctx (t_peer run) request (Some (Zero rspTyp)) T
                  {| now := t_start run; mgr := mgr w |}) as [Hsome _].
    cbn zeta in Hsome. fold (job (t_peer run) (t_start run)) in Hsome.
    rewrite <- (Hcall run Hin) in Hsome. apply Hsome.
    unfold succeeded in Hok. destruct (r_err (t_result run));
      [discriminate | reflexivity].
  - intros rsps pfs err t Hret. rewrite Hout in Hret.
    destruct err as [e|].
    + destruct (gather_error _ _ _ _ _ _ _ _ _ _ _ Hret) as (-> & -> & _).
      split; [reflexivity | discriminate].
    + destruct (gather_complete _ _ _ _ _ _ _ _ _ _ Hret) as (-> & -> & _).
      cbn [app]. fold ok. split; [now rewrite !length_map|].
      intros _. split; [reflexivity|]. split; [reflexivity|].
      clear. induction ok as [|run l IH]; [reflexivity|].
      cbn. now rewrite IH.
  - intros Hk Hctx. rewrite Hout.
    destruct (submitAll_runs c job rd ranking (now w) _ O O ranking
                (repeat_nonempty (now w) k Hk)) as (_ & Hlen & _).
    rewrite <- Hruns in Hlen.
    assert (Hcase : m_runs r = [] \/
              match doneAt ctx with
              | None => True
              | Some d =>
                  now w < d /\
                  forall run, In run (runsOf (m_runs r)) -> t_finish run < d
              end).
    { destruct (doneAt ctx) as [d|]; [|right; exact I].
      destruct (runsOf (m_runs r)) as [|run0 others] eqn:Hsome.
      - left. apply length_zero_iff_nil. rewrite <- Hlen. reflexivity.
      - right. split; [|exact Hctx].
        assert (Hin0 : In run0 (runsOf (m_runs r)))
          by (rewrite Hsome; left; reflexivity).
        destruct (CallMulti_runs c ctx sel rd method body rspTyp T k w run0
                    Hin0) as (Hres & _ & Hstart & _).
        pose proof (Hctx run0 (or_introl eq_refl)) as Hfin.
        pose proof (call_time c ctx (t_peer run0) request
                      (Some (Zero rspTyp)) T
                      {| now := t_start run0; mgr := mgr w |}) as Htime.
        cbn zeta in Hres. fold request in Hres. rewrite <- Hres in Htime.
        unfold t_finish in Hfin. cbn [now] in Htime. lia. }
    destruct Hcase as [Hnil|Hcase].
    + exists (now w). subst responses handles ok. rewrite Hnil. reflexivity.
    + destruct (gather_returns ctx sel O (m_runs r) (now w) [] [] Hcase Hlen)
        as [t Ht].
      exists t. exact Ht.
Qed.

(** C9.  At every instant, the number of attempts of a [CallMulti] that are
    in flight is at most [maxParallelRequests], however many peers there
    are. *)
Theorem CallMulti_in_flight c ctx sel rd method body rspTyp T k w t :
  (inFlight t (m_runs (CallMulti c ctx sel rd method body rspTyp T k w))
   <= N.to_nat k)%nat.
Proof.
  unfold CallMulti. cbn [m_runs].
  match goal with
  | |- (inFlight t (submitAll c ?job rd ?ranking ?t0 ?pool O O ?peers) <= _)%nat =>
      pose proof (submitAll_in_flight c job rd ranking t0 pool O O peers t) as H
  end.
  rewrite repeat_length in H. apply H.
  intros p t0. apply (call_time c ctx p _ _ T {| now := t0; mgr := mgr w |}).
Qed.

End FanOutProperties.

(** B answers after twelve milliseconds and A would time out after two
    seconds; the context is done after one second, while the loop waits
    for A.  The results collected so far are not returned: the response
    of B is dropped and the error of the context comes back alone. *)
Lemma CallMulti_cancellation_counterexample :
  let r := CallMulti (testClient None) (cancelledAt Second) (fun _ => false)
             (fun _ => O) "echo" hello [] (5 * Second) 1
             (world 0 ["B"; "A"]) in
  map (option_map (fun run =>
         (t_peer run, r_err (t_result run), r_rsp (t_result run),
          t_finish run)))
    (m_runs r)
  = [Some ("B", None, Some hello, 12000000);
     Some ("A",
           Some (ErrWrap "failed to read response" (ErrExternal "i/o timeout")),
           Some [], 2014000000)] /\
  m_out r = Returned [] [] (Some (ErrCtx Canceled)) Second /\
  ~ (exists pf t, m_out r = Returned [Some hello] [pf] None t).
Proof.
  intros r. split; [|split].
  - vm_compute. reflexivity.
  - vm_compute. reflexivity.
  - intros (pf & t & H). vm_compute in H. discriminate.
Qed.

(** On that run the context is done while the task on A has not finished:
    the error of the context comes back, and nothing with it. *)
Lemma CallMulti_cancellation_witness :
  m_out (CallMulti (testClient None) (cancelledAt Second) (fun _ => false)
           (fun _ => O) "echo" hello [] (5 * Second) 1 (world 0 ["B"; "A"]))
  = Returned [] [] (Some (ErrCtx Canceled)) Second.
Proof.
  destruct (CallMulti_cancellation (testClient None) (cancelledAt Second)
              (fun _ => false) (fun _ => O) "echo" hello [] (5 * Second) 1
              (world 0 ["B"; "A"])) as (_ & _ & _ & _ & Hlate & _).
  apply (Hlate Second eq_refl).
  assert (Hfin : In 2014000000
            (map t_finish
               (runsOf (m_runs
                  (CallMulti (testClient None) (cancelledAt Second)
                     (fun _ => false) (fun _ => O) "echo" hello []
                     (5 * Second) 1 (world 0 ["B"; "A"])))))).
  { vm_compute. right. left. reflexivity. }
  apply in_map_iff in Hfin. destruct Hfin as (run & Hrun & Hin).
  exists run. split; [exact Hin|]. rewrite Hrun. reflexivity.
Defined.

(** C8, where the code departs from it: a task does not always call the
    peer for which it was submitted.  The ranking is B, D, A; the filter
    rejects A; there is one worker.  The candidates are B and D.  The task
    submitted for D starts when the worker is free, twelve milliseconds
    after the loop has ended on A: it finds A in the variable of the loop,
    and calls A, which the filter rejects and which times out.  D, which
    would have answered, is never called, and its response is missing in
    what [CallMulti] returns. *)
Theorem CallMulti_task_calls_other_peer :
  let accept := fun p => negb (String.eqb p "A") in
  let c := testClient (Some accept) in
  let w := world 0 ["B"; "D"; "A"] in
  let r := CallMulti c background (fun _ => false) (fun _ => O)
             "echo" hello [] (5 * Second) 1 w in
  filter (isPeerAcceptable c) (GetBestPeers (mgr w)) = ["B"; "D"] /\
  map (option_map (fun run =>
         (t_for run, t_peer run, t_start run, r_err (t_result run))))
    (m_runs r)
  = [Some ("B", "B", 0, None);
     Some ("D", "A", 12000000,
           Some (ErrWrap "failed to read response"
                   (ErrExternal "i/o timeout")))] /\
  m_out r = Returned [Some hello] [Some (peerFeedback "B" 12000000)] None
              2014000000 /\
  r_err (call c background "D" echoRequest (Some []) (5 * Second)
           (world 12000000 ["B"; "D"; "A"])) = None.
Proof.
  intros accept c w r. split; [|split; [|split]]; vm_compute; reflexivity.
Qed.

(** A times out, B and D echo, two workers and a context done after ten
    seconds, when every task has finished: the responses of B and of D
    come back, in this order, each with the handle of its peer. *)
Lemma CallMulti_tasks_witness :
  exists t,
    m_out (CallMulti (testClient None) (cancelledAt (10 * Second))
             (fun _ => false) (fun _ => O)
             "echo" hello [] (5 * Second) 2 (world 0 ["A"; "B"; "D"]))
    = Returned [Some hello; Some hello]
        [Some (peerFeedback "B" 12000000);
         Some (peerFeedback "D" 3002000000)]
        None t.
Proof.
  destruct (CallMulti_tasks (testClient None) (cancelledAt (10 * Second))
              (fun _ => false) (fun _ => O)
              "echo" hello [] (5 * Second) 2 (world 0 ["A"; "B"; "D"]))
    as (_ & _ & _ & _ & _ & _ & Hret).
  destruct (Hret eq_refl) as [t Ht].
  - cbn [doneAt cancelledAt]. intros run Hin.
    assert (Hall : forallb (fun run => t_finish run <? 10 * Second)
              (runsOf (m_runs
                 (CallMulti (testClient None) (cancelledAt (10 * Second))
                    (fun _ => false) (fun _ => O)
                    "echo" hello [] (5 * Second) 2
                    (world 0 ["A"; "B"; "D"])))) = true)
      by (vm_compute; reflexivity).
    rewrite forallb_forall in Hall. apply Z.ltb_lt. apply Hall. exact Hin.
  - exists t. rewrite Ht. vm_compute. reflexivity.
Defined.

(** With two workers and four peers, two attempts are in flight five
    milliseconds after the call: the bound of the pool is reached. *)
Example two_in_flight :
  inFlight 5000000
    (m_runs (CallMulti (testClient None) background (fun _ => false)
               (fun _ => O) "echo" hello [] (5 * Second) 2
               (world 0 ["A"; "B"; "D"; "C"]))) = 2%nat.
Proof. vm_compute. reflexivity. Qed.

(** The scenario of the echo protocol: A always times out, B echoes; the
    call returns the body sent, a handle on B, and one failure is recorded
    for A. *)
Example echo_scenario :
  let r := Call (testClient None) background "echo" hello (Some [])
             (2 * Second) [] (world 0 ["A"; "B"]) in
  r_err r = None /\
  r_rsp r = Some hello /\
  r_pf r = Some (peerFeedback "B" 12000000) /\
  failures (mgr (r_world r)) = [("A", 2002000000)].
Proof. vm_compute. repeat split. Qed.

(** * Properties of the roles bitmask *)

Section RolesProperties.

(** Masks below sixty-four are checked one by one. *)
Lemma below_64_cases (m : Z) :
  0 <= m < 64 -> In m (map Z.of_nat (seq 0 64)).
Proof.
  intros H. rewrite <- (Z2Nat.id m) by lia.
  apply in_map. apply in_seq. lia.
Qed.

Lemma below_64_forall (f : Z -> bool) :
  forallb f (map Z.of_nat (seq 0 64)) = true ->
  forall m, 0 <= m < 64 -> f m = true.
Proof.
  intros Hf m Hm. rewrite forallb_forall in Hf.
  apply Hf. now apply below_64_cases.
Qed.

(** A mask of thirty-two bits without reserved bit is below
    sixty-four. *)
Lemma unreserved_below_64 (m : RolesMask) :
  0 <= m < 2 ^ 32 -> Z.land m RoleReserved = 0 -> 0 <= m < 64.
Proof.
  intros Hm Hres.
  assert (H32 : Z.land m (Z.ones 32) = m).
  { rewrite Z.land_ones by lia. apply Z.mod_small. exact Hm. }
  replace (Z.ones 32) with (Z.lor (Z.ones 6) RoleReserved) in H32
    by (vm_compute; reflexivity).
  rewrite Z.land_lor_distr_r, Hres, Z.lor_0_r, Z.land_ones in H32 by lia.
  rewrite <- H32. change (2 ^ 6) with 64. apply Z.mod_pos_bound. lia.
Qed.

Lemma below_64_unreserved (m : RolesMask) :
  0 <= m < 64 -> Z.land m RoleReserved = 0.
Proof.
  intros Hm. apply Z.eqb_eq.
  apply (below_64_forall (fun m => Z.land m RoleReserved =? 0));
    [vm_compute; reflexivity | exact Hm].
Qed.

(** X1.  A mask of thirty-two bits encodes a single role exactly when it
    is one of the six roles that [Roles] lists. *)
Theorem IsSingleRole_iff_listed (m : RolesMask) :
  0 <= m < 2 ^ 32 ->
  (IsSingleRole m = true <-> In m Roles).
Proof.
  intros Hm. split.
  - intros H. unfold IsSingleRole in H.
    apply andb_true_iff in H. destruct H as [H Hres].
    apply Z.eqb_eq in Hres.
    pose proof (unreserved_below_64 m Hm Hres) as H64.
    assert (Hin : existsb (Z.eqb m) Roles = true).
    { pose proof (below_64_forall
                    (fun m => implb (negb (m =? 0)
                                     && (Z.land m (uint32 (m - 1)) =? 0))
                                (existsb (Z.eqb m) Roles))) as Hall.
      specialize (Hall ltac:(vm_compute; reflexivity) m H64).
      cbv beta in Hall. rewrite H in Hall. exact Hall. }
    apply existsb_exists in Hin. destruct Hin as (x & Hx & Heq).
    apply Z.eqb_eq in Heq. now subst x.
  - intros Hin. unfold Roles in Hin. cbn in Hin.
    repeat (destruct Hin as [<-|Hin]; [vm_compute; reflexivity|]).
    destruct Hin.
Qed.

(** X2.  The text form goes back to the mask exactly for the masks that
    are not empty and have no reserved bit: [UnmarshalText] then returns
    the mask and no error.  For the empty mask and for a mask with a
    reserved bit, [MarshalText] still returns no error, but its text is
    refused as an invalid role. *)
Theorem RolesMask_text_round_trip (m : RolesMask) :
  0 <= m < 2 ^ 32 ->
  snd (MarshalText m) = None /\
  (m <> 0 /\ Z.land m RoleReserved = 0 ->
   UnmarshalText (fst (MarshalText m)) = (m, None)) /\
  (m = 0 \/ Z.land m RoleReserved <> 0 ->
   UnmarshalText (fst (MarshalText m))
   = (0, Some (ErrQuoted ErrInvalidRole (fst (MarshalText m))))).
Proof.
  intros Hm. split; [reflexivity|]. split.
  - intros [Hnz Hres].
    pose proof (unreserved_below_64 m Hm Hres) as H64.
    pose proof (below_64_forall
                  (fun m => (m =? 0)
                            || match UnmarshalText (fst (MarshalText m)) with
                               | (m', None) => m' =? m
                               | (_, Some _) => false
                               end)) as Hall.
    specialize (Hall ltac:(vm_compute; reflexivity) m H64). cbv beta in Hall.
    apply Z.eqb_neq in Hnz. rewrite Hnz in Hall. cbn [orb] in Hall.
    destruct (UnmarshalText (fst (MarshalText m))) as [m' [e|]];
      [discriminate|].
    apply Z.eqb_eq in Hall. now subst m'.
  - intros [-> | Hres]; [vm_compute; reflexivity|].
    cbn [MarshalText fst]. unfold RolesMask_String.
    apply Z.eqb_neq in Hres. rewrite Hres. vm_compute. reflexivity.
Qed.

End RolesProperties.

Lemma IsSingleRole_iff_listed_witness : IsSingleRole 16 = true.
Proof.
  apply (IsSingleRole_iff_listed 16); [lia|].
  right. right. right. right. left. reflexivity.
Defined.

Lemma RolesMask_text_round_trip_witness :
  UnmarshalText "compute,key-manager" = (5, None).
Proof.
  destruct (RolesMask_text_round_trip 5) as (_ & H & _); [lia|].
  apply H. split; [discriminate | reflexivity].
Defined.

(** * Properties of [UnmarshalText] *)

Section UnmarshalProperties.

Lemma Split_nonempty (s : string) (sep : ascii) : Split s sep <> [].
Proof.
  destruct s as [|c s]; cbn; [discriminate|].
  destruct (Ascii.eqb c sep); [discriminate|].
  destruct (Split s sep); discriminate.
Qed.

Lemma Split_piece (s t : string) (sep : ascii) :
  noSeparator sep s ->
  Split (s ++ String sep t) sep = s :: Split t sep.
Proof.
  induction s as [|c s IH]; intros Hs; cbn.
  - rewrite Ascii.eqb_refl. reflexivity.
  - assert (Hc : Ascii.eqb c sep = false).
    { apply Ascii.eqb_neq. apply Hs. left. reflexivity. }
    rewrite Hc, IH; [reflexivity|].
    intros x Hx. apply Hs. right. exact Hx.
Qed.

Lemma Split_whole (s : string) (sep : ascii) :
  noSeparator sep s -> Split s sep = [s].
Proof.
  induction s as [|c s IH]; intros Hs; cbn; [reflexivity|].
  assert (Hc : Ascii.eqb c sep = false).
  { apply Ascii.eqb_neq. apply Hs. left. reflexivity. }
  rewrite Hc, IH; [reflexivity|].
  intros x Hx. apply Hs. right. exact Hx.
Qed.

(** Splitting what was joined gives the pieces back, when there is a piece
    and no piece holds the separator. *)
Lemma Split_concat (l : list string) (sep : ascii) :
  l <> [] -> (forall s, In s l -> noSeparator sep s) ->
  Split (String.concat (String sep EmptyString) l) sep = l.
Proof.
  induction l as [|s l IH]; intros Hne Hl; [now elim Hne|].
  destruct l as [|s' l].
  - cbn. apply Split_whole. apply Hl. left. reflexivity.
  - change (String.concat (String sep "") (s :: s' :: l))
      with (s ++ String sep (String.concat (String sep "") (s' :: l)))%string.
    rewrite Split_piece by (apply Hl; left; reflexivity).
    rewrite IH; [reflexivity | discriminate|].
    intros x Hx. apply Hl. right. exact Hx.
Qed.

Lemma roleName_noSeparator (r : Role) : noSeparator ","%char (roleName r).
Proof.
  intros c Hin.
  destruct r; cbn in Hin;
    repeat (destruct Hin as [<-|Hin]; [discriminate|]); destruct Hin.
Qed.

(** The step of the loop on the name of a role. *)
Lemma unmarshalRoles_step (r : Role) (rest : list string) (m : RolesMask) :
  unmarshalRoles (roleName r :: rest) m =
  if negb (Z.land m (roleMask r) =? 0) then
    (m, Some (ErrQuoted ErrDuplicateRole (roleName r)))
  else unmarshalRoles rest (Z.lor m (roleMask r)).
Proof.
  destruct r; cbn [unmarshalRoles roleName roleMask];
    unfold checkDuplicateRole;
    match goal with
    | |- _ = (if negb (Z.land m ?R =? 0) then _ else _) =>
        destruct (Z.land m R =? 0)
    end; reflexivity.
Qed.

(** Adding the bit of a role keeps a mask below sixty-four, sets the bit of
    this role and leaves the bits of the others. *)
Lemma add_role_bits (m : RolesMask) (r r' : Role) :
  0 <= m < 64 ->
  0 <= Z.lor m (roleMask r) < 64 /\
  Z.lor m (roleMask r) <> 0 /\
  (Z.land (Z.lor m (roleMask r)) (roleMask r) =? 0) = false /\
  (r <> r' ->
   (Z.land (Z.lor m (roleMask r)) (roleMask r') =? 0)
   = (Z.land m (roleMask r') =? 0)).
Proof.
  intros Hm.
  assert (H1 : ((0 <=? Z.lor m (roleMask r)) && (Z.lor m (roleMask r) <? 64)
                && negb (Z.lor m (roleMask r) =? 0)
                && negb (Z.land (Z.lor m (roleMask r)) (roleMask r) =? 0))%bool
               = true).
  { apply (below_64_forall
             (fun m => (0 <=? Z.lor m (roleMask r))
                       && (Z.lor m (roleMask r) <? 64)
                       && negb (Z.lor m (roleMask r) =? 0)
                       && negb (Z.land (Z.lor m (roleMask r)) (roleMask r) =? 0)));
      [destruct r; vm_compute; reflexivity | exact Hm]. }
  apply andb_true_iff in H1. destruct H1 as [H1 H4].
  apply andb_true_iff in H1. destruct H1 as [H1 H3].
  apply andb_true_iff in H1. destruct H1 as [H1 H2].
  apply Z.leb_le in H1. apply Z.ltb_lt in H2.
  apply negb_true_iff in H3, H4. apply Z.eqb_neq in H3.
  split; [lia|]. split; [exact H3|]. split; [exact H4|].
  intros Hne. apply eqb_prop.
  apply (below_64_forall
           (fun m => Bool.eqb
                       (Z.land (Z.lor m (roleMask r)) (roleMask r') =? 0)
                       (Z.land m (roleMask r') =? 0)));
    [|exact Hm].
  destruct r, r'; try (now elim Hne); vm_compute; reflexivity.
Qed.

(** The loop on the names of roles none of which is in the mask yet and
    none of which repeats. *)
Lemma unmarshalRoles_distinct (l : list Role) (m : RolesMask) :
  0 <= m < 64 ->
  (forall r, In r l -> (Z.land m (roleMask r) =? 0) = true) ->
  NoDup l ->
  unmarshalRoles (map roleName l) m
  = (fold_left (fun m r => Z.lor m (roleMask r)) l m, None).
Proof.
  revert m. induction l as [|r l IH]; intros m Hm Hfree Hnd; [reflexivity|].
  cbn [map fold_left]. rewrite unmarshalRoles_step.
  rewrite (Hfree r (or_introl eq_refl)). cbn [negb].
  inversion Hnd as [|? ? Hnotin Hnd']; subst.
  apply IH; [apply (add_role_bits m r r Hm)| |exact Hnd'].
  intros r' Hin.
  destruct (add_role_bits m r r' Hm) as (_ & _ & _ & Hother).
  rewrite Hother; [apply Hfree; right; exact Hin|].
  intros ->. contradiction.
Qed.

(** The loop on names of roles one of which is in the mask already, or
    repeats. *)
Lemma unmarshalRoles_repeated (l : list Role) (m : RolesMask) :
  0 <= m < 64 ->
  (exists r, In r l /\ (Z.land m (roleMask r) =? 0) = false) \/ ~ NoDup l ->
  exists m' r,
    unmarshalRoles (map roleName l) m
    = (m', Some (ErrQuoted ErrDuplicateRole (roleName r))).
Proof.
  assert (Hdec : forall a b : Role, {a = b} + {a <> b}) by decide equality.
  revert m. induction l as [|r l IH]; intros m Hm Hbad.
  - destruct Hbad as [(r & [] & _)|Hnd]. elim Hnd. constructor.
  - cbn [map]. rewrite unmarshalRoles_step.
    destruct (Z.land m (roleMask r) =? 0) eqn:Hr; cbn [negb];
      [|now exists m, r].
    apply IH; [apply (add_role_bits m r r Hm)|].
    destruct Hbad as [(r' & [<-|Hin] & Hr')|Hnd].
    + rewrite Hr in Hr'. discriminate.
    + left. exists r'. split; [exact Hin|].
      destruct (Hdec r r') as [<-|Hne].
      * apply (add_role_bits m r r Hm).
      * destruct (add_role_bits m r r' Hm) as (_ & _ & _ & Hother).
        rewrite (Hother Hne). exact Hr'.
    + destruct (in_dec Hdec r l) as [Hin|Hnotin].
      * left. exists r. split; [exact Hin|]. apply (add_role_bits m r r Hm).
      * right. intros Hnd'. apply Hnd. now constructor.
Qed.

(** X3.  [UnmarshalText] takes the names of roles in any order: on the
    names of at least one role, joined by commas, it returns the union of
    the roles and no error when no name repeats, and the error of a
    duplicate role, on the name that repeats, when one does. *)
Theorem UnmarshalText_role_names (l : list Role) :
  l <> [] ->
  (NoDup l ->
   UnmarshalText (String.concat rolesMaskStringSep (map roleName l))
   = (unionOf l, None)) /\
  (~ NoDup l ->
   exists m r,
     UnmarshalText (String.concat rolesMaskStringSep (map roleName l))
     = (m, Some (ErrQuoted ErrDuplicateRole (roleName r)))).
Proof.
  intros Hne.
  assert (Hsplit : Split (String.concat rolesMaskStringSep (map roleName l))
                     ","%char = map roleName l).
  { apply Split_concat.
    - destruct l; [now elim Hne | discriminate].
    - intros s Hs. apply in_map_iff in Hs. destruct Hs as (r & <- & _).
      apply roleName_noSeparator. }
  unfold UnmarshalText. rewrite Hsplit. split.
  - intros Hnd. apply unmarshalRoles_distinct; [lia | | exact Hnd].
    intros r _. destruct r; reflexivity.
  - intros Hnd. apply unmarshalRoles_repeated; [lia|]. right. exact Hnd.
Qed.

(** The loop, when it returns no error: the mask stays below sixty-four,
    and is not empty once a name was read. *)
Lemma unmarshalRoles_valid (roles : list string) (m0 m : RolesMask) :
  0 <= m0 < 64 ->
  unmarshalRoles roles m0 = (m, None) ->
  0 <= m < 64 /\ (roles <> [] \/ m0 <> 0 -> m <> 0).
Proof.
  revert m0. induction roles as [|role rest IH]; intros m0 Hm0 Hrun.
  - cbn in Hrun. injection Hrun as <-. split; [exact Hm0|].
    intros [H|H]; [now elim H | exact H].
  - assert (Hadd : forall r,
              match checkDuplicateRole (roleMask r) m0 with
              | Some err => (m0, Some err)
              | None => unmarshalRoles rest (Z.lor m0 (roleMask r))
              end = (m, None) ->
              0 <= m < 64 /\ m <> 0).
    { intros r Hr. destruct (checkDuplicateRole (roleMask r) m0);
        [discriminate|].
      destruct (add_role_bits m0 r r Hm0) as (Hb & Hnz & _).
      destruct (IH _ Hb Hr) as [H1 H2]. split; [exact H1|].
      apply H2. right. exact Hnz. }
    cbn [unmarshalRoles] in Hrun.
    destruct (role =? RoleComputeWorkerName)%string;
      [destruct (Hadd Compute Hrun); split; [assumption | intros _; assumption]|].
    destruct (role =? RoleStorageWorkerName)%string;
      [destruct (Hadd Storage Hrun); split; [assumption | intros _; assumption]|].
    destruct (role =? RoleKeyManagerName)%string;
      [destruct (Hadd KeyManager Hrun); split; [assumption | intros _; assumption]|].
    destruct (role =? RoleValidatorName)%string;
      [destruct (Hadd Validator Hrun); split; [assumption | intros _; assumption]|].
    destruct (role =? RoleConsensusRPCName)%string;
      [destruct (Hadd ConsensusRPC Hrun); split; [assumption | intros _; assumption]|].
    destruct (role =? RoleStorageRPCName)%string;
      [destruct (Hadd StorageRPC Hrun); split; [assumption | intros _; assumption]|].
    discriminate.
Qed.

(** X4.  Whatever the text, a mask that [UnmarshalText] returns without an
    error is not empty, has no reserved bit, and is given back by
    [UnmarshalText] on its own text form. *)
Theorem UnmarshalText_valid (text : string) (m : RolesMask) :
  UnmarshalText text = (m, None) ->
  m <> 0 /\ 0 <= m < 2 ^ 32 /\ Z.land m RoleReserved = 0 /\
  UnmarshalText (RolesMask_String m) = (m, None).
Proof.
  intros Hrun. unfold UnmarshalText in Hrun.
  destruct (unmarshalRoles_valid _ 0 m ltac:(lia) Hrun) as [Hb Hnz].
  assert (Hm : m <> 0).
  { apply Hnz. left. apply Split_nonempty. }
  assert (H32 : 0 <= m < 2 ^ 32).
  { split; [lia|]. apply Z.lt_trans with 64; [lia | reflexivity]. }
  pose proof (below_64_unreserved m Hb) as Hres.
  split; [exact Hm|]. split; [exact H32|]. split; [exact Hres|].
  pose proof (below_64_forall
                (fun m => (m =? 0)
                          || match UnmarshalText (RolesMask_String m) with
                             | (m', None) => m' =? m
                             | (_, Some _) => false
                             end)) as Hall.
  specialize (Hall ltac:(vm_compute; reflexivity) m Hb). cbv beta in Hall.
  apply Z.eqb_neq in Hm. rewrite Hm in Hall. cbn [orb] in Hall.
  destruct (UnmarshalText (RolesMask_String m)) as [m' [e|]]; [discriminate|].
  apply Z.eqb_eq in Hall. now subst m'.
Qed.

End UnmarshalProperties.

Lemma UnmarshalText_role_names_witness :
  UnmarshalText "storage-rpc,compute" = (33, None).
Proof.
  destruct (UnmarshalText_role_names [StorageRPC; Compute]) as [H _];
    [discriminate|].
  apply H. constructor; [|constructor; [|constructor]].
  - intros [H0|[]]. discriminate.
  - intros [].
Defined.

Lemma UnmarshalText_valid_witness :
  UnmarshalText (RolesMask_String 10) = (10, None).
Proof.
  destruct (UnmarshalText_valid "validator,storage" 10 eq_refl)
    as (_ & _ & _ & H).
  exact H.
Defined.

(** * Properties of descriptors *)

Section DescriptorProperties.

Context {Namespace : Type} {NE : Equaler Namespace}.

Implicit Types (n : Node (Namespace := Namespace)).
Implicit Types (rts : list (Runtime (Namespace := Namespace))).

Lemma lor_eqb_0 (a b : Z) : (Z.lor a b =? 0) = (a =? 0) && (b =? 0).
Proof.
  destruct (a =? 0) eqn:Ha, (b =? 0) eqn:Hb; cbn;
    rewrite ?Z.eqb_eq, ?Z.eqb_neq in *;
    rewrite Z.lor_eq_0_iff; tauto.
Qed.

(** X5.  [HasRoles] asks for one of the roles, not for all of them: it
    holds of a union exactly when it holds of one of its parts, and never
    of the empty mask.  After [AddRoles] the node has the roles it had and
    those that were added; adding twice is adding once.  A node that only
    has some roles, not none, has them. *)
Theorem HasRoles_any_of n (r r1 r2 : RolesMask) :
  HasRoles n (Z.lor r1 r2) = HasRoles n r1 || HasRoles n r2 /\
  HasRoles n 0 = false /\
  HasRoles (AddRoles n r) r1 = HasRoles n r1 || negb (Z.land r r1 =? 0) /\
  (r <> 0 -> HasRoles (AddRoles n r) r = true) /\
  AddRoles (AddRoles n r) r = AddRoles n r /\
  (OnlyHasRoles n r = true -> r <> 0 -> HasRoles n r = true).
Proof.
  unfold HasRoles, AddRoles, OnlyHasRoles. cbn [n_Roles].
  split; [|split; [|split; [|split; [|split]]]].
  - rewrite Z.land_lor_distr_r, lor_eqb_0. apply negb_andb.
  - rewrite Z.land_0_r. reflexivity.
  - rewrite Z.land_lor_distr_l, lor_eqb_0. apply negb_andb.
  - intros Hr. rewrite Z.land_lor_distr_l, lor_eqb_0, Z.land_diag.
    apply Z.eqb_neq in Hr. rewrite Hr, andb_false_r. reflexivity.
  - f_equal. rewrite <- Z.lor_assoc, Z.lor_diag. reflexivity.
  - intros Heq Hr. apply Z.eqb_eq in Heq. rewrite Heq, Z.land_diag.
    apply Z.eqb_neq in Hr. rewrite Hr. reflexivity.
Qed.

(** X6.  The versions that [ValidateBasic] accepts are the same with and
    without [strictVersion]: the single version 1, the range of the allowed
    versions having this one version only. *)
Theorem ValidateBasic_accepts n (strictVersion : bool) :
  ValidateBasic n strictVersion = None <-> n_V n = 1.
Proof.
  unfold ValidateBasic, LatestNodeDescriptorVersion,
    minNodeDescriptorVersion, maxNodeDescriptorVersion,
    LatestNodeDescriptorVersion.
  destruct strictVersion.
  - destruct (n_V n =? 1) eqn:H; cbn;
      rewrite ?Z.eqb_eq, ?Z.eqb_neq in H; split; intros H'; try reflexivity;
      try discriminate; try assumption; contradiction.
  - destruct (n_V n <? 1) eqn:H1, (1 <? n_V n) eqn:H2; cbn;
      rewrite ?Z.ltb_lt, ?Z.ltb_ge in *; split; intros H';
      try reflexivity; try discriminate; lia.
Qed.

Lemma findRuntime_spec rts (id : Namespace) (i0 : nat) :
  match findRuntime rts id i0 with
  | Some i =>
      exists k rt,
        i = (i0 + k)%nat /\ nth_error rts k = Some rt /\
        Equal (rt_ID rt) id = true /\
        forall j rt', (j < k)%nat -> nth_error rts j = Some rt' ->
                      Equal (rt_ID rt') id = false
  | None => forall rt, In rt rts -> Equal (rt_ID rt) id = false
  end.
Proof.
  revert i0. induction rts as [|rt rest IH]; intros i0; cbn [findRuntime].
  - intros rt [].
  - destruct (Equal (rt_ID rt) id) eqn:Heq; cbn [negb].
    + exists O, rt. split; [lia|]. split; [reflexivity|]. split; [exact Heq|].
      intros j rt' Hj. lia.
    + specialize (IH (S i0)). destruct (findRuntime rest id (S i0)) as [i|].
      * destruct IH as (k & rt1 & Hi & Hnth & Hid & Hfirst).
        exists (S k), rt1. split; [lia|]. split; [exact Hnth|].
        split; [exact Hid|].
        intros [|j] rt' Hj Hrt'; cbn in Hrt'.
        -- injection Hrt' as <-. exact Heq.
        -- apply (Hfirst j rt'); [lia | exact Hrt'].
      * intros rt' [<-|Hin]; [exact Heq | now apply IH].
Qed.

Lemma findRuntime_app rts rts' (id : Namespace) (i0 : nat) :
  findRuntime (rts ++ rts') id i0 =
  match findRuntime rts id i0 with
  | Some i => Some i
  | None => findRuntime rts' id (i0 + List.length rts)
  end.
Proof.
  revert i0. induction rts as [|rt rest IH]; intros i0; cbn.
  - rewrite Nat.add_0_r. reflexivity.
  - destruct (Equal (rt_ID rt) id); cbn; [reflexivity|].
    rewrite IH. replace (S i0 + List.length rest)%nat
      with (i0 + S (List.length rest))%nat by lia. reflexivity.
Qed.

(** X7.  [GetRuntime] returns the first descriptor of the list whose
    identifier equals the one asked for, and [nil] exactly when no
    descriptor of the list does. *)
Theorem GetRuntime_first_match n (id : Namespace) :
  (forall i, GetRuntime n id = Some i ->
     exists rt,
       nth_error (n_Runtimes n) i = Some rt /\
       Equal (rt_ID rt) id = true /\
       forall j rt', (j < i)%nat -> nth_error (n_Runtimes n) j = Some rt' ->
                     Equal (rt_ID rt') id = false) /\
  (GetRuntime n id = None <->
   forall rt, In rt (n_Runtimes n) -> Equal (rt_ID rt) id = false).
Proof.
  unfold GetRuntime. pose proof (findRuntime_spec (n_Runtimes n) id O) as H.
  destruct (findRuntime (n_Runtimes n) id O) as [i|].
  - destruct H as (k & rt & Hi & Hnth & Hid & Hfirst). cbn in Hi. subst k.
    split.
    + intros i' Hi'. injection Hi' as <-. exists rt. repeat split; assumption.
    + split; [discriminate|]. intros Hall.
      apply nth_error_In in Hnth. rewrite (Hall rt Hnth) in Hid. discriminate.
  - split; [discriminate|]. split; [intros _; exact H | reflexivity].
Qed.

(** X8.  [AddOrUpdateRuntime], for an identifier that equals itself,
    returns a descriptor of this identifier that [GetRuntime] finds
    afterwards; it adds at most one descriptor, at the end, and none when
    called again; the descriptors that [GetRuntime] found before it are
    found at the same place after it. *)
Theorem AddOrUpdateRuntime_then_get n (id : Namespace) :
  Equal id id = true ->
  let r := AddOrUpdateRuntime n id in
  GetRuntime (snd r) id = Some (fst r) /\
  (exists rt, nth_error (n_Runtimes (snd r)) (fst r) = Some rt /\
              Equal (rt_ID rt) id = true) /\
  AddOrUpdateRuntime (snd r) id = r /\
  (exists extra, n_Runtimes (snd r) = n_Runtimes n ++ extra /\
                 (List.length extra <= 1)%nat) /\
  (forall id' j, GetRuntime n id' = Some j -> GetRuntime (snd r) id' = Some j).
Proof.
  intros Hrefl r. subst r. unfold AddOrUpdateRuntime.
  destruct (GetRuntime n id) as [i|] eqn:Hget; cbn [fst snd].
  - assert (Hfound : exists rt, nth_error (n_Runtimes n) i = Some rt /\
                                  Equal (rt_ID rt) id = true).
    { pose proof (findRuntime_spec (n_Runtimes n) id O) as H.
      unfold GetRuntime in Hget. rewrite Hget in H.
      destruct H as (k & rt & Hi & Hnth & Hid & _). cbn in Hi. subst k.
      exists rt. split; assumption. }
    split; [exact Hget|]. split; [exact Hfound|].
    split; [rewrite Hget; reflexivity|].
    split; [exists []; rewrite app_nil_r; split; [reflexivity | cbn; lia]|].
    intros id' j H. exact H.
  - assert (Hnew : GetRuntime
                     {| n_V := n_V n; n_Expiration := n_Expiration n;
                        n_Roles := n_Roles n;
                        n_Runtimes := n_Runtimes n ++
                          [{| rt_ID := id; rt_Version := (0, 0, 0);
                              rt_TEE := None; rt_ExtraInfo := [] |}] |} id
                   = Some (List.length (n_Runtimes n))).
    { unfold GetRuntime in *. cbn [n_Runtimes].
      rewrite findRuntime_app, Hget. cbn. rewrite Hrefl. reflexivity. }
    split; [exact Hnew|]. split.
    { exists {| rt_ID := id; rt_Version := (0, 0, 0); rt_TEE := None;
                rt_ExtraInfo := [] |}.
      split; [|exact Hrefl].
      cbn [n_Runtimes]. rewrite nth_error_app2, Nat.sub_diag by lia.
      reflexivity. }
    split; [rewrite Hnew; reflexivity|].
    split; [eexists; split; [reflexivity | cbn; lia]|].
    intros id' j H. unfold GetRuntime in *. cbn [n_Runtimes].
    rewrite findRuntime_app, H. reflexivity.
Qed.

End DescriptorProperties.

Lemma AddOrUpdateRuntime_then_get_witness :
  let n := {| n_V := 1; n_Expiration := 10; n_Roles := RoleComputeWorker;
              n_Runtimes := [] |} in
  GetRuntime (snd (AddOrUpdateRuntime n "runtime-a")) "runtime-a" = Some O.
Proof.
  intros n.
  destruct (AddOrUpdateRuntime_then_get n "runtime-a") as [H _];
    [reflexivity|].
  exact H.
Defined.

Section TLSProperties.

Context {PublicKey : Type} {PE : Equaler PublicKey}.
Context {TLSAddress : Type} {AE : Equaler TLSAddress}.

Lemma addressesEqual_spec (seen mine rest : list TLSAddress) :
  List.length mine = List.length rest ->
  exists b,
    addressesEqual mine (seen ++ rest) (List.length seen) = Some b /\
    (b = true <-> Forall2 (fun a o => Equal a o = true) mine rest).
Proof.
  revert seen rest. induction mine as [|ca mine IH]; intros seen rest Hlen.
  - destruct rest; [|discriminate]. exists true. split; [reflexivity|].
    split; [constructor | reflexivity].
  - destruct rest as [|oa rest]; [discriminate|]. cbn in Hlen.
    injection Hlen as Hlen. cbn [addressesEqual].
    rewrite nth_error_app2, Nat.sub_diag by lia. cbn [nth_error].
    destruct (Equal ca oa) eqn:Heq; cbn [negb].
    + destruct (IH (seen ++ [oa]) rest Hlen) as (b & Hb & Hiff).
      rewrite <- app_assoc, length_app in Hb. cbn in Hb.
      rewrite Nat.add_1_r in Hb. exists b. split; [exact Hb|].
      rewrite Hiff. split.
      * intros H. constructor; assumption.
      * intros H. inversion H; subst. assumption.
    + exists false. split; [reflexivity|]. split; [discriminate|].
      intros H. inversion H; subst. congruence.
Qed.

(** X9.  [Equal] on TLS information never reads an address out of range,
    and holds exactly when the two keys, the two next keys and the
    addresses, one by one and in equal number, are equal. *)
Theorem TLSInfo_Equal_componentwise
    (t other : TLSInfo (PublicKey := PublicKey) (TLSAddress := TLSAddress)) :
  exists b,
    TLSInfo_Equal t other = Some b /\
    (b = true <->
     Equal (PubKey t) (PubKey other) = true /\
     Equal (NextPubKey t) (NextPubKey other) = true /\
     Forall2 (fun a o => Equal a o = true) (Addresses t) (Addresses other)).
Proof.
  unfold TLSInfo_Equal.
  destruct (Equal (PubKey t) (PubKey other)); cbn [negb];
    [|exists false; split; [reflexivity|];
      split; [discriminate | intros (H & _); discriminate]].
  destruct (Equal (NextPubKey t) (NextPubKey other)); cbn [negb];
    [|exists false; split; [reflexivity|];
      split; [discriminate | intros (_ & H & _); discriminate]].
  destruct (Nat.eqb (List.length (Addresses t)) (List.length (Addresses other)))
    eqn:Hlen; cbn [negb].
  - apply Nat.eqb_eq in Hlen.
    destruct (addressesEqual_spec [] (Addresses t) (Addresses other) Hlen)
      as (b & Hb & Hiff).
    exists b. split; [exact Hb|]. rewrite Hiff. tauto.
  - exists false. split; [reflexivity|]. split; [discriminate|].
    intros (_ & _ & H). apply Forall2_length in H.
    apply Nat.eqb_neq in Hlen. contradiction.
Qed.

End TLSProperties.

(** X10.  The name of a hardware goes back to it exactly for the hardware
    below [TEEHardwareReserved]: for every other byte the name is refused
    and the receiver keeps its value.  Whatever the string, a hardware that
    [FromString] returns without an error is below
    [TEEHardwareReserved]. *)
Theorem TEEHardware_name_round_trip (unicodeLower : string -> string)
    (h h0 : TEEHardware) (str : string) :
  0 <= h < 256 ->
  (h < TEEHardwareReserved ->
   TEEHardware_FromString unicodeLower h0 (TEEHardware_String h) = (h, None)) /\
  (TEEHardwareReserved <= h ->
   TEEHardware_FromString unicodeLower h0 (TEEHardware_String h)
   = (h0, Some ErrInvalidTEEHardware)) /\
  (forall h', TEEHardware_FromString unicodeLower h0 str = (h', None) ->
              0 <= h' < TEEHardwareReserved).
Proof.
  intros Hh. unfold TEEHardwareReserved, TEEHardwareIntelSGX.
  split; [|split].
  - intros Hlt. assert (Hc : h = 0 \/ h = 1) by lia.
    destruct Hc as [-> | ->]; reflexivity.
  - intros Hge. unfold TEEHardware_String, TEEHardwareInvalid,
      TEEHardwareIntelSGX.
    replace (h =? 0) with false by (symmetry; apply Z.eqb_neq; lia).
    replace (h =? 1) with false by (symmetry; apply Z.eqb_neq; lia).
    reflexivity.
  - intros h'. unfold TEEHardware_FromString, TEEHardwareInvalid,
      TEEHardwareIntelSGX.
    destruct (_ || _); [intros H; injection H as <-; lia|].
    destruct (_ =? _)%string; [intros H; injection H as <-; lia|].
    discriminate.
Qed.

Lemma TEEHardware_name_round_trip_witness :
  TEEHardware_FromString (fun s => s) 0 (TEEHardware_String 1) = (1, None).
Proof.
  destruct (TEEHardware_name_round_trip (fun s => s) 1 0 "") as [H _]; [lia|].
  apply H. reflexivity.
Defined.

(** * Properties of the TEE capability *)

Lemma bytesEqual_eq (a b : bytes) : bytesEqual a b = true <-> a = b.
Proof.
  revert b. induction a as [|x a IH]; intros [|y b]; cbn;
    try (split; [discriminate | discriminate]); [tauto|].
  rewrite andb_true_iff, IH. split.
  - intros [Hxy ->]. apply Byte.byte_dec_bl in Hxy. now subst.
  - intros H. injection H as -> ->. split; [|reflexivity].
    now apply Byte.byte_dec_lb.
Qed.

Section TEEProperties.

Context {AVRBundle AVR : Type} {AT : Attester AVRBundle AVR}.

Lemma statusListed_In (allowed : list Z) (status : Z) :
  statusListed allowed status = true <-> In status allowed.
Proof.
  induction allowed as [|v rest IH]; cbn; [split; [discriminate | tauto]|].
  destruct (v =? status) eqn:Hv.
  - apply Z.eqb_eq in Hv. split; [intros _; now left | reflexivity].
  - apply Z.eqb_neq in Hv. rewrite IH. split; [now right|].
    intros [H|H]; [contradiction | exact H].
Qed.

Lemma quoteStatusAllowed_iff (cs : SGXConstraints) (avr : AVR) :
  quoteStatusAllowed cs avr = true <->
  ISVEnclaveQuoteStatus avr = QuoteOK \/
  In (ISVEnclaveQuoteStatus avr) (AllowedQuoteStatuses cs).
Proof.
  unfold quoteStatusAllowed.
  destruct (ISVEnclaveQuoteStatus avr =? QuoteOK) eqn:Hok.
  - apply Z.eqb_eq in Hok. split; [now left | reflexivity].
  - apply Z.eqb_neq in Hok. rewrite statusListed_In.
    split; [now right|]. intros [H|H]; [contradiction | exact H].
Qed.

Lemma enclaveListed_iff (enclaves : list EnclaveIdentity) (q : Quote) :
  enclaveListed enclaves q = true <->
  exists eid, In eid enclaves /\
              MrEnclave eid = MRENCLAVE q /\ MrSigner eid = MRSIGNER q.
Proof.
  induction enclaves as [|eid rest IH]; cbn.
  - split; [discriminate | intros (e & [] & _)].
  - destruct (bytesEqual (MrEnclave eid) (MRENCLAVE q)
              && bytesEqual (MrSigner eid) (MRSIGNER q)) eqn:Hm.
    + apply andb_true_iff in Hm. rewrite !bytesEqual_eq in Hm.
      split; [intros _; exists eid; tauto | reflexivity].
    + rewrite IH. split.
      * intros (e & Hin & He). exists e. tauto.
      * intros (e & [<-|Hin] & He1 & He2).
        -- rewrite <- !bytesEqual_eq in He1, He2.
           rewrite He1, He2 in Hm. discriminate.
        -- exists e. tauto.
Qed.

(** X11.  [Verify] accepts a capability exactly when its hardware is Intel
    SGX, its attestation decodes into a bundle that opens at the time given
    and holds a quote, the constraints decode and list an enclave identity
    with the MRENCLAVE and the MRSIGNER of the quote, the first thirty-two
    bytes of the report data are the hash bound to the RAK of the
    capability, and the quote status is OK or listed in the constraints.
    For every other hardware the error is that of an invalid TEE
    hardware, whatever the attestation. *)
Theorem Verify_accepts (c : CapabilityTEE) (ts : Time) (constraints : bytes) :
  (Verify c ts constraints = None <->
   Hardware c = TEEHardwareIntelSGX /\
   exists avrBundle avr q cs,
     unmarshalBundle (Attestation c) = inr avrBundle /\
     openBundle avrBundle ts = inr avr /\
     quoteOf avr = inr q /\
     unmarshalConstraints constraints = inr cs /\
     (exists eid, In eid (Enclaves cs) /\
                  MrEnclave eid = MRENCLAVE q /\ MrSigner eid = MRSIGNER q) /\
     RAKHash (RAK c) = firstn hashSize (ReportData q) /\
     (ISVEnclaveQuoteStatus avr = QuoteOK \/
      In (ISVEnclaveQuoteStatus avr) (AllowedQuoteStatuses cs))) /\
  (Hardware c <> TEEHardwareIntelSGX ->
   Verify c ts constraints = Some ErrInvalidTEEHardware).
Proof.
  unfold Verify. split.
  - destruct (Hardware c =? TEEHardwareIntelSGX) eqn:Hhw.
    2:{ apply Z.eqb_neq in Hhw. split; [discriminate | intros [H _]; contradiction]. }
    apply Z.eqb_eq in Hhw.
    destruct (unmarshalBundle (Attestation c)) as [e|avrBundle] eqn:Hb.
    { split; [discriminate|].
      intros (_ & b & a & q & cs & H & _). discriminate. }
    destruct (openBundle avrBundle ts) as [e|avr] eqn:Ho.
    { split; [discriminate|].
      intros (_ & b & a & q & cs & H1 & H2 & _).
      injection H1 as <-. rewrite Ho in H2. discriminate. }
    destruct (quoteOf avr) as [e|q] eqn:Hq.
    { split; [discriminate|].
      intros (_ & b & a & q & cs & H1 & H2 & H3 & _).
      injection H1 as <-. rewrite Ho in H2. injection H2 as <-.
      rewrite Hq in H3. discriminate. }
    destruct (unmarshalConstraints constraints) as [e|cs] eqn:Hc.
    { split; [discriminate|].
      intros (_ & b & a & q' & cs & _ & _ & _ & H & _). discriminate. }
    destruct (enclaveListed (Enclaves cs) q) eqn:He; cbn [negb].
    2:{ split; [discriminate|].
        intros (_ & b & a & q' & cs' & H1 & H2 & H3 & H4 & H5 & _).
        injection H1 as <-. rewrite Ho in H2. injection H2 as <-.
        rewrite Hq in H3. injection H3 as <-. injection H4 as <-.
        apply enclaveListed_iff in H5. rewrite H5 in He. discriminate. }
    destruct (bytesEqual (RAKHash (RAK c)) (firstn hashSize (ReportData q)))
      eqn:Hr; cbn [negb].
    2:{ split; [discriminate|].
        intros (_ & b & a & q' & cs' & H1 & H2 & H3 & _ & _ & H6 & _).
        injection H1 as <-. rewrite Ho in H2. injection H2 as <-.
        rewrite Hq in H3. injection H3 as <-.
        apply bytesEqual_eq in H6. rewrite H6 in Hr. discriminate. }
    destruct (quoteStatusAllowed cs avr) eqn:Hs; cbn [negb].
    2:{ split; [discriminate|].
        intros (_ & b & a & q' & cs' & H1 & H2 & _ & H4 & _ & _ & H7).
        injection H1 as <-. rewrite Ho in H2. injection H2 as <-.
        injection H4 as <-.
        apply quoteStatusAllowed_iff in H7. rewrite H7 in Hs. discriminate. }
    split; [intros _ | reflexivity].
    split; [exact Hhw|]. exists avrBundle, avr, q, cs.
    repeat split; try assumption.
    + now apply enclaveListed_iff.
    + now apply bytesEqual_eq.
    + now apply quoteStatusAllowed_iff.
  - intros Hhw. apply Z.eqb_neq in Hhw. rewrite Hhw. reflexivity.
Qed.

End TEEProperties.

(** * Properties of the dispatch of transactions *)

Section TxHandlerProperties.

Context {St : Type}.

Implicit Types (hooks : list (Hook (St := St))).

(** X12.  [HandleMessage] passes the transaction to the hooks in their
    order and stops at the first one that fails: on two lists of hooks put
    end to end it returns the error of the first list, without coming to
    the second, and otherwise what the second list returns from the state
    that the first one left.  It returns no error exactly when, in this
    order, every hook returns none. *)
Theorem HandleMessage_first_error hooks hooks' (tx : bytes) (s : St) :
  HandleMessage (hooks ++ hooks') tx s =
    match HandleMessage hooks tx s with
    | (Some e, s') => (Some e, s')
    | (None, s') => HandleMessage hooks' tx s'
    end /\
  (fst (HandleMessage hooks tx s) = None <->
   forall pre h post, hooks = pre ++ h :: post ->
     exists s', HandleMessage pre tx s = (None, s') /\ fst (h tx s') = None).
Proof.
  assert (Happ : forall (l l' : list (Hook (St := St))) (s0 : St),
            HandleMessage (l ++ l') tx s0 =
            match HandleMessage l tx s0 with
            | (Some e, s') => (Some e, s')
            | (None, s') => HandleMessage l' tx s'
            end).
  { induction l as [|h l IH]; intros l' s0; cbn; [reflexivity|].
    destruct (h tx s0) as [[e|] s1]; [reflexivity | apply IH]. }
  split; [apply Happ|].
  split.
  - intros Hok pre h post ->. rewrite Happ in Hok.
    destruct (HandleMessage pre tx s) as [[e|] s1]; [discriminate|].
    exists s1. split; [reflexivity|]. cbn in Hok.
    destruct (h tx s1) as [[e|] s2]; [discriminate | reflexivity].
  - revert s. induction hooks as [|h l IH] using rev_ind; intros s Hall;
      [reflexivity|].
    rewrite Happ.
    destruct (Hall l h [] eq_refl) as (s1 & Hpre & Hh).
    rewrite Hpre. cbn. destruct (h tx s1) as [[e|] s2]; [discriminate|].
    reflexivity.
Qed.

End TxHandlerProperties.

(** * What every call keeps *)

Section WellBehavedProperties.

Context {M : Type} {PM : PeerManager M}.
Context {V : Type} {CD : Codec V}.

Implicit Types (c : client) (ctx : Context) (request : Request).
Implicit Types (w : World (M := M)) (rsp : Container (V := V)).
Implicit Types (r : CallRet (M := M) (V := V)).

Lemma failuresOf_app (l1 l2 : list Event) :
  failuresOf (l1 ++ l2) = failuresOf l1 ++ failuresOf l2.
Proof.
  induction l1 as [|e l1 IH]; [reflexivity|].
  destruct e; cbn; rewrite IH; reflexivity.
Qed.

Lemma streamScan_app (open : option PeerID) (l1 l2 : list Event) :
  streamScan open (l1 ++ l2) =
  match streamScan open l1 with
  | Some open' => streamScan open' l2
  | None => None
  end.
Proof.
  revert open. induction l1 as [|e l1 IH]; intros open; cbn; [reflexivity|].
  destruct (streamStep open e); [apply IH | reflexivity].
Qed.

Lemma recordAll_app (f1 f2 : list (PeerID * Duration)) (m : M) :
  recordAll (f1 ++ f2) m = recordAll f2 (recordAll f1 m).
Proof. apply fold_left_app. Qed.

Lemma neutral_nil : neutral [].
Proof. repeat split. Qed.

Lemma neutral_app (l1 l2 : list Event) :
  neutral l1 -> neutral l2 -> neutral (l1 ++ l2).
Proof.
  intros (F1 & U1 & S1) (F2 & U2 & S2). split; [|split].
  - now rewrite failuresOf_app, F1, F2.
  - now rewrite filter_app, U1, U2.
  - intros open. now rewrite streamScan_app, S1, S2.
Qed.

(** A result that changes neither the container nor the manager, and logs
    neutral events only. *)
Lemma wellBehaved_idle rsp w r :
  r_rsp r = rsp -> mgr (r_world r) = mgr w -> now w <= now (r_world r) ->
  neutral (r_log r) -> wellBehaved rsp w r.
Proof.
  intros Hrsp Hmgr Hnow (F & U & S). unfold wellBehaved.
  rewrite F, S, Hrsp, Hmgr, U. repeat split; tauto.
Qed.

(** Two steps in a row, with neutral events around them. *)
Lemma wellBehaved_seq rsp w r1 w' r2 r (l0 l1 : list Event) :
  wellBehaved rsp w r1 ->
  mgr w' = mgr (r_world r1) -> now (r_world r1) <= now w' ->
  wellBehaved (r_rsp r1) w' r2 ->
  neutral l0 -> neutral l1 ->
  r_world r = r_world r2 -> r_rsp r = r_rsp r2 ->
  r_log r = l0 ++ r_log r1 ++ l1 ++ r_log r2 ->
  wellBehaved rsp w r.
Proof.
  intros (M1 & S1 & R1 & U1 & T1) Hmgr Hnow (M2 & S2 & R2 & U2 & T2)
    (F0 & U0 & S0) (Fl & Ul & Sl) Hw Hr Hl.
  unfold wellBehaved. rewrite Hw, Hr, Hl.
  rewrite !failuresOf_app, F0, Fl.
  rewrite streamScan_app, S0, streamScan_app, S1, streamScan_app, Sl, S2.
  rewrite !filter_app, U0, Ul. cbn [app].
  split; [|split; [reflexivity|split; [|split]]].
  - rewrite recordAll_app, <- M1, <- Hmgr. exact M2.
  - rewrite R2. exact R1.
  - intros Hnil. rewrite (U1 Hnil), U2; [reflexivity|]. now apply R1.
  - lia.
Qed.

Lemma wellBehaved_with_log rsp w r (l0 : list Event) :
  neutral l0 -> wellBehaved rsp w r -> wellBehaved rsp w (with_log l0 r).
Proof.
  intros (F0 & U0 & S0) (M1 & S1 & R1 & U1 & T1).
  unfold wellBehaved, with_log. cbn [r_world r_log r_rsp].
  rewrite failuresOf_app, F0, streamScan_app, S0, filter_app, U0. cbn [app].
  repeat split; try tauto; assumption.
Qed.

(** A step followed by neutral events, while the clock goes on. *)
Lemma wellBehaved_then rsp w r1 r (l1 : list Event) :
  wellBehaved rsp w r1 ->
  mgr (r_world r) = mgr (r_world r1) -> now (r_world r1) <= now (r_world r) ->
  r_rsp r = r_rsp r1 -> r_log r = r_log r1 ++ l1 -> neutral l1 ->
  wellBehaved rsp w r.
Proof.
  intros (M1 & S1 & R1 & U1 & T1) Hmgr Hnow Hrsp Hlog (Fl & Ul & Sl).
  unfold wellBehaved. rewrite Hmgr, Hrsp, Hlog.
  rewrite failuresOf_app, Fl, app_nil_r, streamScan_app, S1, Sl, filter_app, Ul.
  repeat split; try tauto; try assumption; try lia.
  intros Hnil. rewrite (U1 Hnil). reflexivity.
Qed.

Lemma send_wellBehaved c ctx p request rsp T w :
  let r := sendRequestAndDecodeResponse c ctx p request rsp T w in
  failuresOf (s_log r) = [] /\
  streamScan None (s_log r) = Some None /\
  (s_rsp r = None <-> rsp = None) /\
  (rsp = None -> filter isUnmarshal (s_log r) = []).
Proof.
  cbn zeta. unfold sendRequestAndDecodeResponse, exchange.
  set (s := host c ctx (now w) p (protocolID c) request).
  destruct (open_err s);
    [|destruct (write_err s);
      [|destruct (read_res s) as [|rawRsp];
        [|destruct (Error rawRsp);
          [|destruct rsp as [v|];
            [destruct (Unmarshal (Ok rawRsp) v) as [ue v'] |]]]]];
    cbn; rewrite ?String.eqb_refl; cbn;
    repeat split; try tauto; try discriminate.
Qed.

Lemma call_wellBehaved c ctx p request rsp T w :
  wellBehaved rsp w (call c ctx p request rsp T w).
Proof.
  unfold call. destruct (ctx_done ctx (now w)).
  - apply wellBehaved_idle; [reflexivity | reflexivity | cbn; lia | apply neutral_nil].
  - cbn zeta.
    destruct (send_wellBehaved c ctx p request rsp T w) as (F & S & R & U).
    destruct (send_world c ctx p request rsp T w) as (Hmgr & Hnow & _).
    cbn zeta in *.
    destruct (s_err (sendRequestAndDecodeResponse c ctx p request rsp T w));
      unfold wellBehaved; cbn [r_world r_log r_rsp mgr now].
    + rewrite failuresOf_app, F, streamScan_app, S, filter_app. cbn.
      rewrite Hmgr. repeat split; try tauto.
      intros Hnil. rewrite (U Hnil). reflexivity.
    + rewrite F, S, Hmgr. cbn. repeat split; tauto.
Qed.

Lemma tryPeersLoop_wellBehaved c ctx request T peers pf rsp w :
  wellBehaved rsp w (tryPeersLoop c ctx request T peers pf rsp w).
Proof.
  revert pf rsp w. induction peers as [|peer rest IH]; intros pf rsp w;
    cbn [tryPeersLoop].
  - apply wellBehaved_idle; [reflexivity | reflexivity | cbn; lia|].
    repeat split.
  - destruct (isPeerAcceptable c peer); cbn [negb]; [|apply IH].
    pose proof (call_wellBehaved c ctx peer request rsp T w) as Hcall.
    set (r0 := call c ctx peer request rsp T w) in *.
    destruct (r_err r0).
    + apply (wellBehaved_seq rsp w r0 (r_world r0)
               (tryPeersLoop c ctx request T rest (r_pf r0) (r_rsp r0)
                  (r_world r0)) _ [EvTryingPeer peer (now w)] []);
        try reflexivity; try assumption; try apply IH; try lia;
        repeat split.
    + apply wellBehaved_with_log; [repeat split | exact Hcall].
Qed.

Lemma tryPeers_wellBehaved c ctx request T pf rsp w :
  wellBehaved rsp w (tryPeers c ctx request T pf rsp w).
Proof.
  unfold tryPeers. apply wellBehaved_with_log; [repeat split|].
  apply tryPeersLoop_wellBehaved.
Qed.

Lemma Retry_wellBehaved n (interval : Duration) ctx
    (operation : option PeerFeedback -> Container (V := V) -> World (M := M)
                 -> CallRet (M := M) (V := V)) pf rsp w :
  (forall pf rsp w, wellBehaved rsp w (operation pf rsp w)) ->
  wellBehaved rsp w (Retry n interval ctx operation pf rsp w).
Proof.
  intros Hop. revert pf rsp w. induction n as [|n IH]; intros pf rsp w;
    rewrite Retry_eq; cbn zeta; pose proof (Hop pf rsp w) as H0;
    destruct (r_err (operation pf rsp w)); try exact H0.
  destruct (_ =? Stop); [exact H0|].
  destruct (match doneAt ctx with Some _ => _ | None => _ end).
  - eapply (wellBehaved_then rsp w (operation pf rsp w));
      [exact H0 | reflexivity | | reflexivity | reflexivity | repeat split].
    cbn. destruct (doneAt ctx); lia.
  - eapply (wellBehaved_seq rsp w (operation pf rsp w) _ _ _ [] [_]);
      [exact H0 | | | apply IH | apply neutral_nil |
      | reflexivity | reflexivity | cbn; rewrite <- app_assoc; reflexivity].
    + reflexivity.
    + cbn. lia.
    + repeat split.
Qed.

Lemma Call_wellBehaved c ctx method (body : V) rsp T opts w :
  wellBehaved rsp w (Call c ctx method body rsp T opts w).
Proof.
  unfold Call. apply wellBehaved_with_log; [repeat split|].
  destruct (0 <? _)%N.
  - apply Retry_wellBehaved. intros pf' rsp' w'. apply tryPeers_wellBehaved.
  - apply tryPeers_wellBehaved.
Qed.

(** X14.  In a [Call], and in every task of a [CallMulti], streams are
    opened one at a time, read and written only while open, closed before
    the next one is opened, and none is left open at the end. *)
Theorem Call_stream_discipline c ctx sel rd method (body rspTyp : V) rsp T opts
    k w :
  streamScan None (r_log (Call c ctx method body rsp T opts w)) = Some None /\
  forall run,
    In run (runsOf (m_runs (CallMulti c ctx sel rd method body rspTyp T k w))) ->
    streamScan None (r_log (t_result run)) = Some None.
Proof.
  split; [apply Call_wellBehaved|].
  intros run Hin.
  destruct (CallMulti_runs c ctx sel rd method body rspTyp T k w run Hin)
    as [Hrun _].
  rewrite Hrun. apply call_wellBehaved.
Qed.

(** X15.  [Call] never changes whether there is a container: with a [nil]
    container it returns a [nil] one and decodes no payload; with a
    container it returns a container. *)
Theorem Call_nil_container c ctx method (body : V) rsp T opts w :
  let r := Call c ctx method body rsp T opts w in
  (r_rsp r = None <-> rsp = None) /\
  (rsp = None -> filter isUnmarshal (r_log r) = []).
Proof.
  intros r. destruct (Call_wellBehaved c ctx method body rsp T opts w)
    as (_ & _ & H1 & H2 & _).
  split; assumption.
Qed.

End WellBehavedProperties.

(** * A call and its attempts *)

Section OwnAttemptsProperties.

Context {M : Type} {PM : PeerManager M}.
Context {V : Type} {CD : Codec V}.

Implicit Types (c : client) (ctx : Context) (request : Request).
Implicit Types (w : World (M := M)) (rsp : Container (V := V)).
Implicit Types (r : CallRet (M := M) (V := V)).
Implicit Types (A B : list (Attempt (M := M) (V := V))).

Lemma triedAt_app (l1 l2 : list Event) :
  triedAt (l1 ++ l2) = triedAt l1 ++ triedAt l2.
Proof.
  induction l1 as [|e l1 IH]; [reflexivity|].
  destruct e; cbn; rewrite IH; reflexivity.
Qed.

Lemma triedAt_tried (l : list Event) : map fst (triedAt l) = tried l.
Proof.
  induction l as [|e l IH]; [reflexivity|].
  destruct e; cbn; rewrite ?IH; reflexivity.
Qed.

Lemma call_triedAt c ctx p request rsp T w :
  triedAt (r_log (call c ctx p request rsp T w)) = [].
Proof.
  apply (map_eq_nil fst). rewrite triedAt_tried. apply call_log_quiet.
Qed.

Lemma endState_app A B rsp (m : M) :
  endState (A ++ B) rsp m
  = endState B (fst (endState A rsp m)) (snd (endState A rsp m)).
Proof.
  revert rsp m. induction A as [|a A IH]; intros rsp m; [reflexivity|].
  cbn. apply IH.
Qed.

Lemma replay_app c ctx request T (l1 l2 : list (PeerID * Time)) rsp (m : M) :
  replay c ctx request T (l1 ++ l2) rsp m =
  replay c ctx request T l1 rsp m ++
  replay c ctx request T l2
    (fst (endState (replay c ctx request T l1 rsp m) rsp m))
    (snd (endState (replay c ctx request T l1 rsp m) rsp m)).
Proof.
  revert rsp m. induction l1 as [|[p t] l1 IH]; intros rsp m; [reflexivity|].
  cbn. rewrite IH. reflexivity.
Qed.

Lemma recorded_app ctx A B :
  recorded ctx (A ++ B) = recorded ctx A ++ recorded ctx B.
Proof. unfold recorded. now rewrite filter_app, map_app. Qed.

Lemma a_failed_iff (a : Attempt (M := M) (V := V)) :
  a_failed a = true <-> r_err (a_ret a) <> None.
Proof.
  unfold a_failed. destruct (r_err (a_ret a)); split; intros H;
    try reflexivity; try discriminate. now elim H.
Qed.

(** What one attempt gives to record. *)
Lemma call_recorded c ctx p request rsp T w :
  let r := call c ctx p request rsp T w in
  let a := {| a_peer := p; a_at := now w; a_ret := r |} in
  failuresOf (r_log r) = recorded ctx [a].
Proof.
  cbn zeta. unfold recorded, a_started, a_failed, a_elapsed, call.
  cbn [a_at a_ret a_peer filter map].
  destruct (ctx_done ctx (now w)); [reflexivity|]. cbn [negb andb].
  destruct (send_wellBehaved c ctx p request rsp T w) as (F & _).
  cbn zeta in F.
  destruct (s_err (sendRequestAndDecodeResponse c ctx p request rsp T w));
    cbn [r_err r_log r_world now map].
  - rewrite failuresOf_app, F. reflexivity.
  - exact F.
Qed.

Lemma follows_with_log c ctx request T rsp w r (l0 : list Event) :
  triedAt l0 = [] -> failuresOf l0 = [] ->
  follows c ctx request T rsp w r ->
  follows c ctx request T rsp w (with_log l0 r).
Proof.
  intros Ht Hf H. unfold follows, with_log in *.
  cbn [r_log r_err r_rsp r_world].
  rewrite triedAt_app, Ht, failuresOf_app, Hf. exact H.
Qed.

(** A step that failed, followed by events that try no peer and record
    nothing, the result being an error. *)
Lemma follows_then c ctx request T rsp w r1 r (l1 : list Event) :
  follows c ctx request T rsp w r1 -> r_err r1 <> None ->
  r_log r = r_log r1 ++ l1 -> triedAt l1 = [] -> failuresOf l1 = [] ->
  r_rsp r = r_rsp r1 -> mgr (r_world r) = mgr (r_world r1) ->
  r_err r <> None ->
  follows c ctx request T rsp w r.
Proof.
  intros (E1 & F1 & _ & K1) Hko Hlog Ht Hf Hrsp Hmgr Herr.
  unfold follows. rewrite Hlog, triedAt_app, Ht, app_nil_r.
  rewrite failuresOf_app, Hf, app_nil_r, Hrsp, Hmgr.
  split; [exact E1|]. split; [exact F1|]. split.
  - intros Hok. now elim Herr.
  - intros _. exact (K1 Hko).
Qed.

(** A step that failed, then another one. *)
Lemma follows_seq c ctx request T rsp w r1 w' r2 r (l1 : list Event) :
  follows c ctx request T rsp w r1 -> r_err r1 <> None ->
  mgr w' = mgr (r_world r1) ->
  follows c ctx request T (r_rsp r1) w' r2 ->
  triedAt l1 = [] -> failuresOf l1 = [] ->
  r_log r = r_log r1 ++ l1 ++ r_log r2 ->
  r_rsp r = r_rsp r2 -> mgr (r_world r) = mgr (r_world r2) ->
  r_err r = r_err r2 ->
  follows c ctx request T rsp w r.
Proof.
  intros (E1 & F1 & _ & K1) Hko Hmgr (E2 & F2 & S2 & K2) Ht Hf Hlog Hrsp
    Hw Herr.
  specialize (K1 Hko).
  unfold follows. rewrite Hlog, !triedAt_app, Ht, !failuresOf_app, Hf.
  cbn [app]. rewrite replay_app, E1. cbn [fst snd]. rewrite <- Hmgr.
  set (A1 := replay c ctx request T (triedAt (r_log r1)) rsp (mgr w)) in *.
  set (A2 := replay c ctx request T (triedAt (r_log r2)) (r_rsp r1) (mgr w'))
    in *.
  rewrite endState_app, E1. cbn [fst snd]. rewrite <- Hmgr.
  rewrite recorded_app, F1, F2, Hrsp, Hw, Herr.
  split; [exact E2|]. split; [reflexivity|]. split.
  - intros Hok. destruct (S2 Hok) as (pre & a & HA & Ha & Hpre).
    exists (A1 ++ pre), a. rewrite HA, app_assoc.
    split; [reflexivity|]. split; [exact Ha|].
    intros b Hb. apply in_app_or in Hb. destruct Hb as [Hb|Hb];
      [now apply K1 | now apply Hpre].
  - intros Hko2 a Ha. apply in_app_or in Ha. destruct Ha as [Ha|Ha];
      [now apply K1 | now apply K2].
Qed.

Lemma tryPeersLoop_follows c ctx request T peers pf rsp w :
  follows c ctx request T rsp w (tryPeersLoop c ctx request T peers pf rsp w).
Proof.
  revert pf rsp w. induction peers as [|peer rest IH]; intros pf rsp w;
    cbn [tryPeersLoop].
  - unfold follows. cbn. split; [reflexivity|]. split; [reflexivity|].
    split; [discriminate | intros _ a []].
  - destruct (isPeerAcceptable c peer); cbn [negb]; [|apply IH].
    pose proof (call_recorded c ctx peer request rsp T w) as Hrec.
    pose proof (call_triedAt c ctx peer request rsp T w) as Hquiet.
    cbn zeta in Hrec.
    assert (Hw : {| now := now w; mgr := mgr w |} = w) by (destruct w; reflexivity).
    set (r0 := call c ctx peer request rsp T w) in *.
    set (a0 := {| a_peer := peer; a_at := now w; a_ret := r0 |}) in *.
    destruct (r_err r0) as [e|] eqn:He.
    + specialize (IH (r_pf r0) (r_rsp r0) (r_world r0)).
      destruct IH as (E2 & F2 & S2 & K2).
      unfold follows. cbn [with_log r_log r_err r_rsp r_world].
      cbn [triedAt failuresOf app].
      rewrite triedAt_app, Hquiet, failuresOf_app, Hrec. cbn [app replay].
      rewrite Hw. fold r0. fold a0.
      set (A2 := replay c ctx request T _ (r_rsp r0) (mgr (r_world r0))) in *.
      cbn [endState a_ret].
      change (a0 :: A2) with ([a0] ++ A2). rewrite recorded_app, F2.
      assert (Ha0 : a_failed a0 = true).
      { unfold a_failed, a0. cbn [a_ret]. now rewrite He. }
      split; [exact E2|]. split; [reflexivity|]. split.
      * intros Hok. destruct (S2 Hok) as (pre & a & HA & Ha & Hpre).
        exists (a0 :: pre), a. rewrite HA. split; [reflexivity|].
        split; [exact Ha|].
        intros b [<-|Hb]; [exact Ha0 | now apply Hpre].
      * intros Hko a [<-|Ha]; [exact Ha0 | now apply K2].
    + unfold follows. cbn [with_log r_log r_err r_rsp r_world].
      cbn [triedAt failuresOf app]. rewrite Hquiet, Hrec. cbn [replay].
      rewrite Hw. fold r0. fold a0. cbn [endState a_ret].
      split; [reflexivity|]. split; [reflexivity|]. split.
      * intros _. exists [], a0. split; [reflexivity|]. split.
        -- unfold a_failed, a0. cbn [a_ret]. now rewrite He.
        -- intros b [].
      * rewrite He. intros H. now elim H.
Qed.

Lemma tryPeers_follows c ctx request T pf rsp w :
  follows c ctx request T rsp w (tryPeers c ctx request T pf rsp w).
Proof.
  unfold tryPeers. apply follows_with_log; [reflexivity | reflexivity|].
  apply tryPeersLoop_follows.
Qed.

Lemma Retry_follows c request T n (interval : Duration) ctx
    (operation : option PeerFeedback -> Container (V := V) -> World (M := M)
                 -> CallRet (M := M) (V := V)) pf rsp w :
  (forall pf rsp w, follows c ctx request T rsp w (operation pf rsp w)) ->
  follows c ctx request T rsp w (Retry n interval ctx operation pf rsp w).
Proof.
  intros Hop. revert pf rsp w. induction n as [|n IH]; intros pf rsp w;
    rewrite Retry_eq; cbn zeta; pose proof (Hop pf rsp w) as H0;
    destruct (r_err (operation pf rsp w)) as [err|] eqn:He; try exact H0.
  - apply (follows_then c ctx request T rsp w (operation pf rsp w) _ []);
      [exact H0 | rewrite He; discriminate | cbn; now rewrite app_nil_r
      | reflexivity | reflexivity | reflexivity | reflexivity |].
    unfold stopped. cbn. destruct (ctx_Err _ _); discriminate.
  - destruct (_ =? Stop).
    { apply (follows_then c ctx request T rsp w (operation pf rsp w) _ []);
        [exact H0 | rewrite He; discriminate | cbn; now rewrite app_nil_r
        | reflexivity | reflexivity | reflexivity | reflexivity |].
      unfold stopped. cbn. destruct (ctx_Err _ _); discriminate. }
    destruct (match doneAt ctx with Some _ => _ | None => _ end).
    + eapply (follows_then c ctx request T rsp w (operation pf rsp w));
        [exact H0 | rewrite He; discriminate | reflexivity
        | reflexivity | reflexivity | reflexivity | reflexivity
        | discriminate].
    + eapply (follows_seq c ctx request T rsp w (operation pf rsp w));
        [exact H0 | rewrite He; discriminate | | apply IH | |
        | cbn [with_log r_log]; rewrite <- app_assoc; reflexivity
        | reflexivity | reflexivity | reflexivity];
        reflexivity.
Qed.

Lemma Call_follows c ctx method (body : V) rsp T opts w :
  follows c ctx {| Method := method; Body := Marshal body |} T rsp w
    (Call c ctx method body rsp T opts w).
Proof.
  unfold Call. apply follows_with_log; [reflexivity | reflexivity|].
  destruct (0 <? _)%N.
  - apply Retry_follows. intros pf' rsp' w'. apply tryPeers_follows.
  - apply tryPeers_follows.
Qed.

(** The attempts that the log of a round shows are those of the round as
    the specification words it. *)
Lemma tryPeersLoop_replay c ctx request T peers pf rsp w :
  replay c ctx request T
    (triedAt (r_log (tryPeersLoop c ctx request T peers pf rsp w)))
    rsp (mgr w)
  = untilSuccess
      (attempts c ctx request T (filter (isPeerAcceptable c) peers) rsp w).
Proof.
  revert pf rsp w. induction peers as [|peer rest IH]; intros pf rsp w;
    cbn [tryPeersLoop filter]; [reflexivity|].
  destruct (isPeerAcceptable c peer); cbn [negb]; [|apply IH].
  pose proof (call_triedAt c ctx peer request rsp T w) as Hquiet.
  assert (Hw : {| now := now w; mgr := mgr w |} = w) by (destruct w; reflexivity).
  cbn [attempts untilSuccess a_ret].
  set (r0 := call c ctx peer request rsp T w) in *.
  destruct (r_err r0) as [e|] eqn:He;
    cbn [with_log r_log triedAt app]; rewrite ?triedAt_app, Hquiet;
    cbn [app replay]; rewrite Hw; fold r0; [|reflexivity].
  f_equal. apply IH.
Qed.

Lemma Retry_log_prefix n (interval : Duration) ctx
    (operation : option PeerFeedback -> Container (V := V) -> World (M := M)
                 -> CallRet (M := M) (V := V)) pf rsp w :
  exists tl,
    r_log (Retry n interval ctx operation pf rsp w)
    = r_log (operation pf rsp w) ++ tl /\
    (r_err (operation pf rsp w) = None -> tl = []).
Proof.
  rewrite Retry_eq; cbn zeta.
  destruct (r_err (operation pf rsp w)) eqn:He.
  2:{ exists []. split; [now rewrite app_nil_r | reflexivity]. }
  destruct n.
  { exists []. split; [cbn; now rewrite app_nil_r | discriminate]. }
  destruct (_ =? Stop).
  { exists []. split; [cbn; now rewrite app_nil_r | discriminate]. }
  destruct (match doneAt ctx with Some _ => _ | None => _ end);
    cbn [with_log r_log]; eexists; (split; [|discriminate]).
  - reflexivity.
  - rewrite <- app_assoc. reflexivity.
Qed.

(** C2, as the code has it.  The attempts of a [Call] are those of its
    first round, followed, when retries are on, by those of the later
    rounds.  When all of them fail, whatever other peers would have
    answered, [Call] returns an error and no handle; the error is the fixed
    error of the exhausted round or, when retries are on and the context is
    found done between two rounds, the error of the context; it is the
    former whenever the context is not done at the return.  The error of
    exhaustion wraps nothing: it carries no application error, whatever the
    peers answered, and it differs from every application error. *)
Theorem exhaustion_error c ctx method body rsp T opts w :
  let request := {| Method := method; Body := Marshal body |} in
  let r := Call c ctx method body rsp T opts w in
  let own := ownAttempts c ctx method body rsp T opts w in
  let cand := filter (isPeerAcceptable c) (GetBestPeers (mgr w)) in
  let first := untilSuccess (attempts c ctx request T cand rsp w) in
  (forall a, In a own -> r_err (a_ret a) <> None) ->
  map a_peer own = tried (r_log r) /\
  (exists later, own = first ++ later /\
     (maxRetries (applyCallOptions opts) = 0%N -> later = [])) /\
  r_err r <> None /\
  r_pf r = None /\
  (r_err r = Some errAllPeersFailed \/
   (r_err r = Some (ErrCtx (reason ctx)) /\
    ctx_done ctx (now (r_world r)) = true /\
    (0 < maxRetries (applyCallOptions opts))%N)) /\
  (ctx_done ctx (now (r_world r)) = false ->
   r_err r = Some errAllPeersFailed) /\
  Unwrap errAllPeersFailed = None /\
  (forall observed, isAppError observed = true ->
     ~ carries errAllPeersFailed observed) /\
  (forall module code message,
     errAllPeersFailed <> ErrCoded module code message).
Proof.
  intros request r own cand first Hfail.
  destruct (Call_follows c ctx method body rsp T opts w) as (_ & _ & Hok & _).
  fold r in Hok.
  assert (Hko : r_err r <> None).
  { intros He. destruct (Hok He) as (pre & a & HA & Ha & _).
    assert (Hin : In a own).
    { unfold own, ownAttempts. fold r. rewrite HA. apply in_or_app.
      right. left. reflexivity. }
    apply Hfail in Hin. apply a_failed_iff in Hin. congruence. }
  destruct (Call_result c ctx method body rsp T opts w) as [_ H2].
  fold r in H2. destruct (H2 Hko) as [Hpf Hcases].
  split.
  { unfold own, ownAttempts. fold r. rewrite <- triedAt_tried.
    generalize (triedAt (r_log r)) rsp (mgr w). clear.
    intros l. induction l as [|[p t] l IH]; intros rsp m; [reflexivity|].
    cbn. now rewrite IH. }
  split.
  { assert (Hround : replay c ctx request T
                       (triedAt (r_log (tryPeers c ctx request T None rsp w)))
                       rsp (mgr w) = first).
    { unfold tryPeers. cbn [with_log r_log triedAt app].
      apply tryPeersLoop_replay. }
    unfold own, ownAttempts, r, Call. fold request.
    cbn [with_log r_log triedAt app].
    destruct (0 <? maxRetries (applyCallOptions opts))%N eqn:Hn.
    - destruct (Retry_log_prefix
                  (N.to_nat (maxRetries (applyCallOptions opts)))
                  (retryInterval (applyCallOptions opts)) ctx
                  (tryPeers c ctx request T) None rsp w) as (tl & Htl & _).
      rewrite Htl, triedAt_app, replay_app, Hround.
      eexists. split; [reflexivity|].
      intros H0. rewrite H0 in Hn. discriminate.
    - rewrite Hround. exists []. split; [now rewrite app_nil_r | reflexivity]. }
  split; [exact Hko|].
  split; [exact Hpf|]. split; [|split; [|split; [|split]]].
  - destruct Hcases as [[He _]|Hc]; [left; exact He | right; exact Hc].
  - intros Hnd. destruct Hcases as [[He _]|(_ & Hd & _)]; [exact He|].
    rewrite Hd in Hnd. discriminate.
  - reflexivity.
  - intros observed Happ [Hin|[]]. subst observed. discriminate.
  - intros module code message. discriminate.
Qed.

(** X13.  Whatever the peers do, the peer manager after a [Call] is the
    one before it with one failure recorded for each attempt of the call
    that was started and failed, in the order of the attempts, for the peer
    of the attempt and the time it took, and nothing else: no failure for
    an attempt that found the context done or that succeeded, no success,
    no bad peer.  These are the calls of [RecordFailure] that the log
    shows. *)
Theorem Call_records_failures_only c ctx method (body : V) rsp T opts w :
  let r := Call c ctx method body rsp T opts w in
  let own := ownAttempts c ctx method body rsp T opts w in
  let failures :=
    map (fun a => (a_peer a, now (r_world (a_ret a)) - a_at a))
      (filter (fun a => negb (ctx_done ctx (a_at a)) && a_failed a) own) in
  mgr (r_world r) = recordAll failures (mgr w) /\
  failuresOf (r_log r) = failures /\
  mgr (r_world r) = recordAll (failuresOf (r_log r)) (mgr w) /\
  (r_err r = None ->
   exists pre a, own = pre ++ [a] /\ r_err (a_ret a) = None /\
                 failures = recorded ctx pre) /\
  (r_err r <> None -> forall a, In a own -> r_err (a_ret a) <> None).
Proof.
  intros r own failures.
  destruct (Call_follows c ctx method body rsp T opts w)
    as (_ & Hrec & Hok & Hko).
  fold r in Hrec, Hok, Hko.
  change failures with (recorded ctx own).
  assert (Hlog : failuresOf (r_log r) = recorded ctx own) by exact Hrec.
  destruct (Call_wellBehaved c ctx method body rsp T opts w) as (Hmgr & _).
  fold r in Hmgr.
  split; [rewrite <- Hlog; exact Hmgr|]. split; [exact Hlog|].
  split; [exact Hmgr|]. split.
  - intros He. destruct (Hok He) as (pre & a & HA & Ha & _).
    exists pre, a. unfold own, ownAttempts. fold r. rewrite HA.
    split; [reflexivity|]. split.
    + unfold a_failed in Ha. destruct (r_err (a_ret a));
        [discriminate | reflexivity].
    + rewrite recorded_app. unfold recorded at 2. cbn [filter].
      rewrite Ha, andb_false_r. cbn. now rewrite app_nil_r.
  - intros He a Hin. apply a_failed_iff. now apply Hko.
Qed.

End OwnAttemptsProperties.

(** A times out on both rounds of a call with one retry, and no other peer
    is ranked (B, which would answer, is not): the error of exhaustion
    comes back, and no handle. *)
Lemma exhaustion_error_witness :
  let r := Call (testClient None) background "echo" hello (Some [])
             (5 * Second) [WithMaxRetries 1] (world 0 ["A"]) in
  tried (r_log r) = ["A"; "A"] /\
  r_pf r = None /\ r_err r = Some errAllPeersFailed.
Proof.
  intros r.
  destruct (exhaustion_error (testClient None) background "echo" hello
              (Some []) (5 * Second) [WithMaxRetries 1] (world 0 ["A"]))
    as (Htried & _ & _ & Hpf & _ & He & _).
  - intros a Hin. vm_compute in Hin.
    destruct Hin as [<-|[<-|[]]]; discriminate.
  - split; [|split; [exact Hpf | exact (He eq_refl)]].
    vm_compute. reflexivity.
Defined.

(** A times out and B echoes: the one failure recorded is that of A, for
    the two seconds and two milliseconds of its attempt. *)
Lemma Call_records_failures_only_witness :
  failures
    (mgr (r_world (Call (testClient None) background "echo" hello (Some [])
                     (5 * Second) [] (world 0 ["A"; "B"]))))
  = [("A", 2002000000)].
Proof.
  destruct (Call_records_failures_only (testClient None) background "echo"
              hello (Some []) (5 * Second) [] (world 0 ["A"; "B"]))
    as (Hmgr & _).
  rewrite Hmgr. vm_compute. reflexivity.
Defined.

(** * Calls that attempt nothing, and peers that are never tried *)

Section EdgeProperties.

Context {M : Type} {PM : PeerManager M}.
Context {V : Type} {CD : Codec V}.

Implicit Types (c : client) (ctx : Context) (request : Request).
Implicit Types (w : World (M := M)) (rsp : Container (V := V)).

Lemma tryPeersLoop_no_attempt c ctx request T peers rsp w :
  ctx_done ctx (now w) = true \/ filter (isPeerAcceptable c) peers = [] ->
  tryPeersLoop c ctx request T peers None rsp w =
  {| r_pf := None; r_err := Some errAllPeersFailed; r_rsp := rsp;
     r_world := w;
     r_log := map (fun p => EvTryingPeer p (now w))
                (filter (isPeerAcceptable c) peers) ++ [EvNoPeers] |}.
Proof.
  intros Hidle. induction peers as [|peer rest IH]; [reflexivity|].
  cbn [tryPeersLoop filter].
  destruct (isPeerAcceptable c peer) eqn:Hacc; cbn [negb].
  - destruct Hidle as [Hdone|Hnone].
    + rewrite (call_done c ctx peer request rsp T w Hdone).
      cbn [r_err r_pf r_rsp r_world r_log].
      rewrite IH by (left; exact Hdone). reflexivity.
    + cbn [filter] in Hnone. rewrite Hacc in Hnone. discriminate.
  - apply IH. destruct Hidle as [Hdone|Hnone]; [left; exact Hdone|].
    right. cbn [filter] in Hnone. rewrite Hacc in Hnone. exact Hnone.
Qed.

(** X16.  Without retries, a [Call] on a context that is already done, or
    with no acceptable peer, returns the error of exhaustion, not the
    error of the context: it asks the peer manager once, goes through the
    acceptable peers without opening a stream or recording a failure, and
    leaves the container, the clock and the peer manager as they were. *)
Theorem Call_without_attempt c ctx method (body : V) rsp T opts w :
  maxRetries (applyCallOptions opts) = 0%N ->
  ctx_done ctx (now w) = true \/
  filter (isPeerAcceptable c) (GetBestPeers (mgr w)) = [] ->
  Call c ctx method body rsp T opts w =
  {| r_pf := None; r_err := Some errAllPeersFailed; r_rsp := rsp;
     r_world := w;
     r_log := EvMarshal :: EvGetBestPeers (now w)
              :: map (fun p => EvTryingPeer p (now w))
                   (filter (isPeerAcceptable c) (GetBestPeers (mgr w)))
              ++ [EvNoPeers] |}.
Proof.
  intros Hn Hidle. unfold Call. rewrite Hn. cbn [N.ltb N.compare].
  unfold tryPeers. rewrite tryPeersLoop_no_attempt by exact Hidle.
  reflexivity.
Qed.

(** X17.  When no peer is acceptable, [CallMulti] submits nothing and
    returns at once two empty lists and no error, whatever the size of the
    pool and even on a context that is done. *)
Theorem CallMulti_no_peer c ctx sel rd method (body rspTyp : V) T k w :
  filter (isPeerAcceptable c) (GetBestPeers (mgr w)) = [] ->
  m_runs (CallMulti c ctx sel rd method body rspTyp T k w) = [] /\
  m_out (CallMulti c ctx sel rd method body rspTyp T k w)
  = Returned [] [] None (now w).
Proof.
  intros Hnone. unfold CallMulti. cbn [m_runs m_out].
  match goal with
  | |- ?chs = [] /\ _ => assert (Hchs : chs = [])
  end.
  { apply length_zero_iff_nil. rewrite submitAll_length, Hnone. reflexivity. }
  rewrite Hchs. split; reflexivity.
Qed.

Lemma select_recv_time ctx b (ch : option (TaskRun (M := M) (V := V))) t
    run t' :
  select ctx b ch t = SelRecv run t' -> t <= t' /\ t_finish run <= t'.
Proof.
  unfold select.
  destruct ch as [run'|], (doneAt ctx) as [d|]; try discriminate.
  - destruct (_ <? _); [intros H; injection H as <- <-; lia|].
    destruct (_ <? _); [discriminate|]. destruct b; [discriminate|].
    intros H; injection H as <- <-; lia.
  - intros H; injection H as <- <-; lia.
Qed.

Lemma gather_waits ctx sel i (chs : list (option (TaskRun (M := M) (V := V))))
    t0 collected handles rsps pfs t :
  gather ctx sel i chs t0 collected handles = Returned rsps pfs None t ->
  t0 <= t /\ forall run, In run (runsOf chs) -> t_finish run <= t.
Proof.
  revert i t0 collected handles.
  induction chs as [|ch rest IH]; intros i t0 collected handles; cbn [gather].
  - intros H. injection H as _ _ <-. split; [lia | intros run []].
  - destruct (select ctx (sel i) ch t0) as [|td|run tr] eqn:Hsel;
      [discriminate| |].
    + destruct (select_done _ _ _ _ _ Hsel) as [_ He]. rewrite He.
      discriminate.
    + destruct (select_recv_time _ _ _ _ _ _ Hsel) as [Ht Hf].
      apply select_recv in Hsel. subst ch. cbn [runsOf].
      intros H.
      assert (Hrest : tr <= t /\
                      forall run', In run' (runsOf rest) -> t_finish run' <= t).
      { destruct (r_err (t_result run)); eapply IH; exact H. }
      destruct Hrest as [Htr Hall]. split; [lia|].
      intros run' [<-|Hin]; [lia | now apply Hall].
Qed.

(** X18.  When [CallMulti] returns no error, it returns after every task
    has finished, the tasks that failed as well as the others. *)
Theorem CallMulti_waits_for_all c ctx sel rd method (body rspTyp : V) T k w
    rsps pfs t :
  m_out (CallMulti c ctx sel rd method body rspTyp T k w)
  = Returned rsps pfs None t ->
  now w <= t /\
  forall run,
    In run (runsOf (m_runs (CallMulti c ctx sel rd method body rspTyp T k w))) ->
    t_finish run <= t.
Proof.
  intros H. exact (gather_waits _ _ _ _ _ _ _ _ _ _ H).
Qed.

Lemma tryPeersLoop_tried_acceptable c ctx request T peers pf rsp w :
  Forall (fun p => isPeerAcceptable c p = true)
    (tried (r_log (tryPeersLoop c ctx request T peers pf rsp w))).
Proof.
  destruct (tryPeersLoop_attempts c ctx request T peers pf rsp w)
    as (Htried & _).
  rewrite Htried. apply Forall_forall. intros p Hin.
  apply in_map_iff in Hin. destruct Hin as (a & <- & Hin).
  destruct (untilSuccess_prefix
              (attempts c ctx request T (filter (isPeerAcceptable c) peers)
                 rsp w)) as [rest Hrest].
  assert (Hp : In (a_peer a) (filter (isPeerAcceptable c) peers)).
  { rewrite <- (attempts_peers c ctx request T _ rsp w), Hrest, map_app.
    apply in_or_app. left. apply in_map. exact Hin. }
  apply filter_In in Hp. apply Hp.
Qed.

Lemma Retry_tried (P : PeerID -> Prop) n (interval : Duration) ctx
    (operation : option PeerFeedback -> Container (V := V) -> World (M := M)
                 -> CallRet (M := M) (V := V)) pf rsp w :
  (forall pf rsp w, Forall P (tried (r_log (operation pf rsp w)))) ->
  Forall P (tried (r_log (Retry n interval ctx operation pf rsp w))).
Proof.
  intros Hop. revert pf rsp w. induction n as [|n IH]; intros pf rsp w;
    rewrite Retry_eq; cbn zeta; pose proof (Hop pf rsp w) as H0;
    destruct (r_err (operation pf rsp w)); try exact H0.
  destruct (_ =? Stop); [exact H0|].
  destruct (match doneAt ctx with Some _ => _ | None => _ end); cbn;
    rewrite !tried_app; cbn; rewrite ?app_nil_r; [exact H0|].
  apply Forall_app. split; [exact H0 | apply IH].
Qed.

(** X19.  A client made by [NewClient] with a peer filter as its last
    option never tries, in a [Call] and in whatever round, a peer that the
    filter rejects, and [CallMulti] submits a task only for a peer that the
    filter accepts (the peer that the task then calls is another matter: it
    is the one that the task reads in the variable of the loop); made
    without any option, the client accepts every peer. *)
Theorem NewClient_filter_respected (p2pHost : Host) (pid : ProtocolID)
    (options : list ClientOption) (accept : PeerID -> bool)
    ctx sel rd method (body rspTyp : V) rsp T callOpts k w :
  let c := NewClient p2pHost pid (options ++ [WithPeerFilter accept]) in
  (forall p, In p (tried (r_log (Call c ctx method body rsp T callOpts w))) ->
             accept p = true) /\
  (forall run,
     In run (runsOf (m_runs (CallMulti c ctx sel rd method body rspTyp T k w))) ->
     accept (t_for run) = true) /\
  (forall p, isPeerAcceptable (NewClient p2pHost pid []) p = true).
Proof.
  intros c.
  assert (Hacc : forall p, isPeerAcceptable c p = accept p).
  { intros p. subst c. unfold isPeerAcceptable, NewClient, applyClientOptions.
    cbn [opts]. rewrite fold_left_app. reflexivity. }
  split; [|split; [|reflexivity]].
  - assert (H : Forall (fun p => isPeerAcceptable c p = true)
                  (tried (r_log (Call c ctx method body rsp T callOpts w)))).
    { unfold Call. cbn [with_log r_log app tried].
      assert (Hround : forall request pf' rsp' w',
                Forall (fun p => isPeerAcceptable c p = true)
                  (tried (r_log (tryPeers c ctx request T pf' rsp' w')))).
      { intros request pf' rsp' w'. unfold tryPeers.
        cbn [with_log r_log app tried]. apply tryPeersLoop_tried_acceptable. }
      destruct (0 <? _)%N; [apply Retry_tried|]; intros; apply Hround. }
    intros p Hin. rewrite Forall_forall in H. rewrite <- Hacc. now apply H.
  - intros run Hin.
    destruct (CallMulti_runs c ctx sel rd method body rspTyp T k w run Hin)
      as (_ & Hp & _).
    apply filter_In in Hp. rewrite <- Hacc. apply Hp.
Qed.

End EdgeProperties.

Lemma Call_without_attempt_witness :
  r_err (Call (testClient None) (cancelledAt 0) "echo" hello (Some [])
           (5 * Second) [] (world 0 ["A"; "B"]))
  = Some errAllPeersFailed.
Proof.
  rewrite (Call_without_attempt (testClient None) (cancelledAt 0) "echo"
             hello (Some []) (5 * Second) [] (world 0 ["A"; "B"]));
    [reflexivity | reflexivity | left; reflexivity].
Defined.

Lemma CallMulti_no_peer_witness :
  m_out (CallMulti (testClient (Some (fun _ => false))) (cancelledAt 0)
           (fun _ => false) (fun _ => O) "echo" hello [] (5 * Second) 2
           (world 0 ["A"; "B"]))
  = Returned [] [] None 0.
Proof.
  destruct (CallMulti_no_peer (testClient (Some (fun _ => false)))
              (cancelledAt 0) (fun _ => false) (fun _ => O) "echo" hello []
              (5 * Second) 2 (world 0 ["A"; "B"])) as [_ H];
    [reflexivity | exact H].
Defined.

Lemma CallMulti_waits_for_all_witness :
  0 <= 3014000000.
Proof.
  destruct (CallMulti_waits_for_all (testClient None) background
              (fun _ => false) (fun _ => O) "echo" hello [] (5 * Second) 2
              (world 0 ["A"; "B"; "D"])
              [Some hello; Some hello]
              [Some (peerFeedback "B" 12000000);
               Some (peerFeedback "D" 3002000000)]
              3014000000) as [H _];
    [vm_compute; reflexivity | exact H].
Defined.

(** * The light block of a height *)

Section LightProperties.

Context {SH VS PLB : Type} {LS : LightService SH VS PLB}.


End LightProperties.
